(** * A conservative mark-and-sweep collector (gc.h): model and properties

    The collector keeps its whole state in one static structure and stores
    its two linked lists (the object registry and the free list) inside the
    arena it manages.  The model below follows the C code function by
    function, with explicit state passing:

    - [size_t] values are integers in [0, 2^64) and every [size_t]
      operation is followed by [wrap]; the sizes are those of an LP64
      target (x86-64, aarch64), computed from the field lists of the two
      structs by the usual layout rule;
    - addresses are integers, [0] is the null pointer, and address
      arithmetic inside the arena is plain addition;
    - a linked list threaded through [next] fields is a Rocq list in link
      order; a node is identified by its position in that list;
    - [int] flags are booleans; the two [int] counters are unbounded
      integers; [double] values are binary64 numbers;
    - what the collector reads from its environment (the result of [mmap],
      the stack pointer, the stack words, the register snapshot taken by
      [setjmp]) is passed in as an argument;
    - a call returns, or ends the process ([exit(1)] when [mmap] fails),
      or writes outside the span it acquired, which is a fault;
    - the recursion of [gc_mark_object] is bounded by a fuel argument;
      running out of fuel is [None], and [gc_mark_object_fuel_enough] shows
      that the fuel used by the collector is always enough. *)

From stdpp Require Import base list.
From Stdlib Require Import ZArith Lia.
From Stdlib Require Import Floats.SpecFloat.

Local Open Scope Z_scope.

(** ** Machine integers and struct sizes *)

Definition SIZE_MAX_plus_1 : Z := 2 ^ 64.

(** [size_t] arithmetic is arithmetic modulo 2^64. *)
Definition wrap (x : Z) : Z := x mod SIZE_MAX_plus_1.

Definition GC_HEAP_SIZE : Z := 1024 * 1024.
Definition GC_MAX_OBJECTS : Z := 10000.
Definition GC_ALIGNMENT : Z := 8.

(** Values of type [double] are binary64 numbers, with the operations of
    the IEEE 754 specification of the standard library (53 bits of
    precision, round to nearest even). *)
Definition double : Type := spec_float.

(** Conversion of a [size_t] value to [double]. *)
Definition double_of_size_t (n : Z) : double := binary_normalize 53 1024 n 0 false.

(** [GC_THRESHOLD] is the literal [0.8], the [double] nearest to four
    fifths: 7205759403792794 * 2^-53. *)
Definition GC_THRESHOLD : double := S754_finite false 7205759403792794 (-53).

(** Layout of a C struct: every field is placed at the next multiple of its
    alignment, and the size is rounded up to the largest alignment. *)
Definition round_up (x a : Z) : Z := ((x + a - 1) / a) * a.

Definition struct_end (fields : list (Z * Z)) : Z :=
  fold_left (fun off f => round_up off (snd f) + fst f) fields 0.

Definition struct_align (fields : list (Z * Z)) : Z :=
  fold_left (fun al f => Z.max al (snd f)) fields 1.

Definition sizeof_struct (fields : list (Z * Z)) : Z :=
  round_up (struct_end fields) (struct_align fields).

(** [struct gc_object { size_t size; int marked; struct gc_object* next;
    char data[]; }]: the flexible array member adds no bytes. *)
Definition gc_object_fields : list (Z * Z) := [(8, 8); (4, 4); (8, 8)].

(** [struct gc_free_block { size_t size; struct gc_free_block* next; }] *)
Definition gc_free_block_fields : list (Z * Z) := [(8, 8); (8, 8)].

Definition sizeof_gc_object_t : Z :=
  Eval vm_compute in sizeof_struct gc_object_fields.

Definition sizeof_gc_free_block_t : Z :=
  Eval vm_compute in sizeof_struct gc_free_block_fields.

(** [sizeof(void* )] and [sizeof(uintptr_t)]. *)
Definition sizeof_ptr : Z := 8.

(** ** Data model *)

(** An object header together with its payload.  [obj_addr] is the address
    of the header; the payload [data] starts [sizeof_gc_object_t] bytes
    later, and [obj_data i] is its [i]-th pointer-sized word, the value of
    [((uintptr_t* )obj->data)[i]]. *)
Record gc_object_t := {
  obj_addr : Z;
  obj_size : Z;
  obj_marked : bool;
  obj_data : nat -> Z
}.

Record gc_free_block_t := {
  blk_addr : Z;
  blk_size : Z
}.

Record gc_state_t := {
  heap : Z;
  heap_size : Z;
  heap_used : Z;
  objects : list gc_object_t;
  free_list : list gc_free_block_t;
  stack_bottom : Z;
  stack_top : Z;
  initialized : bool;
  registers : list Z;
  collection_count : Z;
  allocation_count : Z
}.

(** [static struct { ... } gc_state = {0};] *)
Definition gc_state0 : gc_state_t := {|
  heap := 0; heap_size := 0; heap_used := 0;
  objects := []; free_list := [];
  stack_bottom := 0; stack_top := 0; initialized := false;
  registers := []; collection_count := 0; allocation_count := 0
|}.

Definition set_objects (objs : list gc_object_t) (st : gc_state_t) : gc_state_t := {|
  heap := heap st; heap_size := heap_size st; heap_used := heap_used st;
  objects := objs; free_list := free_list st;
  stack_bottom := stack_bottom st; stack_top := stack_top st;
  initialized := initialized st; registers := registers st;
  collection_count := collection_count st;
  allocation_count := allocation_count st
|}.

Definition set_free_list (fl : list gc_free_block_t) (st : gc_state_t) : gc_state_t := {|
  heap := heap st; heap_size := heap_size st; heap_used := heap_used st;
  objects := objects st; free_list := fl;
  stack_bottom := stack_bottom st; stack_top := stack_top st;
  initialized := initialized st; registers := registers st;
  collection_count := collection_count st;
  allocation_count := allocation_count st
|}.

Definition set_heap_used (used : Z) (st : gc_state_t) : gc_state_t := {|
  heap := heap st; heap_size := heap_size st; heap_used := used;
  objects := objects st; free_list := free_list st;
  stack_bottom := stack_bottom st; stack_top := stack_top st;
  initialized := initialized st; registers := registers st;
  collection_count := collection_count st;
  allocation_count := allocation_count st
|}.

Definition set_stack_bottom (sb : Z) (st : gc_state_t) : gc_state_t := {|
  heap := heap st; heap_size := heap_size st; heap_used := heap_used st;
  objects := objects st; free_list := free_list st;
  stack_bottom := sb; stack_top := stack_top st;
  initialized := initialized st; registers := registers st;
  collection_count := collection_count st;
  allocation_count := allocation_count st
|}.

Definition set_roots (sp : Z) (regs : list Z) (st : gc_state_t) : gc_state_t := {|
  heap := heap st; heap_size := heap_size st; heap_used := heap_used st;
  objects := objects st; free_list := free_list st;
  stack_bottom := stack_bottom st; stack_top := sp;
  initialized := initialized st; registers := regs;
  collection_count := collection_count st;
  allocation_count := allocation_count st
|}.

Definition set_collection_count (n : Z) (st : gc_state_t) : gc_state_t := {|
  heap := heap st; heap_size := heap_size st; heap_used := heap_used st;
  objects := objects st; free_list := free_list st;
  stack_bottom := stack_bottom st; stack_top := stack_top st;
  initialized := initialized st; registers := registers st;
  collection_count := n;
  allocation_count := allocation_count st
|}.

Definition set_allocation_count (n : Z) (st : gc_state_t) : gc_state_t := {|
  heap := heap st; heap_size := heap_size st; heap_used := heap_used st;
  objects := objects st; free_list := free_list st;
  stack_bottom := stack_bottom st; stack_top := stack_top st;
  initialized := initialized st; registers := registers st;
  collection_count := collection_count st;
  allocation_count := n
|}.

(** What one collection reads from the running thread: the stack pointer,
    the contents of the stack, and the words [setjmp] stored in the
    [jmp_buf]. *)
Record machine_ctx := {
  ctx_sp : Z;
  ctx_stack : Z -> Z;
  ctx_regs : list Z
}.

(** What one call to the allocator reads from its environment: the result
    of [mmap] ([None] is [MAP_FAILED]) should the heap have to be created,
    and the thread context seen by the first and by the second collection
    the call may run. *)
Record call_env := {
  env_mmap : option Z;
  env_ctx1 : machine_ctx;
  env_ctx2 : machine_ctx
}.

(** How a call ends: it returns, the process exits ([exit(1)] in
    [gc_init]), or it writes outside the span it acquired. *)
Inductive outcome (A : Type) : Type :=
| Done (a : A)
| Exited
| Fault.
Arguments Done {A} a.
Arguments Exited {A}.
Arguments Fault {A}.

(** The value of a call to a function returning [void*]: the pointer given
    to a [return] statement, or no value when control leaves the statements
    of the function without reaching one. *)
Inductive retval : Type :=
| Returned (p : Z)
| NoValue.

Definition NULL : Z := 0.

(** ** Initialisation *)

Definition gc_init (mm : option Z) (st : gc_state_t) : outcome gc_state_t :=
  if initialized st then Done st
  else match mm with
       | None => Exited
       | Some base => Done {|
           heap := base; heap_size := GC_HEAP_SIZE; heap_used := 0;
           objects := [];
           free_list := [ {| blk_addr := base; blk_size := GC_HEAP_SIZE |} ];
           stack_bottom := stack_bottom st; stack_top := stack_top st;
           initialized := true; registers := registers st;
           collection_count := 0; allocation_count := 0 |}
       end.

Definition gc_init_constructor (sb : Z) (mm : option Z) (st : gc_state_t)
  : outcome gc_state_t :=
  gc_init mm (set_stack_bottom sb st).

(** ** Pointer tests and containment lookup *)

Definition gc_is_pointer (st : gc_state_t) (ptr : Z) : bool :=
  (heap st <=? ptr) && (ptr <? heap st + heap_size st).

Definition gc_is_valid_pointer (st : gc_state_t) (value : Z) : bool :=
  if negb (value mod sizeof_ptr =? 0) then false
  else gc_is_pointer st value.

(** Address of [obj->data]. *)
Definition obj_data_addr (obj : gc_object_t) : Z :=
  obj_addr obj + sizeof_gc_object_t.

Definition obj_contains (obj : gc_object_t) (ptr : Z) : bool :=
  (obj_data_addr obj <=? ptr) && (ptr <? obj_data_addr obj + obj_size obj).

Fixpoint find_containing (ptr : Z) (objs : list gc_object_t) : option nat :=
  match objs with
  | [] => None
  | obj :: rest =>
      if obj_contains obj ptr then Some O
      else S <$> find_containing ptr rest
  end.

Definition gc_find_object_containing (st : gc_state_t) (ptr : Z) : option nat :=
  if negb (gc_is_pointer st ptr) then None
  else find_containing ptr (objects st).

(** ** Mark engine *)

Definition set_mark (m : bool) (obj : gc_object_t) : gc_object_t := {|
  obj_addr := obj_addr obj; obj_size := obj_size obj;
  obj_marked := m; obj_data := obj_data obj
|}.

(** The words [data[0] .. data[word_count - 1]] of an object. *)
Definition payload_words (obj : gc_object_t) : list Z :=
  map (obj_data obj) (seq 0 (Z.to_nat (obj_size obj / sizeof_ptr))).

(** The scanning loops: every word that passes the candidate test is handed
    to [mark], in order, each call starting from the state the previous one
    left. *)
Fixpoint mark_words (mark : Z -> gc_state_t -> option gc_state_t)
    (words : list Z) (st : gc_state_t) : option gc_state_t :=
  match words with
  | [] => Some st
  | w :: ws =>
      if gc_is_valid_pointer st w then
        match mark w st with
        | Some st' => mark_words mark ws st'
        | None => None
        end
      else mark_words mark ws st
  end.

Fixpoint gc_mark_object (fuel : nat) (ptr : Z) (st : gc_state_t)
  : option gc_state_t :=
  match fuel with
  | O => None
  | S fuel' =>
      if negb (gc_is_pointer st ptr) then Some st
      else match gc_find_object_containing st ptr with
           | None => Some st
           | Some i =>
               match objects st !! i with
               | None => Some st
               | Some obj =>
                   if obj_marked obj then Some st
                   else
                     let st1 := set_objects (alter (set_mark true) i (objects st)) st in
                     mark_words (gc_mark_object fuel') (payload_words obj) st1
               end
           end
  end.

(** One more than the number of registered objects: more than the number of
    objects a traversal can still mark. *)
Definition mark_fuel (st : gc_state_t) : nat := S (length (objects st)).

Definition gc_mark_object_run (ptr : Z) (st : gc_state_t) : gc_state_t :=
  default st (gc_mark_object (mark_fuel st) ptr st).

(** The loops of [gc_mark_roots] over the stack and over the [jmp_buf]. *)
Fixpoint mark_roots_words (words : list Z) (st : gc_state_t) : gc_state_t :=
  match words with
  | [] => st
  | w :: ws =>
      if gc_is_valid_pointer st w
      then mark_roots_words ws (gc_mark_object_run w st)
      else mark_roots_words ws st
  end.

(** The words visited by [while (ptr < end) { ... ptr++; }]. *)
Definition stack_words (mem : Z -> Z) (stack_start stack_end : Z) : list Z :=
  map (fun i => mem (stack_start + sizeof_ptr * Z.of_nat i))
      (seq 0 (Z.to_nat ((stack_end - stack_start + sizeof_ptr - 1) / sizeof_ptr))).

Definition gc_mark_roots (ctx : machine_ctx) (st : gc_state_t) : gc_state_t :=
  let st := set_roots (ctx_sp ctx) (ctx_regs ctx) st in
  let stack_start := stack_top st in
  let stack_end := stack_bottom st in
  let '(stack_start, stack_end) :=
    if stack_end <? stack_start then (stack_end, stack_start)
    else (stack_start, stack_end) in
  let st := mark_roots_words (stack_words (ctx_stack ctx) stack_start stack_end) st in
  mark_roots_words (registers st) st.

(** ** Free-list allocator *)

Fixpoint insert_block (nb : gc_free_block_t) (fl : list gc_free_block_t)
  : list gc_free_block_t :=
  match fl with
  | [] => [nb]
  | b :: rest =>
      if blk_addr b <? blk_addr nb then b :: insert_block nb rest
      else nb :: b :: rest
  end.

Definition gc_add_to_freelist (ptr size : Z) (fl : list gc_free_block_t)
  : list gc_free_block_t :=
  if size <? sizeof_gc_free_block_t then fl
  else insert_block {| blk_addr := ptr; blk_size := size |} fl.

(** [coalesce_from current rest]: the loop of [gc_coalesce_freelist] with
    [current] the block under the cursor and [rest] the list after it. *)
Fixpoint coalesce_from (current : gc_free_block_t) (rest : list gc_free_block_t)
  : list gc_free_block_t :=
  match rest with
  | [] => [current]
  | next :: rest' =>
      if blk_addr current + blk_size current =? blk_addr next
      then coalesce_from {| blk_addr := blk_addr current;
                            blk_size := wrap (blk_size current + blk_size next) |} rest'
      else current :: coalesce_from next rest'
  end.

Definition gc_coalesce_freelist (fl : list gc_free_block_t) : list gc_free_block_t :=
  match fl with
  | [] => []
  | current :: rest => coalesce_from current rest
  end.

(** Returns the address of the acquired span and the new free list. *)
Fixpoint gc_alloc_from_freelist (size : Z) (fl : list gc_free_block_t)
  : option (Z * list gc_free_block_t) :=
  match fl with
  | [] => None
  | block :: rest =>
      if size <=? blk_size block then
        if wrap (size + sizeof_gc_free_block_t + GC_ALIGNMENT) <=? blk_size block
        then Some (blk_addr block,
                   {| blk_addr := blk_addr block + size;
                      blk_size := wrap (blk_size block - size) |} :: rest)
        else Some (blk_addr block, rest)
      else
        match gc_alloc_from_freelist size rest with
        | Some (p, rest') => Some (p, block :: rest')
        | None => None
        end
  end.

(** ** Sweep engine *)

(** The loop of [gc_sweep]: the registry that is left, the free list and the
    bytes in use. *)
Fixpoint sweep_objects (objs : list gc_object_t) (fl : list gc_free_block_t)
    (used : Z) : list gc_object_t * list gc_free_block_t * Z :=
  match objs with
  | [] => ([], fl, used)
  | obj :: rest =>
      if negb (obj_marked obj) then
        let total_size := wrap (sizeof_gc_object_t + obj_size obj) in
        sweep_objects rest
          (gc_add_to_freelist (obj_addr obj) total_size fl)
          (wrap (used - total_size))
      else
        let '(kept, fl', used') := sweep_objects rest fl used in
        (set_mark false obj :: kept, fl', used')
  end.

Definition gc_sweep (st : gc_state_t) : gc_state_t :=
  let '(objs, fl, used) := sweep_objects (objects st) (free_list st) (heap_used st) in
  set_free_list (gc_coalesce_freelist fl)
    (set_heap_used used (set_objects objs st)).

(** ** Collection *)

Definition gc_collect (ctx : machine_ctx) (st : gc_state_t) : gc_state_t :=
  if negb (initialized st) then st
  else
    let st := gc_mark_roots ctx st in
    let st := gc_sweep st in
    set_collection_count (collection_count st + 1) st.

(** ** Allocation *)

(** [(size + GC_ALIGNMENT - 1) & ~(GC_ALIGNMENT - 1)] in [size_t]. *)
Definition align_size (size : Z) : Z :=
  Z.land (wrap (size + GC_ALIGNMENT - 1)) (wrap (Z.lnot (GC_ALIGNMENT - 1))).

(** [used > heap_size * GC_THRESHOLD]: both [size_t] operands are converted
    to [double], the product and the comparison are those of doubles. *)
Definition exceeds_threshold (used hsize : Z) : bool :=
  SFltb (SFmul 53 1024 (double_of_size_t hsize) GC_THRESHOLD) (double_of_size_t used).

(** [if (!gc_state.initialized) gc_init();] *)
Definition gc_malloc_init (env : call_env) (st : gc_state_t) : outcome gc_state_t :=
  if negb (initialized st) then gc_init (env_mmap env) st else Done st.

(** The state in which [gc_malloc] first tries the free list: the heap is
    created if need be and the threshold collection has run if due. *)
Definition gc_malloc_prepare (env : call_env) (size : Z) (st : gc_state_t)
  : outcome gc_state_t :=
  match gc_malloc_init env st with
  | Done st =>
      let size := align_size size in
      let total_size := wrap (sizeof_gc_object_t + size) in
      if exceeds_threshold (wrap (heap_used st + total_size)) (heap_size st)
      then Done (gc_collect (env_ctx1 env) st)
      else Done st
  | Exited => Exited
  | Fault => Fault
  end.

(** Header initialisation, accounting and [memset] once a span at [ptr] has
    been acquired.  The header and the payload take
    [sizeof_gc_object_t + size] bytes.  When that sum does not fit [size_t]
    the span asked for is [total_size], at most 16, bytes, while [memset]
    clears [size], at least 2^64 - 24, bytes from the payload address on,
    which leaves the arena and the mapped memory.  That call does not
    return. *)
Definition gc_malloc_commit (ptr size total_size : Z) (st : gc_state_t)
  : outcome (Z * gc_state_t) :=
  if SIZE_MAX_plus_1 <=? sizeof_gc_object_t + size then Fault
  else
    let obj := {| obj_addr := ptr; obj_size := size; obj_marked := false;
                  obj_data := fun _ => 0 |} in
    let st := set_objects (obj :: objects st) st in
    let st := set_heap_used (wrap (heap_used st + total_size)) st in
    let st := set_allocation_count (allocation_count st + 1) st in
    Done (obj_data_addr obj, st).

(** The rest of [gc_malloc], from the first attempt on the free list on. *)
Definition gc_malloc_acquire (env : call_env) (size : Z) (st : gc_state_t)
  : outcome (Z * gc_state_t) :=
  let size := align_size size in
  let total_size := wrap (sizeof_gc_object_t + size) in
  match gc_alloc_from_freelist total_size (free_list st) with
  | Some (ptr, fl) => gc_malloc_commit ptr size total_size (set_free_list fl st)
  | None =>
      let st := gc_collect (env_ctx2 env) st in
      match gc_alloc_from_freelist total_size (free_list st) with
      | Some (ptr, fl) => gc_malloc_commit ptr size total_size (set_free_list fl st)
      | None => Done (NULL, st)
      end
  end.

Definition gc_malloc (env : call_env) (size : Z) (st : gc_state_t)
  : outcome (Z * gc_state_t) :=
  match gc_malloc_prepare env size st with
  | Done st => gc_malloc_acquire env size st
  | Exited => Exited
  | Fault => Fault
  end.

Definition gc_calloc (env : call_env) (num size : Z) (st : gc_state_t)
  : outcome (Z * gc_state_t) :=
  gc_malloc env (wrap (num * size)) st.

(** The lookup loop of [gc_realloc]: the first registered object whose
    payload address is [ptr]. *)
Fixpoint find_payload (ptr : Z) (objs : list gc_object_t) : option gc_object_t :=
  match objs with
  | [] => None
  | curr :: rest =>
      if obj_data_addr curr =? ptr then Some curr
      else find_payload ptr rest
  end.

Definition with_retval (r : outcome (Z * gc_state_t)) : outcome (retval * gc_state_t) :=
  match r with
  | Done (p, st) => Done (Returned p, st)
  | Exited => Exited
  | Fault => Fault
  end.

(** [gc_realloc] as its braces stand: the block opened by
    [if (aligned_new_size <= obj->size) {] is closed only by the brace that
    follows [return new_ptr;], so the statements after [return ptr;] (the
    call to [gc_malloc], the [memcpy], [return new_ptr;]) belong to that
    block and are never reached; when the test fails control leaves the
    [if] statement without having met a [return]. *)
Definition gc_realloc (env : call_env) (ptr new_size : Z) (st : gc_state_t)
  : outcome (retval * gc_state_t) :=
  if ptr =? NULL then with_retval (gc_malloc env new_size st)
  else if new_size =? 0 then Done (Returned NULL, st)
  else match find_payload ptr (objects st) with
       | None => with_retval (gc_malloc env new_size st)
       | Some obj =>
           let aligned_new_size := align_size new_size in
           if aligned_new_size <=? obj_size obj then Done (Returned ptr, st)
           else Done (NoValue, st)
       end.

Definition gc_free (ptr : Z) (st : gc_state_t) : gc_state_t := st.

Definition gc_force_collect (ctx : machine_ctx) (st : gc_state_t) : gc_state_t :=
  gc_collect ctx st.

(** * Vocabulary of the properties *)

(** ** Marking only sets mark flags *)

Definition same_shape (o o' : gc_object_t) : Prop :=
  obj_addr o = obj_addr o' /\ obj_size o = obj_size o' /\ obj_data o = obj_data o'.

Definition mark_le_obj (o o' : gc_object_t) : Prop :=
  same_shape o o' /\ (obj_marked o = true -> obj_marked o' = true).

(** [st'] is [st] with some more mark flags set. *)
Definition mark_le (st st' : gc_state_t) : Prop :=
  st' = set_objects (objects st') st /\
  Forall2 mark_le_obj (objects st) (objects st').

(** The number of objects whose mark flag is clear. *)
Fixpoint unmarked_count (objs : list gc_object_t) : nat :=
  match objs with
  | [] => O
  | o :: rest => ((if obj_marked o then 0 else 1) + unmarked_count rest)%nat
  end.

(** ** What marking marks *)

Definition is_marked (st : gc_state_t) (i : nat) : Prop :=
  exists o, objects st !! i = Some o /\ obj_marked o = true.

(** Object [i] holds, in one of the scanned words of its payload, a
    candidate pointer that the containment lookup resolves to object [j]. *)
Definition points_to (st : gc_state_t) (i j : nat) : Prop :=
  exists o w, objects st !! i = Some o /\ In w (payload_words o) /\
              gc_is_valid_pointer st w = true /\
              gc_find_object_containing st w = Some j.

Inductive reaches (st : gc_state_t) : nat -> nat -> Prop :=
| reaches_refl i : reaches st i i
| reaches_step i j k : reaches st i j -> points_to st j k -> reaches st i k.

(** No marked object refers to an unmarked one. *)
Definition marks_closed (st : gc_state_t) : Prop :=
  forall i j, is_marked st i -> points_to st i j -> is_marked st j.

Definition no_marks (st : gc_state_t) : Prop :=
  Forall (fun o => obj_marked o = false) (objects st).

(** The words [gc_mark_roots] scans: the stack between the stack pointer
    and the recorded bottom, in ascending order, then the [jmp_buf]. *)
Definition root_words (ctx : machine_ctx) (st : gc_state_t) : list Z :=
  stack_words (ctx_stack ctx)
    (Z.min (ctx_sp ctx) (stack_bottom st)) (Z.max (ctx_sp ctx) (stack_bottom st))
  ++ ctx_regs ctx.

(** What one call guarantees when it returns: flags are only set, the
    object the address resolves to is marked, and every object marked by
    the call has all the objects it points to marked. *)
Definition mark_post (p : Z) (st st' : gc_state_t) : Prop :=
  mark_le st st' /\
  (forall i, gc_find_object_containing st p = Some i -> is_marked st' i) /\
  (forall i, is_marked st' i -> ~ is_marked st i ->
             forall j, points_to st i j -> is_marked st' j).

Definition words_post (ws : list Z) (st st' : gc_state_t) : Prop :=
  mark_le st st' /\
  (forall w i, In w ws -> gc_is_valid_pointer st w = true ->
               gc_find_object_containing st w = Some i -> is_marked st' i) /\
  (forall i, is_marked st' i -> ~ is_marked st i ->
             forall j, points_to st i j -> is_marked st' j).

(** ** Layout of the arena *)

(** A region of the arena: its first address and its length in bytes. *)
Definition region : Type := Z * Z.

Definition obj_span (o : gc_object_t) : Z := sizeof_gc_object_t + obj_size o.

Definition obj_region (o : gc_object_t) : region := (obj_addr o, obj_span o).

Definition blk_region (b : gc_free_block_t) : region := (blk_addr b, blk_size b).

Definition apart (r1 r2 : region) : Prop :=
  fst r1 + snd r1 <= fst r2 \/ fst r2 + snd r2 <= fst r1.

Definition off_blocks (fl : list gc_free_block_t) (r : region) : Prop :=
  Forall (fun b => apart r (blk_region b)) fl.

Fixpoint pairwise_apart (rs : list region) : Prop :=
  match rs with
  | [] => True
  | r :: rest => Forall (apart r) rest /\ pairwise_apart rest
  end.

Fixpoint sum_len (rs : list region) : Z :=
  match rs with
  | [] => 0
  | r :: rest => snd r + sum_len rest
  end.

(** Header and payload bytes of all registered objects. *)
Definition registry_bytes (objs : list gc_object_t) : Z :=
  sum_len (map obj_region objs).

Definition free_bytes (fl : list gc_free_block_t) : Z :=
  sum_len (map blk_region fl).

(** The free list from address [lo] on: ascending, every block large enough
    to hold an object header, and at least [gap] bytes between the end of
    one block and the start of the next. *)
Fixpoint free_chain (gap lo : Z) (fl : list gc_free_block_t) : Prop :=
  match fl with
  | [] => True
  | b :: rest =>
      lo <= blk_addr b /\ sizeof_gc_object_t <= blk_size b /\
      free_chain gap (blk_addr b + blk_size b + gap) rest
  end.

Definition region_ok (lo : Z) (r : region) : Prop :=
  lo <= fst r /\ sizeof_gc_object_t <= snd r < SIZE_MAX_plus_1.

(** The state of a collector whose heap exists: the spans of the registered
    objects lie in the arena from its base on, fit [size_t], and overlap
    neither one another nor a free block; the free list is ascending with a
    gap after every block; the bytes in use are those of the registry, and
    registry and free list together hold no more than the arena. *)
Record wf (st : gc_state_t) : Prop := {
  wf_initialized : initialized st = true;
  wf_heap : 0 < heap st;
  wf_heap_size : heap_size st = GC_HEAP_SIZE;
  wf_regions : Forall (region_ok (heap st)) (map obj_region (objects st));
  wf_apart : pairwise_apart (map obj_region (objects st));
  wf_off : Forall (off_blocks (free_list st)) (map obj_region (objects st));
  wf_chain : free_chain 1 (heap st) (free_list st);
  wf_used : heap_used st = registry_bytes (objects st);
  wf_total : registry_bytes (objects st) + free_bytes (free_list st) <= heap_size st
}.

(** The state before the heap is created. *)
Definition pre_init (st : gc_state_t) : Prop :=
  initialized st = false /\ objects st = [] /\ free_list st = [] /\ heap_used st = 0.

Definition inv (st : gc_state_t) : Prop := pre_init st \/ wf st.

(** ** Sweeping *)

(** The objects a sweep keeps, and the regions it hands to the free list. *)
Fixpoint survivors (objs : list gc_object_t) : list gc_object_t :=
  match objs with
  | [] => []
  | o :: rest =>
      if obj_marked o then set_mark false o :: survivors rest else survivors rest
  end.

Fixpoint swept_regions (objs : list gc_object_t) : list region :=
  match objs with
  | [] => []
  | o :: rest =>
      if obj_marked o then swept_regions rest else obj_region o :: swept_regions rest
  end.

(** [mmap] returns [MAP_FAILED] or the address of a fresh mapping of the
    requested length. *)
Definition mmap_ok (mm : option Z) : Prop :=
  match mm with
  | None => True
  | Some base => 0 < base /\ base + GC_HEAP_SIZE <= SIZE_MAX_plus_1
  end.

(** ** The states a program can be in *)

Definition set_data (d : nat -> Z) (o : gc_object_t) : gc_object_t := {|
  obj_addr := obj_addr o; obj_size := obj_size o;
  obj_marked := obj_marked o; obj_data := d
|}.

(** The program stores the word [w] at index [k] of the payload of the
    [i]-th registered object. *)
Definition store_word (i k : nat) (w : Z) (st : gc_state_t) : gc_state_t :=
  set_objects
    (alter (fun o => set_data (fun j => if Nat.eqb j k then w else obj_data o j) o)
       i (objects st)) st.

(** One action of the running program on the collector state: the
    constructor that runs before [main], a call to one of the entry points
    that returns, or a store into the payload of a registered object. *)
Inductive step : gc_state_t -> gc_state_t -> Prop :=
| step_constructor (sb : Z) (mm : option Z) (st st' : gc_state_t) :
    mmap_ok mm -> gc_init_constructor sb mm st = Done st' -> step st st'
| step_malloc (env : call_env) (size p : Z) (st st' : gc_state_t) :
    mmap_ok (env_mmap env) -> 0 <= size < SIZE_MAX_plus_1 ->
    gc_malloc env size st = Done (p, st') -> step st st'
| step_calloc (env : call_env) (num size p : Z) (st st' : gc_state_t) :
    mmap_ok (env_mmap env) -> 0 <= num < SIZE_MAX_plus_1 -> 0 <= size < SIZE_MAX_plus_1 ->
    gc_calloc env num size st = Done (p, st') -> step st st'
| step_realloc (env : call_env) (ptr new_size : Z) (r : retval) (st st' : gc_state_t) :
    mmap_ok (env_mmap env) -> 0 <= new_size < SIZE_MAX_plus_1 ->
    gc_realloc env ptr new_size st = Done (r, st') -> step st st'
| step_free (ptr : Z) (st : gc_state_t) : step st (gc_free ptr st)
| step_force_collect (ctx : machine_ctx) (st : gc_state_t) :
    step st (gc_force_collect ctx st)
| step_store (i k : nat) (w : Z) (st : gc_state_t) :
    0 <= w < SIZE_MAX_plus_1 -> step st (store_word i k w st).

Inductive reachable : gc_state_t -> Prop :=
| reachable_start : reachable gc_state0
| reachable_step (st st' : gc_state_t) : reachable st -> step st st' -> reachable st'.

(** ** Order of the free list *)

Definition strictly_ascending (fl : list gc_free_block_t) : Prop :=
  forall (i j : nat) (b b' : gc_free_block_t),
    (i < j)%nat -> fl !! i = Some b -> fl !! j = Some b' ->
    blk_addr b < blk_addr b'.

(** No block ends where a block of the list starts. *)
Definition no_adjacent_blocks (fl : list gc_free_block_t) : Prop :=
  forall (i j : nat) (b b' : gc_free_block_t),
    fl !! i = Some b -> fl !! j = Some b' ->
    blk_addr b + blk_size b <> blk_addr b'.

(** ** Sums over the registry *)

Definition sum_Z (l : list Z) : Z := foldr Z.add 0 l.

(** * Example runs *)

Definition state_of {A : Type} (r : outcome (A * gc_state_t)) : gc_state_t :=
  match r with
  | Done (_, st) => st
  | _ => gc_state0
  end.

(** A thread whose stack and registers hold no candidate pointer. *)
Definition ctx_no_roots : machine_ctx :=
  {| ctx_sp := 8000; ctx_stack := fun _ => 0; ctx_regs := [0; 0; 0] |}.

Definition env_no_roots : call_env :=
  {| env_mmap := Some 4096; env_ctx1 := ctx_no_roots; env_ctx2 := ctx_no_roots |}.

(** A thread with the payload address 4152 in one stack slot. *)
Definition ctx_root_4152 : machine_ctx :=
  {| ctx_sp := 8000;
     ctx_stack := fun a => if a =? 8064 then 4152 else 0;
     ctx_regs := [0; 0; 0] |}.

(** The state after the constructor. *)
Definition st_boot : gc_state_t :=
  Eval vm_compute in
    match gc_init_constructor 8192 (Some 4096) gc_state0 with
    | Done st => st
    | _ => gc_state0
    end.

(** One object of 8 bytes, its payload at 4120. *)
Definition st_one : gc_state_t :=
  Eval vm_compute in state_of (gc_malloc env_no_roots 8 st_boot).

(** Three objects of 8 bytes, payloads at 4120, 4152 and 4184. *)
Definition st_three : gc_state_t :=
  Eval vm_compute in
    state_of (gc_malloc env_no_roots 8
      (state_of (gc_malloc env_no_roots 8 st_one))).

(** [st_three] after a collection that finds only the second object. *)
Definition st_swept : gc_state_t :=
  Eval vm_compute in gc_force_collect ctx_root_4152 st_three.

(** One object of 900000 bytes that no root refers to. *)
Definition st_big : gc_state_t :=
  Eval vm_compute in state_of (gc_malloc env_no_roots 900000 st_boot).

(** A thread with the payload address 404144 in one stack slot. *)
Definition ctx_root_404144 : machine_ctx :=
  {| ctx_sp := 8000;
     ctx_stack := fun a => if a =? 8064 then 404144 else 0;
     ctx_regs := [0; 0; 0] |}.

Definition env_root_404144 : call_env :=
  {| env_mmap := Some 4096; env_ctx1 := ctx_root_404144; env_ctx2 := ctx_root_404144 |}.

(** A fragmented heap: an object of 400000 bytes and one of 8 bytes
    (payload at 404144) are allocated, a collection that finds only the
    second frees the first, and one more object of 8 bytes is allocated in
    the hole.  The free blocks hold 399992 and 648520 bytes. *)
Definition st_frag : gc_state_t :=
  Eval vm_compute in
    state_of (gc_malloc env_root_404144 8
      (gc_force_collect ctx_root_404144
        (state_of (gc_malloc env_no_roots 8
          (state_of (gc_malloc env_no_roots 400000 st_boot)))))).

(** A state in which the heap was never created, with arbitrary contents. *)
Definition st_uninitialized : gc_state_t := {|
  heap := 4096; heap_size := 64; heap_used := 32;
  objects := [ {| obj_addr := 4096; obj_size := 8; obj_marked := true;
                  obj_data := fun _ => 7 |} ];
  free_list := [ {| blk_addr := 4128; blk_size := 32 |} ];
  stack_bottom := 8192; stack_top := 0; initialized := false;
  registers := []; collection_count := 5; allocation_count := 1
|}.

(** Two objects in the middle of a traversal: the object at 4096 (payload
    at 4120) holds its own payload address and the payload address 4160 of
    the object at 4136; its mark flag has just been set. *)
Definition st_marking : gc_state_t := {|
  heap := 4096; heap_size := GC_HEAP_SIZE; heap_used := 72;
  objects := [ {| obj_addr := 4136; obj_size := 8; obj_marked := false;
                  obj_data := fun _ => 0 |};
               {| obj_addr := 4096; obj_size := 16; obj_marked := true;
                  obj_data := fun i => nth i [4120; 4160] 0 |} ];
  free_list := [ {| blk_addr := 4168; blk_size := 1048504 |} ];
  stack_bottom := 8192; stack_top := 8000; initialized := true;
  registers := [0; 0; 0]; collection_count := 0; allocation_count := 2
|}.

(** [st_marking] before the traversal started. *)
Definition st_unmarked : gc_state_t :=
  set_objects
    [ {| obj_addr := 4136; obj_size := 8; obj_marked := false;
         obj_data := fun _ => 0 |};
      {| obj_addr := 4096; obj_size := 16; obj_marked := false;
         obj_data := fun i => nth i [4120; 4160] 0 |} ]
    st_marking.

(** * Statements about whole runs *)

(** Bytes in use are the header and payload bytes of the registry. *)
Definition usage_accounted (st : gc_state_t) : Prop :=
  heap_used st = sum_Z (map (fun o => sizeof_gc_object_t + obj_size o) (objects st)).

(** Every object registered in [st'] was registered in [st], at the same
    address, with the same size and payload. *)
Definition registry_within (st st' : gc_state_t) : Prop :=
  forall o', In o' (objects st') -> exists o, In o (objects st) /\ same_shape o o'.

(** The span [gc_sweep] hands to [gc_add_to_freelist] for [o] is the header
    and the payload of [o], and [gc_add_to_freelist] stores it. *)
Definition span_stored (o : gc_object_t) : Prop :=
  wrap (sizeof_gc_object_t + obj_size o) = sizeof_gc_object_t + obj_size o /\
  sizeof_gc_free_block_t <= sizeof_gc_object_t + obj_size o /\
  forall fl, gc_add_to_freelist (obj_addr o) (wrap (sizeof_gc_object_t + obj_size o)) fl
             = insert_block {| blk_addr := obj_addr o;
                               blk_size := sizeof_gc_object_t + obj_size o |} fl.

(** * Vocabulary of further properties *)

(** ** The arena *)

(** The region [r] lies between the addresses [lo] and [hi]. *)
Definition region_in (lo hi : Z) (r : region) : Prop :=
  lo <= fst r /\ 0 <= snd r /\ fst r + snd r <= hi.

(** The region [r] lies inside the mapping of the heap. *)
Definition in_arena (st : gc_state_t) (r : region) : Prop :=
  region_in (heap st) (heap st + heap_size st) r.

(** The header and payload of every registered object and every free block
    lie inside the mapping. *)
Definition arena_bounded (st : gc_state_t) : Prop :=
  Forall (in_arena st) (map obj_region (objects st)) /\
  Forall (fun b => in_arena st (blk_region b)) (free_list st).

(** Addresses and lengths are multiples of the alignment unit, addresses
    being counted from [base]. *)
Definition region_aligned (base : Z) (r : region) : Prop :=
  (fst r - base) mod GC_ALIGNMENT = 0 /\ snd r mod GC_ALIGNMENT = 0.

(** Every object and every free block starts a multiple of 8 bytes after
    the base of the heap and has a length that is a multiple of 8. *)
Definition arena_aligned (st : gc_state_t) : Prop :=
  Forall (region_aligned (heap st)) (map obj_region (objects st)) /\
  Forall (fun b => region_aligned (heap st) (blk_region b)) (free_list st).

(** ** Roots *)

(** Object [j] is conservatively reachable from one of the words
    [gc_mark_roots] scans. *)
Definition rooted (ctx : machine_ctx) (st : gc_state_t) (j : nat) : Prop :=
  exists w i, In w (root_words ctx st) /\ gc_is_valid_pointer st w = true /\
              gc_find_object_containing st w = Some i /\ reaches st i j.

(** ** Free lists in general *)

(** Ascending by address, equal addresses allowed. *)
Fixpoint ascending (fl : list gc_free_block_t) : Prop :=
  match fl with
  | [] => True
  | b :: rest => Forall (fun b' => blk_addr b <= blk_addr b') rest /\ ascending rest
  end.

(** No block ends where its successor in the list starts. *)
Fixpoint no_adjacent_neighbours (fl : list gc_free_block_t) : Prop :=
  match fl with
  | [] => True
  | b :: rest =>
      match rest with
      | [] => True
      | b' :: _ => blk_addr b + blk_size b <> blk_addr b'
      end /\ no_adjacent_neighbours rest
  end.

(** ** Statistics *)

(** The numbers [gc_stats] prints, in the order it prints them. *)
Record gc_report := {
  rep_heap_size : Z;
  rep_heap_used : Z;
  rep_percent : double;
  rep_objects : Z;
  rep_free_blocks : Z;
  rep_free_bytes : Z;
  rep_collections : Z;
  rep_allocations : Z
}.

Definition gc_stats (st : gc_state_t) : gc_report :=
  let obj_count := fold_left (fun n _ => n + 1) (objects st) 0 in
  let '(free_blocks, free_bytes) :=
    fold_left (fun '(n, bytes) curr => (n + 1, wrap (bytes + blk_size curr)))
      (free_list st) (0, 0) in
  {| rep_heap_size := heap_size st;
     rep_heap_used := heap_used st;
     rep_percent :=
       SFmul 53 1024
         (SFdiv 53 1024 (double_of_size_t (heap_used st)) (double_of_size_t (heap_size st)))
         (binary_normalize 53 1024 100 0 false);
     rep_objects := obj_count;
     rep_free_blocks := free_blocks;
     rep_free_bytes := free_bytes;
     rep_collections := collection_count st;
     rep_allocations := allocation_count st |}.

(** ** One more example *)


(** The state after [n] calls of [gc_malloc (size)] in a row. *)
Fixpoint gc_malloc_times (n : nat) (env : call_env) (size : Z) (st : gc_state_t)
  : gc_state_t :=
  match n with
  | O => st
  | S n' => state_of (gc_malloc env size (gc_malloc_times n' env size st))
  end.

(** * Properties *)

(** ** Arithmetic of sizes *)

(** Linear arithmetic with division and remainder by constants. *)
Ltac div_lia := Z.to_euclidean_division_equations; lia.

Lemma wrap_small (x : Z) : 0 <= x < SIZE_MAX_plus_1 -> wrap x = x.
Proof. intros H. unfold wrap. apply Z.mod_small. exact H. Qed.

Lemma wrap_range (x : Z) : 0 <= wrap x < SIZE_MAX_plus_1.
Proof. unfold wrap, SIZE_MAX_plus_1. apply Z.mod_pos_bound. lia. Qed.

(** Masking with [~(GC_ALIGNMENT - 1)] clears the three low bits. *)
Lemma land_align_mask (x : Z) :
  0 <= x < SIZE_MAX_plus_1 ->
  Z.land x (wrap (Z.lnot (GC_ALIGNMENT - 1))) = 8 * (x / 8).
Proof.
  intros Hx.
  assert (Hm : wrap (Z.lnot (GC_ALIGNMENT - 1)) = Z.land (Z.lnot (Z.ones 3)) (Z.ones 64)).
  { reflexivity. }
  rewrite Hm, Z.land_assoc, (Z.land_comm x), <- Z.land_assoc.
  rewrite (Z.land_ones x 64) by lia.
  change (2 ^ 64) with SIZE_MAX_plus_1.
  rewrite (Z.mod_small x) by lia.
  rewrite Z.land_comm, <- Z.ldiff_land, Z.ldiff_ones_r by lia.
  rewrite Z.shiftr_div_pow2, Z.shiftl_mul_pow2 by lia.
  change (2 ^ 3) with 8. lia.
Qed.

Lemma align_size_eq (size : Z) :
  align_size size = 8 * (wrap (size + 7) / 8).
Proof.
  unfold align_size.
  rewrite land_align_mask by apply wrap_range.
  unfold GC_ALIGNMENT. do 3 f_equal. lia.
Qed.

Lemma align_size_range (size : Z) :
  0 <= align_size size < SIZE_MAX_plus_1.
Proof.
  rewrite align_size_eq.
  pose proof (wrap_range (size + 7)) as H.
  assert (E : SIZE_MAX_plus_1 = 18446744073709551616) by reflexivity.
  rewrite E in *. div_lia.
Qed.

Lemma align_size_small (size : Z) :
  0 <= size -> size + 7 < SIZE_MAX_plus_1 ->
  align_size size = 8 * ((size + 7) / 8).
Proof.
  intros H0 H1. rewrite align_size_eq, wrap_small by lia. reflexivity.
Qed.

Lemma align_size_0 : align_size 0 = 0.
Proof. reflexivity. Qed.

(** ** Marking only sets mark flags *)

Lemma mark_le_obj_refl (o : gc_object_t) : mark_le_obj o o.
Proof. repeat split; auto. Qed.

Lemma mark_le_obj_trans (a b c : gc_object_t) :
  mark_le_obj a b -> mark_le_obj b c -> mark_le_obj a c.
Proof.
  unfold mark_le_obj, same_shape.
  intros [(E1 & E2 & E3) H1] [(E4 & E5 & E6) H2].
  repeat split; try congruence. auto.
Qed.

Lemma mark_le_objs_refl (l : list gc_object_t) : Forall2 mark_le_obj l l.
Proof. induction l; constructor; auto using mark_le_obj_refl. Qed.

Lemma mark_le_objs_trans (l1 l2 l3 : list gc_object_t) :
  Forall2 mark_le_obj l1 l2 -> Forall2 mark_le_obj l2 l3 -> Forall2 mark_le_obj l1 l3.
Proof.
  intros H. revert l3. induction H; intros l3 H3; inversion H3; subst; constructor;
    eauto using mark_le_obj_trans.
Qed.

Lemma mark_le_refl (st : gc_state_t) : mark_le st st.
Proof. split; [destruct st; reflexivity | apply mark_le_objs_refl]. Qed.

Lemma mark_le_trans (s1 s2 s3 : gc_state_t) :
  mark_le s1 s2 -> mark_le s2 s3 -> mark_le s1 s3.
Proof.
  intros [E1 F1] [E2 F2]. split; [| eauto using mark_le_objs_trans].
  rewrite E2. rewrite E1. reflexivity.
Qed.

Lemma mark_le_is_pointer (st st' : gc_state_t) (p : Z) :
  mark_le st st' -> gc_is_pointer st' p = gc_is_pointer st p.
Proof. intros [E _]. rewrite E. reflexivity. Qed.

Lemma mark_le_is_valid_pointer (st st' : gc_state_t) (p : Z) :
  mark_le st st' -> gc_is_valid_pointer st' p = gc_is_valid_pointer st p.
Proof.
  intros H. unfold gc_is_valid_pointer. rewrite (mark_le_is_pointer _ _ _ H). reflexivity.
Qed.

Lemma find_containing_shape (p : Z) (l l' : list gc_object_t) :
  Forall2 mark_le_obj l l' -> find_containing p l' = find_containing p l.
Proof.
  induction 1 as [| o o' l l' [(Ha & Hs & _) _] _ IH]; simpl; [reflexivity |].
  unfold obj_contains, obj_data_addr. rewrite Ha, Hs, IH. reflexivity.
Qed.

Lemma mark_le_find (st st' : gc_state_t) (p : Z) :
  mark_le st st' ->
  gc_find_object_containing st' p = gc_find_object_containing st p.
Proof.
  intros H. unfold gc_find_object_containing.
  rewrite (mark_le_is_pointer _ _ _ H).
  destruct H as [_ F]. rewrite (find_containing_shape _ _ _ F). reflexivity.
Qed.

Lemma payload_words_shape (o o' : gc_object_t) :
  same_shape o o' -> payload_words o' = payload_words o.
Proof. intros (_ & Hs & Hd). unfold payload_words. rewrite Hs, Hd. reflexivity. Qed.

Lemma find_containing_lt (p : Z) (l : list gc_object_t) (i : nat) :
  find_containing p l = Some i -> (i < length l)%nat.
Proof.
  revert i. induction l as [| o l IH]; simpl; intros i H; [discriminate |].
  destruct (obj_contains o p).
  - injection H as <-. lia.
  - destruct (find_containing p l) as [j |]; simpl in H; [| discriminate].
    injection H as <-. specialize (IH j eq_refl). lia.
Qed.

Lemma unmarked_count_le_length (l : list gc_object_t) :
  (unmarked_count l <= length l)%nat.
Proof. induction l as [| o l IH]; simpl; [lia |]. destruct (obj_marked o); lia. Qed.

Lemma unmarked_count_mark_le (l l' : list gc_object_t) :
  Forall2 mark_le_obj l l' -> (unmarked_count l' <= unmarked_count l)%nat.
Proof.
  induction 1 as [| o o' l l' [_ Hm] _ IH]; simpl; [lia |].
  destruct (obj_marked o); [rewrite Hm by reflexivity; lia |].
  destruct (obj_marked o'); lia.
Qed.

Lemma unmarked_count_alter (l : list gc_object_t) (i : nat) (o : gc_object_t) :
  l !! i = Some o -> obj_marked o = false ->
  S (unmarked_count (alter (set_mark true) i l)) = unmarked_count l.
Proof.
  revert i. induction l as [| a l IH]; intros i Hl Hm; [discriminate |].
  destruct i as [| i]; simpl in *.
  - injection Hl as ->. rewrite Hm. reflexivity.
  - specialize (IH i Hl Hm). unfold alter in *. destruct (obj_marked a); lia.
Qed.

Lemma alter_mark_le (l : list gc_object_t) (i : nat) :
  Forall2 mark_le_obj l (alter (set_mark true) i l).
Proof.
  revert i. induction l as [| a l IH]; intros i; [constructor |].
  destruct i as [| i]; simpl; constructor;
    auto using mark_le_objs_refl, mark_le_obj_refl.
  - repeat split; auto.
  - apply IH.
Qed.

Lemma set_mark_step_le (st : gc_state_t) (i : nat) :
  mark_le st (set_objects (alter (set_mark true) i (objects st)) st).
Proof. split; [reflexivity | apply alter_mark_le]. Qed.

(** ** Termination of marking *)

(** The scanning loop over a function [mark] that returns, and only sets
    flags, in every state with fewer than [f] unmarked objects. *)
Section ScanLoopReturns.
Variable f : nat.
Variable mark : Z -> gc_state_t -> option gc_state_t.
Hypothesis mark_returns :
  forall p s, (unmarked_count (objects s) < f)%nat ->
              exists s', mark p s = Some s' /\ mark_le s s'.

Lemma mark_words_total :
  forall ws s, (unmarked_count (objects s) < f)%nat ->
               exists s', mark_words mark ws s = Some s' /\ mark_le s s'.
Proof using mark_returns.
  pose proof mark_returns as Hm.
  intros ws. induction ws as [| w ws IH]; intros s Hs; simpl.
  - eauto using mark_le_refl.
  - destruct (gc_is_valid_pointer s w).
    + destruct (Hm w s Hs) as (s1 & -> & L1).
      destruct (IH s1) as (s2 & E2 & L2).
      { destruct L1 as [_ F]. pose proof (unmarked_count_mark_le _ _ F). lia. }
      exists s2. split; [exact E2 | eauto using mark_le_trans].
    + apply IH, Hs.
Qed.

End ScanLoopReturns.

(** Each call that goes on to scan a payload has just marked one more
    object, so any fuel above the number of unmarked objects is enough. *)
Lemma gc_mark_object_total (fuel : nat) : forall ptr st,
  (unmarked_count (objects st) < fuel)%nat ->
  exists st', gc_mark_object fuel ptr st = Some st' /\ mark_le st st'.
Proof.
  induction fuel as [| f IH]; intros ptr st Hf; [lia |].
  simpl.
  destruct (negb (gc_is_pointer st ptr)); [eauto using mark_le_refl |].
  destruct (gc_find_object_containing st ptr) as [i |]; [| eauto using mark_le_refl].
  destruct (objects st !! i) as [obj |] eqn:Hi; [| eauto using mark_le_refl].
  destruct (obj_marked obj) eqn:Hm; [eauto using mark_le_refl |].
  destruct (mark_words_total f (gc_mark_object f) IH (payload_words obj)
              (set_objects (alter (set_mark true) i (objects st)) st))
    as (s' & E & L).
  { simpl. pose proof (unmarked_count_alter _ _ _ Hi Hm). lia. }
  exists s'. split; [exact E |].
  eapply mark_le_trans; [apply set_mark_step_le | exact L].
Qed.

Lemma gc_mark_object_fuel_enough (ptr : Z) (st : gc_state_t) :
  exists st', gc_mark_object (mark_fuel st) ptr st = Some st' /\ mark_le st st'.
Proof.
  apply gc_mark_object_total. unfold mark_fuel.
  pose proof (unmarked_count_le_length (objects st)). lia.
Qed.

Lemma gc_mark_object_run_eq (ptr : Z) (st : gc_state_t) :
  gc_mark_object (mark_fuel st) ptr st = Some (gc_mark_object_run ptr st).
Proof.
  unfold gc_mark_object_run.
  destruct (gc_mark_object_fuel_enough ptr st) as (s' & -> & _). reflexivity.
Qed.

Lemma gc_mark_object_run_le (ptr : Z) (st : gc_state_t) :
  mark_le st (gc_mark_object_run ptr st).
Proof.
  unfold gc_mark_object_run.
  destruct (gc_mark_object_fuel_enough ptr st) as (s' & -> & L). exact L.
Qed.

(** More fuel never changes a result. *)
Section ScanLoopMonotone.
Variables m1 m2 : Z -> gc_state_t -> option gc_state_t.
Hypothesis m1_m2 : forall p s s', m1 p s = Some s' -> m2 p s = Some s'.

Lemma mark_words_mono :
  forall ws s s', mark_words m1 ws s = Some s' -> mark_words m2 ws s = Some s'.
Proof using m1_m2.
  intros ws. induction ws as [| w ws IH]; intros s s' H; simpl in *; [exact H |].
  destruct (gc_is_valid_pointer s w); [| auto].
  destruct (m1 w s) as [s1 |] eqn:E1; [| discriminate].
  rewrite (m1_m2 _ _ _ E1). auto.
Qed.

End ScanLoopMonotone.

Lemma gc_mark_object_S (fuel : nat) (ptr : Z) (st : gc_state_t) :
  gc_mark_object (S fuel) ptr st =
  if negb (gc_is_pointer st ptr) then Some st
  else match gc_find_object_containing st ptr with
       | None => Some st
       | Some i =>
           match objects st !! i with
           | None => Some st
           | Some obj =>
               if obj_marked obj then Some st
               else mark_words (gc_mark_object fuel) (payload_words obj)
                      (set_objects (alter (set_mark true) i (objects st)) st)
           end
       end.
Proof. reflexivity. Qed.

Lemma gc_mark_object_mono_S (fuel : nat) : forall ptr st st',
  gc_mark_object fuel ptr st = Some st' ->
  gc_mark_object (S fuel) ptr st = Some st'.
Proof.
  induction fuel as [| f IH]; intros ptr st st' H; [discriminate |].
  rewrite gc_mark_object_S in H. rewrite gc_mark_object_S.
  destruct (negb (gc_is_pointer st ptr)); [exact H |].
  destruct (gc_find_object_containing st ptr) as [i |]; [| exact H].
  destruct (objects st !! i) as [obj |]; [| exact H].
  destruct (obj_marked obj); [exact H |].
  eapply mark_words_mono; [| exact H]. exact IH.
Qed.

Lemma gc_mark_object_mono (fuel fuel' : nat) (ptr : Z) (st st' : gc_state_t) :
  (fuel <= fuel')%nat ->
  gc_mark_object fuel ptr st = Some st' ->
  gc_mark_object fuel' ptr st = Some st'.
Proof.
  induction 1 as [| n _ IH]; intros H; [exact H |].
  apply gc_mark_object_mono_S, IH, H.
Qed.

(** ** What marking marks *)

Lemma is_marked_dec (st : gc_state_t) (i : nat) :
  is_marked st i \/ ~ is_marked st i.
Proof.
  unfold is_marked. destruct (objects st !! i) as [o |]; [| right; intros (o & E & _); discriminate].
  destruct (obj_marked o) eqn:Hm; [left; eauto |].
  right. intros (o' & E & Hm'). injection E as <-. congruence.
Qed.

Lemma is_marked_mono (st st' : gc_state_t) (i : nat) :
  mark_le st st' -> is_marked st i -> is_marked st' i.
Proof.
  intros [_ F] (o & Hi & Hm).
  destruct (Forall2_lookup_l _ _ _ _ _ F Hi) as (o' & Hi' & _ & Hm').
  exists o'. auto.
Qed.

Lemma points_to_mark_le (st st' : gc_state_t) (i j : nat) :
  mark_le st st' -> points_to st i j <-> points_to st' i j.
Proof.
  intros L. pose proof L as [_ F]. split.
  - intros (o & w & Hi & Hw & Hv & Hf).
    destruct (Forall2_lookup_l _ _ _ _ _ F Hi) as (o' & Hi' & Hs & _).
    exists o', w. rewrite (payload_words_shape _ _ Hs).
    rewrite (mark_le_is_valid_pointer _ _ _ L), (mark_le_find _ _ _ L). auto.
  - intros (o' & w & Hi' & Hw & Hv & Hf).
    destruct (Forall2_lookup_r _ _ _ _ _ F Hi') as (o & Hi & Hs & _).
    exists o, w. rewrite (payload_words_shape _ _ Hs) in Hw.
    rewrite (mark_le_is_valid_pointer _ _ _ L) in Hv.
    rewrite (mark_le_find _ _ _ L) in Hf. auto.
Qed.

Lemma no_marks_closed (st : gc_state_t) : no_marks st -> marks_closed st.
Proof.
  intros H i j (o & Hi & Hm) _. exfalso.
  unfold no_marks in H. rewrite Forall_lookup in H.
  specialize (H _ _ Hi). simpl in H. congruence.
Qed.

(** The scanning loop over a function [mark] that meets [mark_post]. *)
Section ScanLoopMarks.
Variable mark : Z -> gc_state_t -> option gc_state_t.
Hypothesis mark_meets_post : forall p s s', mark p s = Some s' -> mark_post p s s'.

Lemma mark_words_post :
  forall ws s s', mark_words mark ws s = Some s' -> words_post ws s s'.
Proof using mark_meets_post.
  pose proof mark_meets_post as Hm.
  intros ws. induction ws as [| w ws IH]; intros s s' H; simpl in H.
  - injection H as <-. split; [apply mark_le_refl |]. split.
    + intros w i [].
    + intros i Hi Hn. contradiction.
  - destruct (gc_is_valid_pointer s w) eqn:Hv.
    + destruct (mark w s) as [s1 |] eqn:E1; [| discriminate].
      destruct (Hm _ _ _ E1) as (L1 & T1 & C1).
      destruct (IH _ _ H) as (L2 & T2 & C2).
      split; [eauto using mark_le_trans |]. split.
      * intros w0 i [<- | Hin] Hv0 Hf0.
        -- eauto using is_marked_mono.
        -- apply (T2 w0 i Hin).
           ++ rewrite (mark_le_is_valid_pointer _ _ _ L1). exact Hv0.
           ++ rewrite (mark_le_find _ _ _ L1). exact Hf0.
      * intros i Hi Hn j Hp.
        destruct (is_marked_dec s1 i) as [Hi1 | Hn1].
        -- eauto using is_marked_mono.
        -- apply (C2 i Hi Hn1 j). apply (points_to_mark_le _ _ _ _ L1). exact Hp.
    + destruct (IH _ _ H) as (L2 & T2 & C2).
      split; [exact L2 |]. split; [| exact C2].
      intros w0 i [<- | Hin] Hv0 Hf0; [congruence | eauto].
Qed.

End ScanLoopMarks.

Lemma gc_find_object_containing_lt (st : gc_state_t) (p : Z) (i : nat) :
  gc_find_object_containing st p = Some i -> (i < length (objects st))%nat.
Proof.
  unfold gc_find_object_containing. destruct (negb (gc_is_pointer st p)); [discriminate |].
  apply find_containing_lt.
Qed.

Lemma is_marked_alter_eq (st : gc_state_t) (i : nat) (o : gc_object_t) :
  objects st !! i = Some o ->
  is_marked (set_objects (alter (set_mark true) i (objects st)) st) i.
Proof.
  intros Hi. exists (set_mark true o). simpl.
  rewrite list_lookup_alter_eq, Hi. auto.
Qed.

Lemma is_marked_alter_ne (st : gc_state_t) (i j : nat) :
  i <> j ->
  is_marked (set_objects (alter (set_mark true) i (objects st)) st) j ->
  is_marked st j.
Proof.
  intros Hne (o & Hj & Hm). simpl in Hj.
  rewrite list_lookup_alter_ne in Hj by exact Hne. exists o. auto.
Qed.

Lemma gc_mark_object_post (fuel : nat) : forall p st st',
  gc_mark_object fuel p st = Some st' -> mark_post p st st'.
Proof.
  induction fuel as [| f IH]; intros p st st' H; [discriminate |].
  rewrite gc_mark_object_S in H.
  assert (Hsame : forall i, gc_find_object_containing st p = Some i -> is_marked st i ->
                   mark_post p st st).
  { intros. split; [apply mark_le_refl |]. split; [congruence | intros; contradiction]. }
  assert (Hnone : gc_find_object_containing st p = None -> mark_post p st st).
  { intros E. split; [apply mark_le_refl |]. split; [congruence | intros; contradiction]. }
  destruct (negb (gc_is_pointer st p)) eqn:Hp.
  { injection H as <-. apply Hnone. unfold gc_find_object_containing. rewrite Hp. reflexivity. }
  destruct (gc_find_object_containing st p) as [i |] eqn:Hf; [| injection H as <-; auto].
  destruct (objects st !! i) as [obj |] eqn:Hi.
  2:{ apply gc_find_object_containing_lt in Hf.
      apply lookup_ge_None in Hi. lia. }
  destruct (obj_marked obj) eqn:Hm.
  { injection H as <-. apply (Hsame i eq_refl). exists obj. auto. }
  pose proof (set_mark_step_le st i) as L1.
  destruct (mark_words_post _ IH _ _ _ H) as (L2 & T2 & C2).
  split; [eauto using mark_le_trans |]. split.
  - intros i' Hf'. rewrite Hf in Hf'. injection Hf' as <-.
    eapply is_marked_mono; [exact L2 |].
    eapply is_marked_alter_eq; eauto.
  - intros i0 Hi0 Hn0 j Hp0.
    destruct (decide (i0 = i)) as [-> | Hne].
    + destruct Hp0 as (o & w & Ho & Hw & Hv & Hfw).
      rewrite Hi in Ho. injection Ho as <-.
      apply (T2 w j Hw).
      * rewrite (mark_le_is_valid_pointer _ _ _ L1). exact Hv.
      * rewrite (mark_le_find _ _ _ L1). exact Hfw.
    + apply (C2 i0 Hi0).
      * intros Hc. apply Hn0. eapply is_marked_alter_ne; [| exact Hc]. auto.
      * apply (points_to_mark_le _ _ _ _ L1). exact Hp0.
Qed.

Lemma mark_post_closed (p : Z) (st st' : gc_state_t) :
  mark_post p st st' -> marks_closed st -> marks_closed st'.
Proof.
  intros (L & _ & C) Hc i j Hi Hp.
  apply (points_to_mark_le _ _ _ _ L) in Hp.
  destruct (is_marked_dec st i) as [Hm | Hn].
  - eapply is_marked_mono; eauto.
  - eauto.
Qed.

Lemma mark_post_reaches (p : Z) (st st' : gc_state_t) (i j : nat) :
  mark_post p st st' -> marks_closed st ->
  gc_find_object_containing st p = Some i ->
  reaches st i j -> is_marked st' j.
Proof.
  intros Hpost Hc Hf Hr.
  pose proof (mark_post_closed _ _ _ Hpost Hc) as Hc'.
  destruct Hpost as (L & T & _).
  induction Hr as [| i j k _ IH Hp]; [auto |].
  apply (Hc' j k); [auto |].
  apply (points_to_mark_le _ _ _ _ L). exact Hp.
Qed.

(** ** Layout of the arena *)

Ltac consts :=
  unfold region_ok, apart, obj_region, blk_region, obj_span,
    sizeof_gc_object_t, sizeof_gc_free_block_t, GC_ALIGNMENT, GC_HEAP_SIZE,
    sizeof_ptr, NULL in *;
  change SIZE_MAX_plus_1 with 18446744073709551616 in *;
  simpl fst in *; simpl snd in *.

Lemma apart_sym (r1 r2 : region) : apart r1 r2 -> apart r2 r1.
Proof. unfold apart. tauto. Qed.

Lemma sum_len_nonneg (lo : Z) (rs : list region) :
  Forall (region_ok lo) rs -> 0 <= sum_len rs.
Proof. induction 1 as [| r rs Hr _ IH]; simpl; [lia |]. consts. lia. Qed.

Lemma free_chain_weaken (gap lo lo' : Z) (fl : list gc_free_block_t) :
  lo' <= lo -> free_chain gap lo fl -> free_chain gap lo' fl.
Proof. destruct fl; simpl; [auto |]. intros ? (? & ? & ?). repeat split; auto. lia. Qed.

Lemma free_chain_gap (lo : Z) (fl : list gc_free_block_t) :
  free_chain 1 lo fl -> free_chain 0 lo fl.
Proof.
  revert lo. induction fl as [| b fl IH]; simpl; [auto |].
  intros lo (? & ? & H). repeat split; auto.
  apply IH. eapply free_chain_weaken; [| exact H]. lia.
Qed.

Lemma free_chain_lower (gap lo : Z) (fl : list gc_free_block_t) :
  0 <= gap -> free_chain gap lo fl -> Forall (fun b => lo <= blk_addr b) fl.
Proof.
  intros Hg. revert lo. induction fl as [| b fl IH]; simpl; intros lo H; constructor.
  - tauto.
  - destruct H as (? & ? & H). eapply Forall_impl; [apply (IH _ H) |].
    simpl. intros x. consts. lia.
Qed.

Lemma free_bytes_nonneg (gap lo : Z) (fl : list gc_free_block_t) :
  free_chain gap lo fl -> 0 <= free_bytes fl.
Proof.
  revert lo. induction fl as [| b fl IH]; simpl; intros lo H; [unfold free_bytes; simpl; lia |].
  destruct H as (? & ? & H). specialize (IH _ H). unfold free_bytes in *. simpl. consts. lia.
Qed.

(** *** Insertion into the free list *)

Lemma insert_block_Forall (P : gc_free_block_t -> Prop) (nb : gc_free_block_t)
    (fl : list gc_free_block_t) :
  P nb -> Forall P fl -> Forall P (insert_block nb fl).
Proof.
  intros Hn. induction 1 as [| b fl Hb Hfl IH]; simpl; [repeat constructor; auto |].
  destruct (blk_addr b <? blk_addr nb); repeat constructor; auto.
Qed.

Lemma insert_block_bytes (nb : gc_free_block_t) (fl : list gc_free_block_t) :
  free_bytes (insert_block nb fl) = blk_size nb + free_bytes fl.
Proof.
  unfold free_bytes. induction fl as [| b fl IH]; simpl; [reflexivity |].
  destruct (blk_addr b <? blk_addr nb); simpl; [rewrite IH |]; lia.
Qed.

Lemma insert_block_chain (nb : gc_free_block_t) : forall (fl : list gc_free_block_t) (lo : Z),
  lo <= blk_addr nb -> sizeof_gc_object_t <= blk_size nb ->
  Forall (fun b => apart (blk_region nb) (blk_region b)) fl ->
  free_chain 0 lo fl -> free_chain 0 lo (insert_block nb fl).
Proof.
  induction fl as [| b fl IH]; intros lo Hlo Hsz Hd Hc; simpl in *.
  - repeat split; auto.
  - destruct Hc as (Hb & Hs & Hc). inversion Hd as [| ? ? Hd1 Hd2]; subst.
    destruct (blk_addr b <? blk_addr nb) eqn:E.
    + apply Z.ltb_lt in E. simpl. repeat split; auto.
      apply IH; auto. consts. lia.
    + apply Z.ltb_ge in E. simpl. repeat split; auto.
      consts. lia.
Qed.

(** *** Coalescing *)

Lemma coalesce_from_chain : forall (rest : list gc_free_block_t) (current : gc_free_block_t) (lo : Z),
  free_chain 0 lo (current :: rest) ->
  free_bytes (current :: rest) < SIZE_MAX_plus_1 ->
  free_chain 1 lo (coalesce_from current rest).
Proof.
  induction rest as [| next rest IH]; intros current lo Hc Hb.
  - simpl in *. tauto.
  - pose proof Hc as (Hlo & Hs & Hn & Hs' & Hr).
    pose proof (free_bytes_nonneg _ _ _ Hr) as Hnn.
    unfold free_bytes in Hb, Hnn. simpl in Hb.
    simpl. destruct (blk_addr current + blk_size current =? blk_addr next) eqn:E.
    + apply Z.eqb_eq in E. apply IH.
      * simpl. rewrite wrap_small by (consts; lia).
        repeat split; auto; [consts; lia |].
        replace (blk_addr current + (blk_size current + blk_size next) + 0)
          with (blk_addr next + blk_size next + 0) by lia.
        exact Hr.
      * unfold free_bytes. simpl. rewrite wrap_small by (consts; lia). consts. lia.
    + apply Z.eqb_neq in E. simpl. repeat split; auto.
      apply IH.
      * simpl. repeat split; auto. lia.
      * unfold free_bytes. simpl. consts. lia.
Qed.

Lemma coalesce_from_bytes : forall (rest : list gc_free_block_t) (current : gc_free_block_t) (lo : Z),
  free_chain 0 lo (current :: rest) ->
  free_bytes (current :: rest) < SIZE_MAX_plus_1 ->
  free_bytes (coalesce_from current rest) = free_bytes (current :: rest).
Proof.
  induction rest as [| next rest IH]; intros current lo Hc Hb; [reflexivity |].
  pose proof Hc as (Hlo & Hs & Hn & Hs' & Hr).
  pose proof (free_bytes_nonneg _ _ _ Hr) as Hnn.
  unfold free_bytes in Hb, Hnn. simpl in Hb.
  simpl. destruct (blk_addr current + blk_size current =? blk_addr next) eqn:E.
  - apply Z.eqb_eq in E. rewrite (IH _ lo).
    + unfold free_bytes. simpl. rewrite wrap_small by (consts; lia). lia.
    + simpl. rewrite wrap_small by (consts; lia).
      repeat split; auto; [consts; lia |].
      replace (blk_addr current + (blk_size current + blk_size next) + 0)
        with (blk_addr next + blk_size next + 0) by lia.
      exact Hr.
    + unfold free_bytes. simpl. rewrite wrap_small by (consts; lia). consts. lia.
  - change (free_bytes (current :: coalesce_from next rest))
      with (blk_size current + free_bytes (coalesce_from next rest)).
    rewrite (IH _ (blk_addr next)).
    + reflexivity.
    + simpl. repeat split; auto. lia.
    + unfold free_bytes. simpl. consts. lia.
Qed.

Lemma coalesce_from_off (r : region) : forall (rest : list gc_free_block_t) (current : gc_free_block_t) (lo : Z),
  0 < snd r ->
  free_chain 0 lo (current :: rest) ->
  free_bytes (current :: rest) < SIZE_MAX_plus_1 ->
  off_blocks (current :: rest) r -> off_blocks (coalesce_from current rest) r.
Proof.
  unfold off_blocks.
  induction rest as [| next rest IH]; intros current lo Hr Hc Hb Hoff; [exact Hoff |].
  pose proof Hc as (Hlo & Hs & Hn & Hs' & Hrest).
  pose proof (free_bytes_nonneg _ _ _ Hrest) as Hnn.
  unfold free_bytes in Hb, Hnn. simpl in Hb.
  inversion Hoff as [| ? ? Hoc Hoff']; subst.
  inversion Hoff' as [| ? ? Hon Hoff'']; subst.
  simpl. destruct (blk_addr current + blk_size current =? blk_addr next) eqn:E.
  - apply Z.eqb_eq in E. apply (IH _ lo); auto.
    + simpl. rewrite wrap_small by (consts; lia).
      repeat split; auto; [consts; lia |].
      replace (blk_addr current + (blk_size current + blk_size next) + 0)
        with (blk_addr next + blk_size next + 0) by lia.
      exact Hrest.
    + unfold free_bytes. simpl. rewrite wrap_small by (consts; lia). consts. lia.
    + constructor; [| exact Hoff''].
      unfold blk_region. simpl. rewrite wrap_small by (consts; lia). consts. lia.
  - constructor; [exact Hoc |]. apply (IH _ (blk_addr next)); auto.
    + simpl. repeat split; auto. lia.
    + unfold free_bytes. simpl. consts. lia.
Qed.

(** *** Acquisition *)

Lemma gc_alloc_from_freelist_spec (total : Z) : forall (fl : list gc_free_block_t) (lo p : Z)
    (fl' : list gc_free_block_t),
  0 <= total ->
  free_chain 1 lo fl ->
  free_bytes fl <= GC_HEAP_SIZE ->
  gc_alloc_from_freelist total fl = Some (p, fl') ->
  lo <= p /\ free_chain 1 lo fl' /\ free_bytes fl' + total <= free_bytes fl /\
  off_blocks fl' (p, total) /\
  (forall r, off_blocks fl r -> apart r (p, total) /\ off_blocks fl' r).
Proof.
  unfold off_blocks.
  induction fl as [| b fl IH]; intros lo p fl' Ht Hc Hb H; simpl in H; [discriminate |].
  pose proof Hc as (Hlo & Hs & Hr).
  pose proof (free_bytes_nonneg _ _ _ Hr) as Hnn.
  pose proof (free_chain_lower 1 _ _ ltac:(lia) Hr) as Hlow.
  unfold free_bytes in Hb, Hnn |- *. simpl in Hb.
  destruct (total <=? blk_size b) eqn:E1.
  - apply Z.leb_le in E1.
    destruct (wrap (total + sizeof_gc_free_block_t + GC_ALIGNMENT) <=? blk_size b) eqn:E2.
    + apply Z.leb_le in E2. rewrite wrap_small in E2 by (consts; lia).
      injection H as <- <-. simpl.
      rewrite wrap_small by (consts; lia).
      split; [lia |]. split.
      { repeat split; [lia | consts; lia |].
        replace (blk_addr b + total + (blk_size b - total) + 1)
          with (blk_addr b + blk_size b + 1) by lia. exact Hr. }
      split; [consts; lia |]. split.
      { constructor; [consts; lia |].
        eapply Forall_impl; [exact Hlow |]. simpl. intros x Hx. consts. lia. }
      intros r Hoff. inversion Hoff as [| ? ? Hob Hor]; subst.
      split; [consts; lia |]. constructor; [consts; lia | exact Hor].
    + injection H as <- <-. simpl.
      split; [lia |]. split.
      { eapply free_chain_weaken; [| exact Hr]. consts. lia. }
      split; [consts; lia |]. split.
      { eapply Forall_impl; [exact Hlow |]. simpl. intros x Hx. consts. lia. }
      intros r Hoff. inversion Hoff as [| ? ? Hob Hor]; subst.
      split; [consts; lia | exact Hor].
  - apply Z.leb_gt in E1.
    destruct (gc_alloc_from_freelist total fl) as [[q rest'] |] eqn:E; [| discriminate].
    injection H as <- <-.
    destruct (IH _ _ _ Ht Hr ltac:(unfold free_bytes; consts; lia) eq_refl)
      as (Hq & Hc' & Hb' & Hoff' & Hall).
    unfold free_bytes in Hb'. simpl.
    split; [consts; lia |]. split; [repeat split; auto |].
    split; [lia |]. split.
    { constructor; [consts; lia | exact Hoff']. }
    intros r Hoff. inversion Hoff as [| ? ? Hob Hor]; subst.
    destruct (Hall r Hor) as [Ha Hf]. split; [exact Ha |].
    constructor; auto.
Qed.

Lemma gc_alloc_from_freelist_fits (total : Z) (fl : list gc_free_block_t) :
  Exists (fun b => total <= blk_size b) fl ->
  exists p fl', gc_alloc_from_freelist total fl = Some (p, fl').
Proof.
  induction 1 as [b fl Hb | b fl _ IH]; simpl.
  - apply Z.leb_le in Hb. rewrite Hb.
    destruct (wrap (total + sizeof_gc_free_block_t + GC_ALIGNMENT) <=? blk_size b); eauto.
  - destruct (total <=? blk_size b).
    + destruct (wrap (total + sizeof_gc_free_block_t + GC_ALIGNMENT) <=? blk_size b); eauto.
    + destruct IH as (p & fl' & ->). eauto.
Qed.

Lemma gc_alloc_from_freelist_none (total : Z) (fl : list gc_free_block_t) :
  gc_alloc_from_freelist total fl = None <-> Forall (fun b => blk_size b < total) fl.
Proof.
  induction fl as [| b fl IH]; simpl; [split; auto |].
  destruct (total <=? blk_size b) eqn:E.
  - apply Z.leb_le in E.
    destruct (wrap (total + sizeof_gc_free_block_t + GC_ALIGNMENT) <=? blk_size b);
      (split; [discriminate | intros H; inversion H; subst; lia]).
  - apply Z.leb_gt in E.
    destruct (gc_alloc_from_freelist total fl) as [[q rest'] |].
    + split; [discriminate |]. intros H; inversion H; subst.
      destruct IH as [_ IH]. discriminate (IH ltac:(assumption)).
    + split; [| reflexivity]. intros _. constructor; [lia | tauto].
Qed.

(** *** Sweeping *)

Lemma survivors_Forall (P : region -> Prop) (objs : list gc_object_t) :
  Forall P (map obj_region objs) -> Forall P (map obj_region (survivors objs)).
Proof.
  induction objs as [| o objs IH]; simpl; intros H; [constructor |].
  inversion H; subst. destruct (obj_marked o); simpl; auto.
Qed.

Lemma swept_regions_Forall (P : region -> Prop) (objs : list gc_object_t) :
  Forall P (map obj_region objs) -> Forall P (swept_regions objs).
Proof.
  induction objs as [| o objs IH]; simpl; intros H; [constructor |].
  inversion H; subst. destruct (obj_marked o); simpl; auto.
Qed.

Lemma survivors_apart (objs : list gc_object_t) :
  pairwise_apart (map obj_region objs) -> pairwise_apart (map obj_region (survivors objs)).
Proof.
  induction objs as [| o objs IH]; simpl; [auto |]. intros [H1 H2].
  destruct (obj_marked o); simpl; auto.
  split; auto. apply (survivors_Forall _ _ H1).
Qed.

Lemma survivors_off_swept (objs : list gc_object_t) :
  pairwise_apart (map obj_region objs) ->
  Forall (fun k => Forall (apart k) (swept_regions objs)) (map obj_region (survivors objs)).
Proof.
  induction objs as [| o objs IH]; simpl; [constructor |]. intros [H1 H2].
  destruct (obj_marked o); simpl.
  - constructor; [apply (swept_regions_Forall _ _ H1) | auto].
  - specialize (IH H2).
    assert (Hk : Forall (fun k => apart k (obj_region o)) (map obj_region (survivors objs))).
    { apply survivors_Forall. eapply Forall_impl; [exact H1 |]. intros; apply apart_sym; auto. }
    clear H1 H2. induction IH as [| k ks Hk1 _ IHk]; constructor; inversion Hk; subst; auto.
Qed.

Lemma survivors_bytes (lo : Z) (objs : list gc_object_t) :
  Forall (region_ok lo) (map obj_region objs) ->
  0 <= registry_bytes (survivors objs) <= registry_bytes objs.
Proof.
  unfold registry_bytes.
  induction objs as [| o objs IH]; simpl; intros H; [lia |].
  inversion H as [| ? ? Ho Hr]; subst. specialize (IH Hr).
  destruct (obj_marked o); consts; simpl in *; lia.
Qed.

Lemma sweep_objects_spec (lo : Z) : forall (objs : list gc_object_t)
    (fl : list gc_free_block_t) (used : Z),
  Forall (region_ok lo) (map obj_region objs) ->
  pairwise_apart (map obj_region objs) ->
  Forall (off_blocks fl) (map obj_region objs) ->
  free_chain 0 lo fl ->
  registry_bytes objs <= used < SIZE_MAX_plus_1 ->
  exists fl', sweep_objects objs fl used =
      (survivors objs, fl', used - (registry_bytes objs - registry_bytes (survivors objs))) /\
    free_chain 0 lo fl' /\
    free_bytes fl' = free_bytes fl + (registry_bytes objs - registry_bytes (survivors objs)) /\
    (forall r, off_blocks fl r -> Forall (apart r) (swept_regions objs) -> off_blocks fl' r).
Proof.
  induction objs as [| o objs IH]; intros fl used Hok Hap Hoff Hc Hu; simpl.
  - exists fl. unfold registry_bytes. simpl. repeat split; auto.
    + f_equal. lia.
    + lia.
  - inversion Hok as [| ? ? Ho Hok']; subst.
    destruct Hap as [Hap1 Hap2].
    inversion Hoff as [| ? ? Hoff1 Hoff2]; subst.
    pose proof (survivors_bytes _ _ Hok') as Hsb.
    unfold registry_bytes in Hu, Hsb |- *. simpl in Hu.
    destruct (obj_marked o) eqn:Hm; simpl.
    + destruct (IH fl used Hok' Hap2 Hoff2 Hc) as (fl' & E & Hc' & Hb' & Hall).
      { unfold registry_bytes. consts. lia. }
      rewrite E. exists fl'. unfold registry_bytes in *. repeat split; auto.
      * f_equal. unfold obj_span. simpl. lia.
      * rewrite Hb'. unfold obj_span. simpl. lia.
    + assert (Ew : wrap (sizeof_gc_object_t + obj_size o) = sizeof_gc_object_t + obj_size o).
      { apply wrap_small. consts. lia. }
      rewrite Ew. unfold gc_add_to_freelist.
      assert (El : (sizeof_gc_object_t + obj_size o <? sizeof_gc_free_block_t) = false).
      { apply Z.ltb_ge. consts. lia. }
      rewrite El.
      set (nb := {| blk_addr := obj_addr o; blk_size := sizeof_gc_object_t + obj_size o |}).
      assert (Hnb : blk_region nb = obj_region o) by reflexivity.
      assert (Hoff2' : Forall (off_blocks (insert_block nb fl)) (map obj_region objs)).
      { clear - Hoff2 Hap1 Hnb. unfold off_blocks.
        induction Hoff2 as [| r rs Hr _ IHr]; [constructor |].
        inversion Hap1; subst. constructor; auto.
        apply insert_block_Forall; auto. rewrite Hnb. apply apart_sym. auto. }
      assert (Hcn : free_chain 0 lo (insert_block nb fl)).
      { apply insert_block_chain;
          [subst nb; simpl; consts; lia | subst nb; simpl; consts; lia | | exact Hc].
        rewrite Hnb. exact Hoff1. }
      assert (Hu' : registry_bytes objs <= wrap (used - (sizeof_gc_object_t + obj_size o))
                    < SIZE_MAX_plus_1).
      { rewrite wrap_small by (consts; lia). unfold registry_bytes. consts. lia. }
      destruct (IH _ _ Hok' Hap2 Hoff2' Hcn Hu') as (fl' & E & Hc' & Hb' & Hall).
      rewrite E. exists fl'. unfold registry_bytes in *.
      rewrite wrap_small by (consts; lia). repeat split; auto.
      * f_equal. consts. lia.
      * rewrite Hb', insert_block_bytes. subst nb. simpl. consts. lia.
      * intros r Hr Hsw. inversion Hsw; subst. apply Hall; auto.
        apply insert_block_Forall; auto.
Qed.

Lemma gc_coalesce_freelist_spec (lo : Z) (fl : list gc_free_block_t) :
  free_chain 0 lo fl -> free_bytes fl < SIZE_MAX_plus_1 ->
  free_chain 1 lo (gc_coalesce_freelist fl) /\
  free_bytes (gc_coalesce_freelist fl) = free_bytes fl /\
  (forall r, 0 < snd r -> off_blocks fl r -> off_blocks (gc_coalesce_freelist fl) r).
Proof.
  intros Hc Hb. destruct fl as [| current rest]; simpl.
  - repeat split; auto.
  - split; [apply coalesce_from_chain; auto |].
    split; [eapply coalesce_from_bytes; eauto |].
    intros r Hr Hoff. eapply coalesce_from_off; eauto.
Qed.

(** ** The invariant is kept by every operation *)

Lemma mark_le_regions (l l' : list gc_object_t) :
  Forall2 mark_le_obj l l' -> map obj_region l' = map obj_region l.
Proof.
  induction 1 as [| o o' l l' [(Ha & Hs & _) _] _ IH]; simpl; [reflexivity |].
  unfold obj_region at 1 3. unfold obj_span. rewrite Ha, Hs, IH. reflexivity.
Qed.

Lemma wf_mark_le (st st' : gc_state_t) : mark_le st st' -> wf st -> wf st'.
Proof.
  intros [E F] [H1 H2 H3 H4 H5 H6 H7 H8 H9].
  pose proof (mark_le_regions _ _ F) as R.
  rewrite E. constructor; simpl; unfold registry_bytes in *; rewrite ?R; auto.
Qed.

Lemma wf_set_roots (sp : Z) (regs : list Z) (st : gc_state_t) :
  wf st -> wf (set_roots sp regs st).
Proof. intros [H1 H2 H3 H4 H5 H6 H7 H8 H9]. constructor; simpl; auto. Qed.

Lemma mark_roots_words_le (ws : list Z) : forall st, mark_le st (mark_roots_words ws st).
Proof.
  induction ws as [| w ws IH]; intros st; simpl; [apply mark_le_refl |].
  destruct (gc_is_valid_pointer st w); [| apply IH].
  eapply mark_le_trans; [apply gc_mark_object_run_le | apply IH].
Qed.

Lemma gc_mark_roots_le (ctx : machine_ctx) (st : gc_state_t) :
  mark_le (set_roots (ctx_sp ctx) (ctx_regs ctx) st) (gc_mark_roots ctx st).
Proof.
  unfold gc_mark_roots.
  destruct (stack_bottom (set_roots (ctx_sp ctx) (ctx_regs ctx) st) <?
            stack_top (set_roots (ctx_sp ctx) (ctx_regs ctx) st));
    (eapply mark_le_trans; [apply mark_roots_words_le | apply mark_roots_words_le]).
Qed.

Lemma gc_mark_roots_wf (ctx : machine_ctx) (st : gc_state_t) :
  wf st -> wf (gc_mark_roots ctx st).
Proof.
  intros H. eapply wf_mark_le; [apply gc_mark_roots_le |]. apply wf_set_roots, H.
Qed.

(** What a sweep does to a well-formed state. *)
Lemma gc_sweep_spec (st : gc_state_t) :
  wf st ->
  wf (gc_sweep st) /\
  objects (gc_sweep st) = survivors (objects st) /\
  heap_used (gc_sweep st) = registry_bytes (survivors (objects st)) /\
  free_bytes (free_list (gc_sweep st)) =
    free_bytes (free_list st) +
    (registry_bytes (objects st) - registry_bytes (survivors (objects st))) /\
  collection_count (gc_sweep st) = collection_count st.
Proof.
  intros [H1 H2 H3 H4 H5 H6 H7 H8 H9].
  pose proof (free_bytes_nonneg _ _ _ H7) as Hfb.
  pose proof (survivors_bytes _ _ H4) as Hsb.
  destruct (sweep_objects_spec (heap st) (objects st) (free_list st) (heap_used st))
    as (fl' & E & Hc & Hb & Hall); auto using free_chain_gap.
  { rewrite H8, H3 in *. consts. lia. }
  destruct (gc_coalesce_freelist_spec (heap st) fl' Hc) as (Hc1 & Hb1 & Hoff1).
  { rewrite Hb, H3 in *. consts. lia. }
  unfold gc_sweep. rewrite E. simpl.
  split; [| repeat split; auto; [lia | congruence]].
  constructor; simpl; auto.
  - apply survivors_Forall, H4.
  - apply survivors_apart, H5.
  - pose proof (survivors_off_swept _ H5) as Hsw.
    pose proof (survivors_Forall _ _ H6) as Hso.
    pose proof (survivors_Forall _ _ H4) as Hsr.
    revert Hsw Hso Hsr.
    generalize (map obj_region (survivors (objects st))).
    induction l as [| r l IHl]; intros Hsw Hso Hsr; constructor;
      inversion Hsw; inversion Hso; inversion Hsr; subst; auto.
    apply Hoff1; [consts; lia |]. apply Hall; auto.
  - lia.
  - rewrite Hb1, Hb. lia.
Qed.

Lemma gc_collect_pre_init (ctx : machine_ctx) (st : gc_state_t) :
  initialized st = false -> gc_collect ctx st = st.
Proof. intros H. unfold gc_collect. rewrite H. reflexivity. Qed.

Lemma wf_set_collection_count (n : Z) (st : gc_state_t) :
  wf st -> wf (set_collection_count n st).
Proof. intros [H1 H2 H3 H4 H5 H6 H7 H8 H9]. constructor; simpl; auto. Qed.

Lemma gc_collect_wf (ctx : machine_ctx) (st : gc_state_t) :
  wf st -> wf (gc_collect ctx st).
Proof.
  intros H. unfold gc_collect. rewrite (wf_initialized _ H). simpl.
  apply wf_set_collection_count.
  apply gc_sweep_spec, gc_mark_roots_wf, H.
Qed.

Lemma gc_collect_inv (ctx : machine_ctx) (st : gc_state_t) :
  inv st -> inv (gc_collect ctx st).
Proof.
  intros [Hp | Hw].
  - left. rewrite gc_collect_pre_init; [exact Hp | apply Hp].
  - right. apply gc_collect_wf, Hw.
Qed.

Lemma gc_init_wf (mm : option Z) (st st' : gc_state_t) :
  mmap_ok mm -> inv st -> gc_init mm st = Done st' -> wf st'.
Proof.
  intros Hmm Hinv H. unfold gc_init in H.
  destruct Hinv as [(Hi & _) | Hw].
  - rewrite Hi in H. destruct mm as [base |]; [| discriminate].
    injection H as <-. destruct Hmm as [Hb1 Hb2].
    constructor; simpl; auto.
    + repeat constructor; consts; lia.
    + unfold registry_bytes, free_bytes. simpl. consts. lia.
  - rewrite (wf_initialized _ Hw) in H. injection H as <-. exact Hw.
Qed.

Lemma wf_not_pre_init (st : gc_state_t) :
  inv st -> initialized st = true -> wf st.
Proof. intros [(Hi & _) | Hw] H; [congruence | exact Hw]. Qed.

Lemma gc_malloc_init_wf (env : call_env) (st st' : gc_state_t) :
  mmap_ok (env_mmap env) -> inv st -> gc_malloc_init env st = Done st' -> wf st'.
Proof.
  intros Hmm Hinv H. unfold gc_malloc_init in H.
  destruct (initialized st) eqn:Hi; simpl in H.
  - injection H as <-. apply wf_not_pre_init; auto.
  - eapply gc_init_wf; eauto.
Qed.

Lemma gc_malloc_prepare_wf (env : call_env) (size : Z) (st st' : gc_state_t) :
  mmap_ok (env_mmap env) -> inv st ->
  gc_malloc_prepare env size st = Done st' -> wf st'.
Proof.
  intros Hmm Hinv H. unfold gc_malloc_prepare in H.
  destruct (gc_malloc_init env st) as [s | |] eqn:E; try discriminate.
  pose proof (gc_malloc_init_wf _ _ _ Hmm Hinv E) as Hw.
  destruct (exceeds_threshold _ _); injection H as <-; auto using gc_collect_wf.
Qed.

(** A successful acquisition followed by the writes of [gc_malloc]. *)
Lemma gc_malloc_commit_spec (st st' : gc_state_t) (size ptr p : Z)
    (fl : list gc_free_block_t) :
  wf st -> 0 <= size ->
  gc_alloc_from_freelist (wrap (sizeof_gc_object_t + size)) (free_list st) = Some (ptr, fl) ->
  gc_malloc_commit ptr size (wrap (sizeof_gc_object_t + size)) (set_free_list fl st)
    = Done (p, st') ->
  wf st' /\ p = ptr + sizeof_gc_object_t /\ heap st <= ptr /\
  sizeof_gc_object_t + size < SIZE_MAX_plus_1 /\
  st' = set_allocation_count (allocation_count st + 1)
          (set_heap_used (heap_used st + (sizeof_gc_object_t + size))
             (set_objects ({| obj_addr := ptr; obj_size := size; obj_marked := false;
                              obj_data := fun _ => 0 |}
                           :: objects st)
                (set_free_list fl st))).
Proof.
  intros [H1 H2 H3 H4 H5 H6 H7 H8 H9] Hs Ha Hc.
  unfold gc_malloc_commit in Hc.
  destruct (SIZE_MAX_plus_1 <=? sizeof_gc_object_t + size) eqn:E; [discriminate |].
  apply Z.leb_gt in E.
  rewrite (wrap_small (sizeof_gc_object_t + size)) in * by (consts; lia).
  pose proof (free_bytes_nonneg _ _ _ H7) as Hfb.
  pose proof (sum_len_nonneg _ _ H4) as Hrb.
  assert (Ht : 0 <= sizeof_gc_object_t + size) by (consts; lia).
  assert (Hfl : free_bytes (free_list st) <= GC_HEAP_SIZE).
  { unfold registry_bytes in *. rewrite H3 in *. lia. }
  destruct (gc_alloc_from_freelist_spec _ _ (heap st) _ _ Ht H7 Hfl Ha)
    as (Hp & Hc1 & Hb1 & Hoff1 & Hall).
  pose proof (free_bytes_nonneg _ _ _ Hc1) as Hfb1.
  simpl in Hc. rewrite wrap_small in Hc
    by (unfold registry_bytes in *; rewrite H8, H3 in *; consts; lia).
  injection Hc as <- <-.
  split; [| repeat split; auto].
  constructor; simpl; auto.
  - constructor; [consts; lia | exact H4].
  - split; [| exact H5].
    clear - H6 Hall. induction H6 as [| r rs Hr _ IHr]; constructor; auto.
    apply apart_sym. apply (Hall r Hr).
  - constructor; [exact Hoff1 |].
    clear - H6 Hall. induction H6 as [| r rs Hr _ IHr]; constructor; auto.
    apply (Hall r Hr).
  - unfold registry_bytes in *. simpl. unfold obj_span at 1. simpl. lia.
  - unfold registry_bytes in *. simpl. unfold obj_span at 1. simpl. lia.
Qed.

Lemma gc_malloc_wf (env : call_env) (size p : Z) (st st' : gc_state_t) :
  mmap_ok (env_mmap env) -> inv st ->
  gc_malloc env size st = Done (p, st') -> wf st'.
Proof.
  intros Hmm Hinv H. unfold gc_malloc, gc_malloc_acquire in H.
  destruct (gc_malloc_prepare env size st) as [s1 | |] eqn:E1; try discriminate.
  pose proof (gc_malloc_prepare_wf _ _ _ _ Hmm Hinv E1) as W1.
  pose proof (align_size_range size) as Hsz.
  destruct (gc_alloc_from_freelist _ (free_list s1)) as [[ptr fl] |] eqn:E2.
  - eapply (gc_malloc_commit_spec s1 st' (align_size size) ptr p fl W1);
      [lia | exact E2 | exact H].
  - pose proof (gc_collect_wf (env_ctx2 env) _ W1) as W2.
    destruct (gc_alloc_from_freelist _ (free_list (gc_collect (env_ctx2 env) s1)))
      as [[ptr fl] |] eqn:E3.
    + eapply (gc_malloc_commit_spec _ st' (align_size size) ptr p fl W2);
        [lia | exact E3 | exact H].
    + injection H as <- <-. exact W2.
Qed.

(** ** The mark phase *)

Lemma reaches_mark_le (st st' : gc_state_t) (i j : nat) :
  mark_le st st' -> reaches st i j -> reaches st' i j.
Proof.
  intros L. induction 1 as [| i j k _ IH Hp]; [apply reaches_refl |].
  eapply reaches_step; [exact IH |]. apply (points_to_mark_le _ _ _ _ L). exact Hp.
Qed.

(** The root scan: started with no marked object referring to an unmarked
    one, it ends in such a state, and every object reachable from a word it
    scanned is marked. *)
Lemma mark_roots_words_spec (ws : list Z) : forall st,
  marks_closed st ->
  mark_le st (mark_roots_words ws st) /\
  marks_closed (mark_roots_words ws st) /\
  (forall w i j, In w ws -> gc_is_valid_pointer st w = true ->
                 gc_find_object_containing st w = Some i ->
                 reaches st i j -> is_marked (mark_roots_words ws st) j).
Proof.
  induction ws as [| w ws IH]; intros st Hc; simpl.
  - split; [apply mark_le_refl |]. split; [exact Hc |]. intros w i j [].
  - destruct (gc_is_valid_pointer st w) eqn:Hv.
    + pose proof (gc_mark_object_post _ _ _ _ (gc_mark_object_run_eq w st)) as Hpost.
      pose proof Hpost as (L1 & _ & _).
      pose proof (mark_post_closed _ _ _ Hpost Hc) as Hc1.
      destruct (IH _ Hc1) as (L2 & Hc2 & T2).
      split; [eauto using mark_le_trans |]. split; [exact Hc2 |].
      intros w0 i j [<- | Hin] Hv0 Hf0 Hr.
      * eapply is_marked_mono; [exact L2 |].
        eapply mark_post_reaches; eauto.
      * apply (T2 w0 i j Hin).
        -- rewrite (mark_le_is_valid_pointer _ _ _ L1). exact Hv0.
        -- rewrite (mark_le_find _ _ _ L1). exact Hf0.
        -- eapply reaches_mark_le; eauto.
    + destruct (IH _ Hc) as (L2 & Hc2 & T2).
      split; [exact L2 |]. split; [exact Hc2 |].
      intros w0 i j [<- | Hin] Hv0 Hf0 Hr; [congruence | eauto].
Qed.

Lemma mark_roots_words_app (ws1 ws2 : list Z) (st : gc_state_t) :
  mark_roots_words (ws1 ++ ws2) st = mark_roots_words ws2 (mark_roots_words ws1 st).
Proof.
  revert st. induction ws1 as [| w ws1 IH]; intros st; simpl; [reflexivity |].
  destruct (gc_is_valid_pointer st w); apply IH.
Qed.

Lemma gc_mark_roots_words (ctx : machine_ctx) (st : gc_state_t) :
  gc_mark_roots ctx st
  = mark_roots_words (root_words ctx st) (set_roots (ctx_sp ctx) (ctx_regs ctx) st).
Proof.
  unfold gc_mark_roots, root_words. rewrite mark_roots_words_app. simpl.
  assert (Hreg : forall ws s, registers (mark_roots_words ws s) = registers s).
  { intros ws s. destruct (mark_roots_words_le ws s) as [E _]. rewrite E. reflexivity. }
  destruct (stack_bottom st <? ctx_sp ctx) eqn:E.
  - apply Z.ltb_lt in E. rewrite Z.min_r, Z.max_l by lia. rewrite Hreg. reflexivity.
  - apply Z.ltb_ge in E. rewrite Z.min_l, Z.max_r by lia. rewrite Hreg. reflexivity.
Qed.

(** The mark phase of a collection is a transitive closure: when it starts
    from a state where no marked object refers to an unmarked one (no mark
    at all, between two collections), every object reachable from a
    candidate root on the stack or in the registers is marked. *)
Lemma gc_mark_roots_marks_reachable (ctx : machine_ctx) (st : gc_state_t)
    (w : Z) (i j : nat) :
  marks_closed st ->
  In w (root_words ctx st) ->
  gc_is_valid_pointer st w = true ->
  gc_find_object_containing st w = Some i ->
  reaches st i j ->
  is_marked (gc_mark_roots ctx st) j.
Proof.
  intros Hc Hin Hv Hf Hr. rewrite gc_mark_roots_words.
  assert (Hc0 : marks_closed (set_roots (ctx_sp ctx) (ctx_regs ctx) st)) by exact Hc.
  destruct (mark_roots_words_spec (root_words ctx st) _ Hc0) as (_ & _ & T).
  apply (T w i j Hin); [exact Hv | exact Hf |].
  clear - Hr. induction Hr as [| i j k _ IH Hp]; [apply reaches_refl |].
  eapply reaches_step; [exact IH | exact Hp].
Qed.

(** ** The states a program can be in *)

Lemma store_word_regions (i k : nat) (w : Z) (l : list gc_object_t) :
  map obj_region
    (alter (fun o => set_data (fun j => if Nat.eqb j k then w else obj_data o j) o) i l)
  = map obj_region l.
Proof.
  revert i. induction l as [| o l IH]; intros i; [reflexivity |].
  destruct i as [| i]; simpl; [reflexivity |].
  unfold alter in IH. rewrite IH. reflexivity.
Qed.

Lemma store_word_inv (i k : nat) (w : Z) (st : gc_state_t) :
  inv st -> inv (store_word i k w st).
Proof.
  intros [(H1 & H2 & H3 & H4) | [H1 H2 H3 H4 H5 H6 H7 H8 H9]].
  - left. unfold store_word. rewrite H2. repeat split; auto.
  - right. constructor; simpl; unfold registry_bytes in *;
      rewrite ?store_word_regions; auto.
Qed.

Lemma with_retval_Done (r : outcome (Z * gc_state_t)) (v : retval) (st : gc_state_t) :
  with_retval r = Done (v, st) -> exists p, r = Done (p, st).
Proof.
  destruct r as [[p s] | |]; simpl; intros H; try discriminate.
  injection H as _ <-. eauto.
Qed.

Lemma step_inv (st st' : gc_state_t) : inv st -> step st st' -> inv st'.
Proof.
  intros Hinv Hstep. destruct Hstep as
    [sb mm st st' Hmm H | env size p st st' Hmm _ H | env num size p st st' Hmm _ _ H
    | env ptr n r st st' Hmm _ H | ptr st | ctx st | i k w st _].
  - right. eapply gc_init_wf; [exact Hmm | | exact H].
    destruct Hinv as [(H1 & H2 & H3 & H4) | [H1 H2 H3 H4 H5 H6 H7 H8 H9]].
    + left. repeat split; auto.
    + right. constructor; simpl; auto.
  - right. eapply gc_malloc_wf; eauto.
  - right. eapply gc_malloc_wf; eauto.
  - unfold gc_realloc in H.
    destruct (ptr =? NULL).
    { apply with_retval_Done in H as (p & H). right. eapply gc_malloc_wf; eauto. }
    destruct (n =? 0); [injection H as _ <-; exact Hinv |].
    destruct (find_payload ptr (objects st)) as [obj |].
    + destruct (align_size n <=? obj_size obj); injection H as _ <-; exact Hinv.
    + apply with_retval_Done in H as (p & H). right. eapply gc_malloc_wf; eauto.
  - exact Hinv.
  - apply gc_collect_inv, Hinv.
  - apply store_word_inv, Hinv.
Qed.

Lemma reachable_inv (st : gc_state_t) : reachable st -> inv st.
Proof.
  induction 1 as [| st st' _ IH Hs].
  - left. repeat split; reflexivity.
  - eapply step_inv; eauto.
Qed.

(** ** Order of the free list *)

Lemma free_chain_lookup (lo : Z) (fl : list gc_free_block_t) (i : nat) (b : gc_free_block_t) :
  free_chain 1 lo fl -> fl !! i = Some b ->
  lo <= blk_addr b /\ sizeof_gc_object_t <= blk_size b.
Proof.
  revert lo i. induction fl as [| a fl IH]; intros lo i Hc Hi; [discriminate |].
  destruct Hc as (H1 & H2 & H3). destruct i as [| i]; simpl in Hi.
  - injection Hi as <-. auto.
  - destruct (IH _ _ H3 Hi). split; auto. consts. lia.
Qed.

Lemma free_chain_ascending (lo : Z) (fl : list gc_free_block_t) :
  free_chain 1 lo fl -> strictly_ascending fl /\ no_adjacent_blocks fl.
Proof.
  revert lo. induction fl as [| a fl IH]; intros lo Hc.
  - split; intros i j b b'; intros; discriminate.
  - destruct Hc as (H1 & H2 & H3). destruct (IH _ H3) as [IHa IHn].
    split.
    + intros i j b b' Hij Hi Hj. destruct j as [| j]; [lia |].
      simpl in Hj. destruct i as [| i]; simpl in Hi.
      * injection Hi as <-. destruct (free_chain_lookup _ _ _ _ H3 Hj). consts. lia.
      * apply (IHa i j); auto. lia.
    + intros i j b b' Hi Hj.
      destruct i as [| i], j as [| j]; simpl in Hi, Hj.
      * injection Hi as <-. injection Hj as <-. consts. lia.
      * injection Hi as <-. destruct (free_chain_lookup _ _ _ _ H3 Hj). consts. lia.
      * injection Hj as <-. destruct (free_chain_lookup _ _ _ _ H3 Hi). consts. lia.
      * apply (IHn i j); auto.
Qed.

(** ** Sums over the registry *)

Lemma registry_bytes_sum (objs : list gc_object_t) :
  registry_bytes objs = sum_Z (map (fun o => sizeof_gc_object_t + obj_size o) objs).
Proof.
  unfold registry_bytes. induction objs as [| o objs IH]; simpl; [reflexivity |].
  rewrite IH. reflexivity.
Qed.


(** ** What a collection changes *)

Lemma gc_sweep_frame (st : gc_state_t) :
  heap (gc_sweep st) = heap st /\ heap_size (gc_sweep st) = heap_size st /\
  initialized (gc_sweep st) = initialized st /\
  collection_count (gc_sweep st) = collection_count st /\
  allocation_count (gc_sweep st) = allocation_count st /\
  stack_bottom (gc_sweep st) = stack_bottom st.
Proof.
  unfold gc_sweep.
  destruct (sweep_objects (objects st) (free_list st) (heap_used st)) as [[k f] u].
  simpl. repeat split; reflexivity.
Qed.

Lemma gc_mark_roots_frame (ctx : machine_ctx) (st : gc_state_t) :
  heap (gc_mark_roots ctx st) = heap st /\
  heap_size (gc_mark_roots ctx st) = heap_size st /\
  heap_used (gc_mark_roots ctx st) = heap_used st /\
  free_list (gc_mark_roots ctx st) = free_list st /\
  initialized (gc_mark_roots ctx st) = initialized st /\
  collection_count (gc_mark_roots ctx st) = collection_count st /\
  allocation_count (gc_mark_roots ctx st) = allocation_count st /\
  map obj_region (objects (gc_mark_roots ctx st)) = map obj_region (objects st).
Proof.
  destruct (gc_mark_roots_le ctx st) as [E F].
  rewrite (mark_le_regions _ _ F). rewrite E. simpl. repeat split; reflexivity.
Qed.

Lemma gc_collect_spec (ctx : machine_ctx) (st : gc_state_t) :
  wf st ->
  wf (gc_collect ctx st) /\
  objects (gc_collect ctx st) = survivors (objects (gc_mark_roots ctx st)) /\
  heap_used (gc_collect ctx st) <= heap_used st /\
  free_bytes (free_list (gc_collect ctx st)) =
    free_bytes (free_list st) + (heap_used st - heap_used (gc_collect ctx st)) /\
  collection_count (gc_collect ctx st) = collection_count st + 1 /\
  heap (gc_collect ctx st) = heap st /\
  heap_size (gc_collect ctx st) = heap_size st /\
  allocation_count (gc_collect ctx st) = allocation_count st.
Proof.
  intros W. split; [apply gc_collect_wf, W |].
  pose proof (gc_mark_roots_wf ctx _ W) as Wm.
  destruct (gc_mark_roots_frame ctx st) as (F1 & F2 & F3 & F4 & F5 & F6 & F7 & F8).
  destruct (gc_sweep_spec _ Wm) as (_ & S1 & S2 & S3 & S4).
  destruct (gc_sweep_frame (gc_mark_roots ctx st)) as (G1 & G2 & G3 & G4 & G5 & G6).
  pose proof (survivors_bytes _ _ (wf_regions _ Wm)) as Hsb.
  pose proof (wf_used _ Wm) as Hu. pose proof (wf_used _ W) as Hu0.
  unfold gc_collect. rewrite (wf_initialized _ W). simpl.
  rewrite S1, S2, S3, G1, G2, G4, G5, F1, F2, F4, F6, F7.
  rewrite F3 in Hu. repeat split; auto; lia.
Qed.

Lemma gc_collect_initialized (ctx : machine_ctx) (st : gc_state_t) :
  initialized (gc_collect ctx st) = initialized st.
Proof.
  unfold gc_collect. destruct (initialized st) eqn:E; simpl; [| exact E].
  destruct (gc_sweep_frame (gc_mark_roots ctx st)) as (_ & _ & -> & _).
  destruct (gc_mark_roots_frame ctx st) as (_ & _ & _ & _ & -> & _). exact E.
Qed.

Lemma gc_collect_count (ctx : machine_ctx) (st : gc_state_t) :
  initialized st = true ->
  collection_count (gc_collect ctx st) = collection_count st + 1.
Proof.
  intros E. unfold gc_collect. rewrite E. simpl.
  destruct (gc_sweep_frame (gc_mark_roots ctx st)) as (_ & _ & _ & -> & _).
  destruct (gc_mark_roots_frame ctx st) as (_ & _ & _ & _ & _ & -> & _). reflexivity.
Qed.

Lemma gc_malloc_init_initialized (env : call_env) (st st' : gc_state_t) :
  gc_malloc_init env st = Done st' -> initialized st' = true.
Proof.
  unfold gc_malloc_init, gc_init. destruct (initialized st) eqn:E; simpl.
  - intros [= <-]. exact E.
  - destruct (env_mmap env); [| discriminate]. intros [= <-]. reflexivity.
Qed.

Lemma gc_malloc_prepare_initialized (env : call_env) (size : Z) (st st' : gc_state_t) :
  gc_malloc_prepare env size st = Done st' -> initialized st' = true.
Proof.
  unfold gc_malloc_prepare.
  destruct (gc_malloc_init env st) as [s | |] eqn:E; try discriminate.
  apply gc_malloc_init_initialized in E.
  destruct (exceeds_threshold _ _); intros [= <-]; [| exact E].
  rewrite gc_collect_initialized. exact E.
Qed.

(** ** The threshold test in binary64 *)

Lemma GC_THRESHOLD_nearest :
  SFdiv 53 1024 (double_of_size_t 4) (double_of_size_t 5) = GC_THRESHOLD.
Proof. vm_compute. reflexivity. Qed.

Lemma threshold_bytes :
  SFmul 53 1024 (double_of_size_t GC_HEAP_SIZE) GC_THRESHOLD
  = S754_finite false 7205759403792794 (-33).
Proof. vm_compute. reflexivity. Qed.

Lemma digits2_pos_bounds (p : positive) :
  2 ^ (Zpos (digits2_pos p) - 1) <= Zpos p < 2 ^ Zpos (digits2_pos p).
Proof.
  induction p as [p IH | p IH |]; simpl digits2_pos.
  - rewrite Pos2Z.inj_succ.
    replace (Z.succ (Zpos (digits2_pos p)) - 1) with (Z.succ (Zpos (digits2_pos p) - 1)) by lia.
    rewrite !Z.pow_succ_r by lia. lia.
  - rewrite Pos2Z.inj_succ.
    replace (Z.succ (Zpos (digits2_pos p)) - 1) with (Z.succ (Zpos (digits2_pos p) - 1)) by lia.
    rewrite !Z.pow_succ_r by lia. lia.
  - simpl. lia.
Qed.

Lemma iter_xO_value (k p : positive) :
  Zpos (Pos.iter xO p k) = Zpos p * 2 ^ Zpos k.
Proof.
  induction k as [| k IH] using Pos.peano_ind.
  - simpl. lia.
  - rewrite Pos.iter_succ, Pos2Z.inj_succ, Z.pow_succ_r by lia.
    rewrite Pos2Z.inj_xO, IH. lia.
Qed.

Lemma iter_xO_digits (k p : positive) :
  digits2_pos (Pos.iter xO p k) = (digits2_pos p + k)%positive.
Proof.
  induction k as [| k IH] using Pos.peano_ind.
  - simpl. lia.
  - rewrite Pos.iter_succ. simpl. rewrite IH. lia.
Qed.

(** A mantissa of 53 bits with an exponent in range is kept as it is. *)
Lemma binary_round_aux_canonical (m : positive) (e : Z) :
  Zpos (digits2_pos m) = 53 -> -1074 <= e <= 971 ->
  binary_round_aux 53 1024 false (Zpos m) e loc_Exact = S754_finite false m e.
Proof.
  intros Hd He.
  unfold binary_round_aux, shr_fexp, fexp, emin. simpl Zdigits2. rewrite Hd.
  replace (Z.max (53 + e - 53) (3 - 1024 - 53) - e) with 0 by lia.
  simpl. rewrite Hd.
  replace (Z.max (53 + e - 53) (3 - 1024 - 53) - e) with 0 by lia.
  simpl. change (1024 - 53) with 971.
  destruct (e <=? 971) eqn:E; [reflexivity |].
  apply Z.leb_gt in E. lia.
Qed.

Lemma binary_round_small (p : positive) :
  Zpos (digits2_pos p) <= 53 ->
  exists m, binary_round 53 1024 false p 0
              = S754_finite false m (Zpos (digits2_pos p) - 53) /\
            Zpos m = Zpos p * 2 ^ (53 - Zpos (digits2_pos p)).
Proof.
  intros Hd. unfold binary_round, shl_align, fexp, emin.
  replace (Z.max (Zpos (digits2_pos p) + 0 - 53) (3 - 1024 - 53) - 0)
    with (Zpos (digits2_pos p) - 53) by lia.
  replace (Z.max (Zpos (digits2_pos p) + 0 - 53) (3 - 1024 - 53))
    with (Zpos (digits2_pos p) - 53) by lia.
  destruct (Zpos (digits2_pos p) - 53) as [| k | k] eqn:Ek; [| lia |].
  - exists p. rewrite binary_round_aux_canonical by lia.
    split; [do 2 f_equal; lia |].
    replace (53 - Zpos (digits2_pos p)) with 0 by lia. lia.
  - exists (Pos.iter xO p k).
    rewrite binary_round_aux_canonical.
    + split; [reflexivity |]. rewrite iter_xO_value. do 2 f_equal. lia.
    + rewrite iter_xO_digits. lia.
    + lia.
Qed.

Lemma shr_1_m (r : shr_record) : 0 <= shr_m r -> shr_m (shr_1 r) = shr_m r / 2.
Proof.
  destruct r as [m rr s]. simpl.
  destruct m as [| [p | p |] | p]; simpl; intros H; try reflexivity.
  - rewrite Pos2Z.inj_xI. div_lia.
  - rewrite Pos2Z.inj_xO. div_lia.
  - lia.
Qed.

Lemma iter_shr_1_m (k : positive) : forall r : shr_record,
  0 <= shr_m r -> shr_m (iter_pos shr_1 k r) = shr_m r / 2 ^ Zpos k.
Proof.
  induction k as [k IH | k IH |]; intros r Hr; simpl iter_pos.
  - assert (H1 : 0 <= shr_m (shr_1 r)) by (rewrite shr_1_m by lia; apply Z.div_pos; lia).
    assert (H2 : 0 <= shr_m (iter_pos shr_1 k (shr_1 r)))
      by (rewrite IH by lia; apply Z.div_pos; lia).
    rewrite IH, IH, shr_1_m by lia.
    rewrite !Z.div_div by lia. f_equal.
    rewrite (Pos2Z.inj_xI k).
    replace (2 * Zpos k + 1) with (1 + Zpos k + Zpos k) by lia.
    rewrite (Z.pow_add_r 2 (1 + Zpos k) (Zpos k)) by lia.
    rewrite (Z.pow_add_r 2 1 (Zpos k)) by lia. lia.
  - assert (H2 : 0 <= shr_m (iter_pos shr_1 k r))
      by (rewrite IH by lia; apply Z.div_pos; lia).
    rewrite IH, IH by lia.
    rewrite !Z.div_div by lia. f_equal.
    rewrite (Pos2Z.inj_xO k).
    replace (2 * Zpos k) with (Zpos k + Zpos k) by lia.
    rewrite (Z.pow_add_r 2 (Zpos k) (Zpos k)) by lia. lia.
  - rewrite shr_1_m by lia. reflexivity.
Qed.

(** Shifting a positive mantissa down to 53 bits leaves it positive and
    does not lower the exponent. *)
Lemma shr_fexp_exact (q : positive) (e e2 : Z) (mrs : shr_record) :
  -1074 <= e ->
  shr_fexp 53 1024 (Zpos q) e loc_Exact = (mrs, e2) ->
  e2 = e + Z.max 0 (Zpos (digits2_pos q) - 53) /\ 0 < shr_m mrs.
Proof.
  intros He H. unfold shr_fexp, shr, fexp, emin in H. simpl Zdigits2 in H.
  pose proof (digits2_pos_bounds q) as Hq.
  destruct (Z.max (Zpos (digits2_pos q) + e - 53) (3 - 1024 - 53) - e) as [| k | k] eqn:Ek;
    injection H as <- <-; simpl shr_m.
  - split; lia.
  - split; [lia |]. rewrite iter_shr_1_m by (simpl; lia). simpl shr_m.
    apply Z.div_str_pos. split; [lia |].
    assert (Hk : Zpos k = Zpos (digits2_pos q) - 53) by lia.
    rewrite Hk. etransitivity; [| apply Hq].
    apply Z.pow_le_mono_r; lia.
  - split; lia.
Qed.

Lemma round_nearest_even_bounds (m : Z) (l : location) :
  m <= round_nearest_even m l <= m + 1.
Proof.
  destruct l as [| []]; simpl; try lia.
  destruct (Z.even m); lia.
Qed.

(** Above 53 bits the conversion rounds, and the result has a positive
    exponent. *)
Lemma binary_round_large (p : positive) :
  53 < Zpos (digits2_pos p) ->
  match binary_round 53 1024 false p 0 with
  | S754_finite false _ e => 1 <= e
  | S754_infinity false => True
  | _ => False
  end.
Proof.
  intros Hd. unfold binary_round, shl_align, fexp, emin.
  destruct (Z.max (Zpos (digits2_pos p) + 0 - 53) (3 - 1024 - 53) - 0) as [| k | k] eqn:Ek;
    try lia.
  unfold binary_round_aux.
  destruct (shr_fexp 53 1024 (Zpos p) 0 loc_Exact) as [mrs' e'] eqn:E1.
  assert (H0 : -1074 <= 0) by lia.
  destruct (shr_fexp_exact p 0 e' mrs' H0 E1) as [He' Hm'].
  pose proof (round_nearest_even_bounds (shr_m mrs') (loc_of_shr_record mrs')) as Hr.
  destruct (round_nearest_even (shr_m mrs') (loc_of_shr_record mrs')) as [| q | q] eqn:Eq;
    try lia.
  destruct (shr_fexp 53 1024 (Zpos q) e' loc_Exact) as [mrs'' e''] eqn:E2.
  assert (H1 : -1074 <= e') by lia.
  destruct (shr_fexp_exact q e' e'' mrs'' H1 E2) as [He'' Hm''].
  destruct (shr_m mrs'') as [| m | m]; try lia.
  destruct (e'' <=? 1024 - 53); [lia | exact I].
Qed.

(** The comparison of doubles [used > heap_size * GC_THRESHOLD] holds
    exactly when [used] exceeds four fifths of the arena size. *)
Lemma exceeds_threshold_spec (used : Z) :
  0 <= used < SIZE_MAX_plus_1 ->
  exceeds_threshold used GC_HEAP_SIZE = true <-> 4 * GC_HEAP_SIZE < 5 * used.
Proof.
  intros Hu. change SIZE_MAX_plus_1 with (2 ^ 64) in Hu. unfold exceeds_threshold. rewrite threshold_bytes.
  change GC_HEAP_SIZE with 1048576.
  unfold double_of_size_t, binary_normalize.
  destruct used as [| p | p]; [split; [discriminate | lia] | | lia].
  clear Hu. pose proof (digits2_pos_bounds p) as Hp.
  destruct (Z_le_gt_dec (Zpos (digits2_pos p)) 53) as [Hd | Hd].
  - destruct (binary_round_small p Hd) as (m & -> & Hm).
    unfold SFltb, SFcompare.
    destruct (Z.compare_spec (-33) (Zpos (digits2_pos p) - 53)) as [E | E | E].
    + assert (Ed : Zpos (digits2_pos p) = 20) by lia.
      rewrite Ed in Hm, Hp.
      change (53 - 20) with 33 in Hm. change (2 ^ 33) with 8589934592 in Hm.
      rewrite Pos.compare_cont_spec.
      assert (Hcut : Zpos p <= 838860 -> Zpos m <= 7205752531845120).
      { intros Hle. rewrite Hm. change 7205752531845120 with (838860 * 8589934592).
        apply Z.mul_le_mono_nonneg_r; lia. }
      assert (Hcut' : 838860 < Zpos p -> 7205761121779712 <= Zpos m).
      { intros Hlt. rewrite Hm. change 7205761121779712 with (838861 * 8589934592).
        apply Z.mul_le_mono_nonneg_r; lia. }
      clear E Ed Hd Hm Hp.
      destruct (Z_le_gt_dec (Zpos p) 838860) as [Hle | Hgt].
      * specialize (Hcut Hle). clear Hcut'.
        destruct (Pos.compare_spec 7205759403792794 m) as [E' | E' | E'].
        -- exfalso. subst m. revert Hcut. clear. intros Hcut. lia.
        -- exfalso. apply Pos2Z.pos_lt_pos in E'. revert Hcut E'. clear. lia.
        -- split; [discriminate | intros H; exfalso; clear E' Hcut; lia].
      * assert (Hgt' : 838860 < Zpos p) by lia.
        specialize (Hcut' Hgt'). clear Hcut.
        destruct (Pos.compare_spec 7205759403792794 m) as [E' | E' | E'].
        -- exfalso. subst m. revert Hcut'. clear. lia.
        -- split; [intros _; clear E' Hcut'; lia | reflexivity].
        -- exfalso. apply Pos2Z.pos_lt_pos in E'. revert Hcut' E'. clear. lia.
    + split; [intros _ | reflexivity].
      assert (H20 : 2 ^ 20 <= 2 ^ (Zpos (digits2_pos p) - 1)) by (apply Z.pow_le_mono_r; lia).
      change (2 ^ 20) with 1048576 in H20. lia.
    + split; [discriminate | intros H]. exfalso.
      assert (H19 : 2 ^ Zpos (digits2_pos p) <= 2 ^ 19) by (apply Z.pow_le_mono_r; lia).
      change (2 ^ 19) with 524288 in H19. lia.
  - assert (Hd' : 53 < Zpos (digits2_pos p)) by lia.
    pose proof (binary_round_large p Hd') as Hl.
    assert (H53 : 2 ^ 53 <= 2 ^ (Zpos (digits2_pos p) - 1)) by (apply Z.pow_le_mono_r; lia).
    change (2 ^ 53) with 9007199254740992 in H53.
    destruct (binary_round 53 1024 false p 0) as [s | s | | s m e]; try contradiction.
    + destruct s; [contradiction |]. split; [intros _; lia | reflexivity].
    + destruct s; [contradiction |]. unfold SFltb, SFcompare.
      destruct (Z.compare_spec (-33) e) as [E | E | E]; [exfalso; lia | | exfalso; lia].
      split; [intros _; lia | reflexivity].
Qed.

(** ** The example states *)

Lemma mmap_ok_4096 : mmap_ok (Some 4096).
Proof. simpl. consts. lia. Qed.

Lemma reachable_st_boot : reachable st_boot.
Proof.
  apply (reachable_step gc_state0); [apply reachable_start |].
  apply (step_constructor 8192 (Some 4096)); [apply mmap_ok_4096 | reflexivity].
Qed.

Lemma reachable_st_one : reachable st_one.
Proof.
  apply (reachable_step st_boot); [apply reachable_st_boot |].
  apply (step_malloc env_no_roots 8 4120);
    [apply mmap_ok_4096 | consts; lia | vm_compute; reflexivity].
Qed.

Lemma reachable_st_three : reachable st_three.
Proof.
  apply (reachable_step (state_of (gc_malloc env_no_roots 8 st_one))).
  - apply (reachable_step st_one); [apply reachable_st_one |].
    apply (step_malloc env_no_roots 8 4152);
      [apply mmap_ok_4096 | consts; lia | vm_compute; reflexivity].
  - apply (step_malloc env_no_roots 8 4184);
      [apply mmap_ok_4096 | consts; lia | vm_compute; reflexivity].
Qed.

Lemma reachable_st_swept : reachable st_swept.
Proof.
  apply (reachable_step st_three); [apply reachable_st_three |].
  change st_swept with (gc_force_collect ctx_root_4152 st_three).
  apply step_force_collect.
Qed.

Lemma reachable_st_big : reachable st_big.
Proof.
  apply (reachable_step st_boot); [apply reachable_st_boot |].
  apply (step_malloc env_no_roots 900000 4120);
    [apply mmap_ok_4096 | consts; lia | vm_compute; reflexivity].
Qed.

Lemma reachable_st_frag : reachable st_frag.
Proof.
  apply (reachable_step
    (gc_force_collect ctx_root_404144
       (state_of (gc_malloc env_no_roots 8
          (state_of (gc_malloc env_no_roots 400000 st_boot)))))).
  - apply reachable_step with
      (st := state_of (gc_malloc env_no_roots 8
               (state_of (gc_malloc env_no_roots 400000 st_boot))));
      [| apply step_force_collect].
    apply (reachable_step (state_of (gc_malloc env_no_roots 400000 st_boot))).
    + apply (reachable_step st_boot); [apply reachable_st_boot |].
      apply (step_malloc env_no_roots 400000 4120);
        [apply mmap_ok_4096 | consts; lia | vm_compute; reflexivity].
    + apply (step_malloc env_no_roots 8 404144);
        [apply mmap_ok_4096 | consts; lia | vm_compute; reflexivity].
  - apply (step_malloc env_root_404144 8 4120);
      [apply mmap_ok_4096 | consts; lia | vm_compute; reflexivity].
Qed.

(** ** The model on small inputs *)

Example align_size_13 : align_size 13 = 16.
Proof. reflexivity. Qed.

Example align_size_wraps : align_size (2 ^ 64 - 1) = 0.
Proof. reflexivity. Qed.

Example threshold_838860 :
  exceeds_threshold 838860 GC_HEAP_SIZE = false /\
  exceeds_threshold 838861 GC_HEAP_SIZE = true.
Proof. split; vm_compute; reflexivity. Qed.

Example gc_malloc_8 : gc_malloc env_no_roots 8 st_boot = Done (4120, st_one).
Proof. vm_compute. reflexivity. Qed.

(** A request whose header and payload do not fit [size_t] acquires a span
    of 16 bytes and writes far more. *)
Example gc_malloc_huge : gc_malloc env_no_roots (2 ^ 64 - 8) st_boot = Fault.
Proof. vm_compute. reflexivity. Qed.

(** A collection that finds the second of three objects frees the other
    two; the third merges with the free block behind it. *)
Example gc_force_collect_st_three :
  free_list (gc_force_collect ctx_root_4152 st_three)
  = [ {| blk_addr := 4096; blk_size := 32 |};
      {| blk_addr := 4160; blk_size := 1048512 |} ] /\
  map obj_addr (objects (gc_force_collect ctx_root_4152 st_three)) = [4128] /\
  heap_used (gc_force_collect ctx_root_4152 st_three) = 32.
Proof. vm_compute. repeat split; reflexivity. Qed.

(** Marking through a payload that points to itself and to another
    object. *)
Example gc_mark_object_cycle :
  option_map (fun st => map obj_marked (objects st)) (gc_mark_object 3 4120 st_unmarked)
  = Some [true; true].
Proof. vm_compute. reflexivity. Qed.

(** * The claims *)

(** C10: a forced collection (and [gc_collect] itself) on a collector state
    whose [initialized] flag is clear returns at once and leaves every field
    of the state as it was, the collection counter included. *)
Theorem gc_force_collect_uninitialized (ctx : machine_ctx) (st : gc_state_t) :
  initialized st = false ->
  gc_force_collect ctx st = st /\ gc_collect ctx st = st.
Proof.
  intros H. unfold gc_force_collect.
  rewrite (gc_collect_pre_init ctx st H). split; reflexivity.
Qed.

Lemma gc_force_collect_uninitialized_witness :
  initialized st_uninitialized = false /\
  gc_force_collect ctx_root_4152 st_uninitialized = st_uninitialized /\
  gc_collect ctx_root_4152 st_uninitialized = st_uninitialized.
Proof.
  split; [reflexivity |].
  apply (gc_force_collect_uninitialized ctx_root_4152 st_uninitialized).
  reflexivity.
Defined.

(** C7: for a pointer that is not null, [gc_realloc (ptr, 0)] returns the
    null pointer and the collector state is the one it was called in: the
    registry, the free list and the bytes in use are unchanged. *)
Theorem gc_realloc_zero (env : call_env) (ptr : Z) (st : gc_state_t) :
  ptr <> NULL ->
  gc_realloc env ptr 0 st = Done (Returned NULL, st).
Proof.
  intros H. unfold gc_realloc.
  destruct (ptr =? NULL) eqn:E; [apply Z.eqb_eq in E; contradiction |].
  reflexivity.
Qed.

Lemma gc_realloc_zero_witness :
  4120 <> NULL /\
  gc_realloc env_no_roots 4120 0 st_one = Done (Returned NULL, st_one).
Proof.
  split; [unfold NULL; lia |].
  apply (gc_realloc_zero env_no_roots 4120 st_one). unfold NULL. lia.
Defined.

(** A request that the object found cannot hold leaves [gc_realloc] through
    the end of the [if] statement: nothing is allocated, nothing is copied
    and no pointer is returned. *)
Lemma gc_realloc_grow (env : call_env) (ptr new_size : Z) (st : gc_state_t)
    (obj : gc_object_t) :
  ptr <> NULL -> new_size <> 0 ->
  find_payload ptr (objects st) = Some obj ->
  obj_size obj < align_size new_size ->
  gc_realloc env ptr new_size st = Done (NoValue, st).
Proof.
  intros Hp Hn Hf Hs. unfold gc_realloc.
  destruct (ptr =? NULL) eqn:E1; [apply Z.eqb_eq in E1; contradiction |].
  destruct (new_size =? 0) eqn:E2; [apply Z.eqb_eq in E2; contradiction |].
  rewrite Hf.
  destruct (align_size new_size <=? obj_size obj) eqn:E3; [| reflexivity].
  apply Z.leb_le in E3. lia.
Qed.

(** C1 (the code departs from it): in [st_one] the object with payload at
    4120 holds 8 bytes; asked to resize it to 64 bytes, [gc_realloc]
    allocates nothing, returns no pointer and leaves the state as it was. *)
Theorem gc_realloc_grow_st_one :
  find_payload 4120 (objects st_one)
    = Some {| obj_addr := 4096; obj_size := 8; obj_marked := false;
              obj_data := fun _ => 0 |} /\
  align_size 64 = 64 /\
  gc_realloc env_no_roots 4120 64 st_one = Done (NoValue, st_one).
Proof. repeat split; reflexivity. Qed.

(** C4: in every state reached by the constructor, by calls to the entry
    points that return and by stores of the program into payloads (so after
    any sequence of allocate and collect calls), the free list is strictly
    ascending by block address and no block of it ends where a block of it
    starts. *)
Theorem free_list_sorted_nonadjacent (st : gc_state_t) :
  reachable st ->
  strictly_ascending (free_list st) /\ no_adjacent_blocks (free_list st).
Proof.
  intros H. destruct (reachable_inv _ H) as [(_ & _ & Hf & _) | W].
  - rewrite Hf. split; intros i j b b'; intros; discriminate.
  - exact (free_chain_ascending _ _ (wf_chain _ W)).
Qed.

Lemma free_list_sorted_nonadjacent_witness :
  reachable st_swept /\
  strictly_ascending (free_list st_swept) /\ no_adjacent_blocks (free_list st_swept).
Proof.
  split; [exact reachable_st_swept |].
  apply (free_list_sorted_nonadjacent st_swept). exact reachable_st_swept.
Defined.

Lemma inv_usage_accounted (st : gc_state_t) : inv st -> usage_accounted st.
Proof.
  unfold usage_accounted. intros [(_ & Ho & _ & Hu) | W].
  - rewrite Ho, Hu. reflexivity.
  - rewrite <- registry_bytes_sum. apply (wf_used _ W).
Qed.

(** C5: in every reachable state, and so after every call of [gc_malloc]
    and of [gc_collect] made in one, [heap_used] is the sum of header size
    plus payload size over the objects of the registry. *)
Theorem heap_used_accounting (st : gc_state_t) :
  reachable st ->
  usage_accounted st /\
  (forall ctx, usage_accounted (gc_collect ctx st)) /\
  (forall env size p st',
     mmap_ok (env_mmap env) -> 0 <= size < SIZE_MAX_plus_1 ->
     gc_malloc env size st = Done (p, st') -> usage_accounted st').
Proof.
  intros H. pose proof (reachable_inv _ H) as Hinv.
  split; [apply inv_usage_accounted, Hinv |]. split.
  - intros ctx. apply inv_usage_accounted, gc_collect_inv, Hinv.
  - intros env size p st' Hmm Hs Hm. apply inv_usage_accounted. right.
    eapply gc_malloc_wf; eauto.
Qed.

Lemma heap_used_accounting_witness :
  reachable st_three /\
  usage_accounted st_three /\
  usage_accounted (gc_collect ctx_root_4152 st_three) /\
  usage_accounted (state_of (gc_malloc env_no_roots 100 st_three)).
Proof.
  split; [exact reachable_st_three |].
  destruct (heap_used_accounting st_three reachable_st_three) as (H1 & H2 & H3).
  split; [exact H1 |]. split; [apply H2 |].
  apply (H3 env_no_roots 100 4216).
  - apply mmap_ok_4096.
  - consts. lia.
  - vm_compute. reflexivity.
Defined.

Lemma wf_span_stored (st : gc_state_t) :
  wf st -> Forall span_stored (objects st).
Proof.
  intros W. pose proof (wf_regions _ W) as R.
  rewrite Forall_fmap in R. eapply Forall_impl; [exact R |].
  intros o Ho. simpl in Ho. unfold span_stored.
  assert (E : wrap (sizeof_gc_object_t + obj_size o) = sizeof_gc_object_t + obj_size o).
  { apply wrap_small. consts. lia. }
  split; [exact E |]. split; [consts; lia |].
  intros fl. rewrite E. unfold gc_add_to_freelist.
  destruct (sizeof_gc_object_t + obj_size o <? sizeof_gc_free_block_t) eqn:El;
    [| reflexivity].
  apply Z.ltb_lt in El. consts. lia.
Qed.

(** C8: the struct sizes satisfy
    [sizeof(gc_free_block_t) <= sizeof(gc_object_t)]; in a collection run in
    a reachable state, every object of the registry that [gc_sweep] goes
    through has a span of header size plus payload size, not below the
    least size [gc_add_to_freelist] stores, so that call inserts the span;
    and the bytes the collection takes off [heap_used] are all added to the
    free list. *)
Theorem sweep_never_drops (ctx : machine_ctx) (st : gc_state_t) :
  reachable st ->
  sizeof_gc_free_block_t <= sizeof_gc_object_t /\
  Forall span_stored (objects (gc_mark_roots ctx st)) /\
  free_bytes (free_list (gc_collect ctx st)) =
    free_bytes (free_list st) + (heap_used st - heap_used (gc_collect ctx st)).
Proof.
  intros H. split; [consts; lia |].
  destruct (reachable_inv _ H) as [(Hi & Ho & Hf & Hu) | W].
  - rewrite (gc_collect_pre_init ctx st Hi). split; [| lia].
    destruct (gc_mark_roots_le ctx st) as [_ F]. simpl in F.
    rewrite Ho in F. inversion F. constructor.
  - split; [apply wf_span_stored, gc_mark_roots_wf, W |].
    apply gc_collect_spec, W.
Qed.

Lemma sweep_never_drops_witness :
  reachable st_three /\
  sizeof_gc_free_block_t <= sizeof_gc_object_t /\
  Forall span_stored (objects (gc_mark_roots ctx_root_4152 st_three)) /\
  free_bytes (free_list (gc_collect ctx_root_4152 st_three)) =
    free_bytes (free_list st_three) +
    (heap_used st_three - heap_used (gc_collect ctx_root_4152 st_three)).
Proof.
  split; [exact reachable_st_three |].
  apply (sweep_never_drops ctx_root_4152 st_three). exact reachable_st_three.
Defined.

(** ** Allocation of zero bytes *)

Lemma wf_free_fits (st : gc_state_t) :
  wf st -> 0 < free_bytes (free_list st) ->
  Exists (fun b => sizeof_gc_object_t <= blk_size b) (free_list st).
Proof.
  intros W Hb. pose proof (wf_chain _ W) as Hc.
  destruct (free_list st) as [| b fl]; [unfold free_bytes in Hb; simpl in Hb; lia |].
  constructor. apply Hc.
Qed.

Lemma Exists_free_bytes (gap lo : Z) (fl : list gc_free_block_t) :
  free_chain gap lo fl ->
  Exists (fun b => sizeof_gc_object_t <= blk_size b) fl -> 0 < free_bytes fl.
Proof.
  intros Hc He. destruct fl as [| b fl]; [inversion He |].
  destruct Hc as (_ & Hs & Hr). pose proof (free_bytes_nonneg _ _ _ Hr) as Hn.
  unfold free_bytes in *. simpl. consts. lia.
Qed.

(** C9, as the code has it: when the free list of a reachable state holds a
    block of at least the header size, [gc_malloc (0)] first runs the
    threshold collection if it is due, then returns a pointer that is not
    null, puts an object of payload size 0 with a clear mark flag at the
    head of the registry left by that step, and makes [heap_used] the value
    left by that step plus the header size.  When no collection is due the
    registry and [heap_used] left by that step are those at the call. *)
Theorem gc_malloc_zero (env : call_env) (st : gc_state_t) :
  reachable st ->
  Exists (fun b => sizeof_gc_object_t <= blk_size b) (free_list st) ->
  let st1 :=
    if exceeds_threshold (wrap (heap_used st + sizeof_gc_object_t)) (heap_size st)
    then gc_collect (env_ctx1 env) st else st in
  exists p st',
    gc_malloc env 0 st = Done (p, st') /\
    p <> NULL /\
    objects st' = {| obj_addr := p - sizeof_gc_object_t; obj_size := 0;
                     obj_marked := false; obj_data := fun _ => 0 |} :: objects st1 /\
    heap_used st' = heap_used st1 + sizeof_gc_object_t.
Proof.
  intros Hr He st1.
  destruct (reachable_inv _ Hr) as [(_ & _ & Hf & _) | W];
    [rewrite Hf in He; inversion He |].
  assert (Hprep : gc_malloc_prepare env 0 st = Done st1).
  { unfold gc_malloc_prepare, gc_malloc_init. rewrite (wf_initialized _ W). simpl.
    rewrite align_size_0. change (wrap (sizeof_gc_object_t + 0)) with sizeof_gc_object_t.
    subst st1. destruct (exceeds_threshold _ _); reflexivity. }
  assert (W1 : wf st1).
  { subst st1. destruct (exceeds_threshold _ _); auto using gc_collect_wf. }
  assert (He1 : Exists (fun b => sizeof_gc_object_t <= blk_size b) (free_list st1)).
  { subst st1. destruct (exceeds_threshold _ _); [| exact He].
    apply wf_free_fits; [apply gc_collect_wf, W |].
    destruct (gc_collect_spec (env_ctx1 env) _ W) as (_ & _ & Hu & Hb & _).
    pose proof (Exists_free_bytes _ _ _ (wf_chain _ W) He). lia. }
  destruct (gc_alloc_from_freelist_fits _ _ He1) as (ptr & fl & Ha).
  unfold gc_malloc, gc_malloc_acquire. rewrite Hprep, align_size_0.
  change (wrap (sizeof_gc_object_t + 0)) with sizeof_gc_object_t. rewrite Ha.
  destruct (gc_malloc_commit ptr 0 sizeof_gc_object_t (set_free_list fl st1))
    as [[p st'] | |] eqn:Ec; try discriminate.
  destruct (gc_malloc_commit_spec st1 st' 0 ptr p fl W1 ltac:(lia) Ha Ec)
    as (_ & Hp & Hlo & _ & Est).
  exists p, st'. split; [reflexivity |].
  pose proof (wf_heap _ W1). split; [consts; lia |].
  rewrite Est. simpl. split; [| consts; lia].
  do 2 f_equal. consts. lia.
Qed.

Lemma gc_malloc_zero_witness :
  reachable st_swept /\
  Exists (fun b => sizeof_gc_object_t <= blk_size b) (free_list st_swept) /\
  exists p st',
    gc_malloc env_no_roots 0 st_swept = Done (p, st') /\
    p <> NULL /\
    objects st' = {| obj_addr := p - sizeof_gc_object_t; obj_size := 0;
                     obj_marked := false; obj_data := fun _ => 0 |} :: objects st_swept /\
    heap_used st' = heap_used st_swept + sizeof_gc_object_t.
Proof.
  split; [exact reachable_st_swept |].
  assert (He : Exists (fun b => sizeof_gc_object_t <= blk_size b) (free_list st_swept)).
  { constructor. simpl. consts. lia. }
  split; [exact He |].
  exact (gc_malloc_zero env_no_roots st_swept reachable_st_swept He).
Defined.

(** C9 as stated fails: in [st_big] a free block of the header size exists,
    yet after [gc_malloc (0)] the bytes in use are not those at the call
    plus the header size, because the call first collects the unreferenced
    object. *)
Lemma gc_malloc_zero_collects_counterexample :
  reachable st_big /\
  Exists (fun b => sizeof_gc_object_t <= blk_size b) (free_list st_big) /\
  exists p st',
    gc_malloc env_no_roots 0 st_big = Done (p, st') /\
    heap_used st_big = 900024 /\ heap_used st' = 24 /\
    heap_used st' <> heap_used st_big + sizeof_gc_object_t.
Proof.
  split; [exact reachable_st_big |].
  split; [constructor; simpl; consts; lia |].
  eexists _, _. split; [vm_compute; reflexivity |].
  simpl. consts. lia.
Qed.

(** ** Out of memory *)

Lemma registry_within_refl (st : gc_state_t) : registry_within st st.
Proof. intros o Ho. exists o. repeat split; auto. Qed.

Lemma registry_within_trans (s1 s2 s3 : gc_state_t) :
  registry_within s1 s2 -> registry_within s2 s3 -> registry_within s1 s3.
Proof.
  intros H12 H23 o3 Ho3.
  destruct (H23 _ Ho3) as (o2 & Ho2 & (A2 & B2 & C2)).
  destruct (H12 _ Ho2) as (o1 & Ho1 & (A1 & B1 & C1)).
  exists o1. repeat split; auto; congruence.
Qed.

Lemma survivors_within (l : list gc_object_t) (o' : gc_object_t) :
  In o' (survivors l) -> exists o, In o l /\ same_shape o o'.
Proof.
  induction l as [| a l IH]; simpl; [tauto |].
  destruct (obj_marked a); simpl.
  - intros [<- | H].
    + exists a. repeat split; auto.
    + destruct (IH H) as (o & Ho & Hs). eauto.
  - intros H. destruct (IH H) as (o & Ho & Hs). eauto.
Qed.

Lemma mark_le_within (l l' : list gc_object_t) (o' : gc_object_t) :
  Forall2 mark_le_obj l l' -> In o' l' -> exists o, In o l /\ same_shape o o'.
Proof.
  induction 1 as [| a a' l l' [Hs _] _ IH]; simpl; [tauto |].
  intros [<- | H]; [eauto |].
  destruct (IH H) as (o & Ho & Hso). eauto.
Qed.

Lemma gc_collect_within (ctx : machine_ctx) (st : gc_state_t) :
  wf st -> registry_within st (gc_collect ctx st).
Proof.
  intros W o' Ho'.
  destruct (gc_collect_spec ctx _ W) as (_ & Eo & _). rewrite Eo in Ho'.
  destruct (survivors_within _ _ Ho') as (o1 & Ho1 & (A1 & B1 & C1)).
  destruct (gc_mark_roots_le ctx st) as [_ F]. simpl in F.
  destruct (mark_le_within _ _ _ F Ho1) as (o & Ho & (A & B & C)).
  exists o. repeat split; auto; congruence.
Qed.

Lemma gc_malloc_prepare_within (env : call_env) (size : Z) (st st1 : gc_state_t) :
  mmap_ok (env_mmap env) -> inv st ->
  gc_malloc_prepare env size st = Done st1 ->
  registry_within st st1 /\ heap_used st1 <= heap_used st.
Proof.
  intros Hmm Hinv H. unfold gc_malloc_prepare in H.
  destruct (gc_malloc_init env st) as [st0 | |] eqn:E0; try discriminate.
  pose proof (gc_malloc_init_wf _ _ _ Hmm Hinv E0) as W0.
  assert (H0 : registry_within st st0 /\ heap_used st0 <= heap_used st).
  { unfold gc_malloc_init, gc_init in E0. destruct (initialized st) eqn:Ei; simpl in E0.
    - injection E0 as <-. split; [apply registry_within_refl | lia].
    - destruct (env_mmap env); [| discriminate]. injection E0 as <-.
      destruct Hinv as [(_ & _ & _ & Hu) | W]; [| rewrite (wf_initialized _ W) in Ei; discriminate].
      split; [intros o [] | simpl; lia]. }
  destruct H0 as [R0 U0].
  destruct (exceeds_threshold _ _); injection H as <-; [| auto].
  destruct (gc_collect_spec (env_ctx1 env) _ W0) as (_ & _ & Hu & _).
  split; [| lia].
  eapply registry_within_trans; [exact R0 | apply gc_collect_within, W0].
Qed.

(** C2, as the code has it: when the first acquisition of the total span
    fails, [gc_malloc] runs exactly one more collection and tries the free
    list once more, in the state that collection left; when that fails too
    it returns the null pointer (it neither exits nor faults) together with
    that state.  No object has been added to the registry and [heap_used]
    has not grown; the collections run by the call may have removed objects
    and lowered [heap_used]. *)
Theorem gc_malloc_out_of_memory (env : call_env) (size : Z) (st st1 : gc_state_t) :
  reachable st -> mmap_ok (env_mmap env) ->
  gc_malloc_prepare env size st = Done st1 ->
  let total_size := wrap (sizeof_gc_object_t + align_size size) in
  let st2 := gc_collect (env_ctx2 env) st1 in
  gc_alloc_from_freelist total_size (free_list st1) = None ->
  collection_count st2 = collection_count st1 + 1 /\
  gc_malloc env size st =
    match gc_alloc_from_freelist total_size (free_list st2) with
    | Some (ptr, fl) =>
        gc_malloc_commit ptr (align_size size) total_size (set_free_list fl st2)
    | None => Done (NULL, st2)
    end /\
  (gc_alloc_from_freelist total_size (free_list st2) = None ->
   gc_malloc env size st = Done (NULL, st2) /\
   registry_within st st2 /\
   heap_used st2 <= heap_used st).
Proof.
  intros Hr Hmm Hp total_size st2 Hnone.
  pose proof (reachable_inv _ Hr) as Hinv.
  pose proof (gc_malloc_prepare_wf _ _ _ _ Hmm Hinv Hp) as W1.
  destruct (gc_malloc_prepare_within _ _ _ _ Hmm Hinv Hp) as [R1 U1].
  destruct (gc_collect_spec (env_ctx2 env) _ W1) as (_ & _ & Hu & _ & Hc & _).
  assert (Hm : gc_malloc env size st =
    match gc_alloc_from_freelist total_size (free_list st2) with
    | Some (ptr, fl) =>
        gc_malloc_commit ptr (align_size size) total_size (set_free_list fl st2)
    | None => Done (NULL, st2)
    end).
  { unfold gc_malloc, gc_malloc_acquire. rewrite Hp. fold total_size. rewrite Hnone. reflexivity. }
  split; [exact Hc |]. split; [exact Hm |].
  intros Hnone2. rewrite Hm, Hnone2. split; [reflexivity |].
  split; [| subst st2; lia].
  eapply registry_within_trans; [exact R1 | apply gc_collect_within, W1].
Qed.

Lemma gc_malloc_out_of_memory_witness :
  reachable st_frag /\
  gc_malloc env_root_404144 700000 st_frag =
    Done (NULL, gc_collect ctx_root_404144 st_frag) /\
  collection_count (gc_collect ctx_root_404144 st_frag) = collection_count st_frag + 1 /\
  registry_within st_frag (gc_collect ctx_root_404144 st_frag) /\
  heap_used (gc_collect ctx_root_404144 st_frag) <= heap_used st_frag.
Proof.
  split; [exact reachable_st_frag |].
  assert (Hp : gc_malloc_prepare env_root_404144 700000 st_frag = Done st_frag).
  { vm_compute. reflexivity. }
  destruct (gc_malloc_out_of_memory env_root_404144 700000 st_frag _
              reachable_st_frag mmap_ok_4096 Hp) as (Hc & _ & Hn).
  { vm_compute. reflexivity. }
  destruct Hn as (Hm & Hw & Hu).
  { vm_compute. reflexivity. }
  repeat split; assumption.
Defined.

(** C2 as stated fails: asked for 700000 bytes in [st_frag], [gc_malloc]
    runs no threshold collection, finds no block, collects, finds none
    again and returns the null pointer; the collection has reclaimed the
    unreferenced object, so the bytes in use have changed from 64 to 32. *)
Lemma gc_malloc_out_of_memory_counterexample :
  reachable st_frag /\
  gc_malloc_prepare env_root_404144 700000 st_frag = Done st_frag /\
  gc_alloc_from_freelist (wrap (sizeof_gc_object_t + align_size 700000))
    (free_list st_frag) = None /\
  exists st',
    gc_malloc env_root_404144 700000 st_frag = Done (NULL, st') /\
    heap_used st_frag = 64 /\ heap_used st' = 32 /\
    heap_used st' <> heap_used st_frag.
Proof.
  split; [exact reachable_st_frag |].
  split; [vm_compute; reflexivity |].
  split; [vm_compute; reflexivity |].
  eexists. split; [vm_compute; reflexivity |].
  simpl. lia.
Qed.

(** ** The collection threshold *)

Lemma round_up_8 (size : Z) : round_up size GC_ALIGNMENT = 8 * ((size + 7) / 8).
Proof. unfold round_up, GC_ALIGNMENT. replace (size + 8 - 1) with (size + 7) by lia. lia. Qed.

(** C3, as the code has it: once the heap exists, the threshold collection
    runs exactly when the projected usage exceeds four fifths of the arena
    size, where the projected usage is [heap_used] plus the total span with
    the rounding and both sums taken in [size_t], that is modulo 2^64.
    Whenever the request is small enough for none of them to wrap, the
    projected usage is [heap_used] plus the header size plus the payload
    size rounded up to a multiple of 8.  The first attempt on the free list
    is made in the state this step leaves. *)
Theorem gc_malloc_threshold (env : call_env) (size : Z) (st st0 : gc_state_t) :
  reachable st -> mmap_ok (env_mmap env) ->
  gc_malloc_init env st = Done st0 ->
  let projected := wrap (heap_used st0 + wrap (sizeof_gc_object_t + align_size size)) in
  (4 * heap_size st0 < 5 * projected ->
   gc_malloc_prepare env size st = Done (gc_collect (env_ctx1 env) st0) /\
   collection_count (gc_collect (env_ctx1 env) st0) = collection_count st0 + 1) /\
  (5 * projected <= 4 * heap_size st0 ->
   gc_malloc_prepare env size st = Done st0) /\
  (0 <= size -> heap_used st0 + sizeof_gc_object_t + size + 7 < SIZE_MAX_plus_1 ->
   projected = heap_used st0 + (sizeof_gc_object_t + round_up size GC_ALIGNMENT)) /\
  (forall st1, gc_malloc_prepare env size st = Done st1 ->
               gc_malloc env size st = gc_malloc_acquire env size st1).
Proof.
  intros Hr Hmm Hi projected.
  pose proof (gc_malloc_init_wf _ _ _ Hmm (reachable_inv _ Hr) Hi) as W0.
  pose proof (wf_heap_size _ W0) as Hs.
  pose proof (exceeds_threshold_spec projected (wrap_range _)) as Hx.
  assert (Hprep : gc_malloc_prepare env size st =
                  if exceeds_threshold projected (heap_size st0)
                  then Done (gc_collect (env_ctx1 env) st0) else Done st0).
  { unfold gc_malloc_prepare. rewrite Hi. reflexivity. }
  rewrite Hs in *. repeat split.
  - rewrite Hprep. destruct Hx as [_ Hx]. rewrite Hx by assumption. reflexivity.
  - apply gc_collect_count, (wf_initialized _ W0).
  - intros Hle. rewrite Hprep.
    destruct (exceeds_threshold projected GC_HEAP_SIZE); [| reflexivity].
    destruct Hx as [Hx _]. specialize (Hx eq_refl). lia.
  - intros H0 Hsmall. subst projected.
    pose proof (sum_len_nonneg _ _ (wf_regions _ W0)) as Hn.
    pose proof (wf_used _ W0) as Hu. unfold registry_bytes in Hu.
    rewrite round_up_8, align_size_small by (consts; lia).
    rewrite (wrap_small (sizeof_gc_object_t + _)) by (consts; div_lia).
    rewrite wrap_small by (consts; div_lia). reflexivity.
  - intros st1 H1. unfold gc_malloc. rewrite H1. reflexivity.
Qed.

Lemma gc_malloc_threshold_witness :
  reachable st_big /\
  gc_malloc_prepare env_no_roots 8 st_big = Done (gc_collect ctx_no_roots st_big) /\
  collection_count (gc_collect ctx_no_roots st_big) = collection_count st_big + 1 /\
  gc_malloc_prepare env_no_roots 8 st_one = Done st_one /\
  wrap (heap_used st_one + wrap (sizeof_gc_object_t + align_size 13))
    = heap_used st_one + (sizeof_gc_object_t + round_up 13 GC_ALIGNMENT).
Proof.
  split; [exact reachable_st_big |].
  destruct (gc_malloc_threshold env_no_roots 8 st_big st_big
              reachable_st_big mmap_ok_4096 eq_refl) as ((H1 & H2) & _).
  { vm_compute. reflexivity. }
  destruct (gc_malloc_threshold env_no_roots 8 st_one st_one
              reachable_st_one mmap_ok_4096 eq_refl) as (_ & H3 & _).
  destruct (gc_malloc_threshold env_no_roots 13 st_one st_one
              reachable_st_one mmap_ok_4096 eq_refl) as (_ & _ & H4 & _).
  split; [exact H1 |]. split; [exact H2 |]. split.
  - apply H3. vm_compute. discriminate.
  - apply H4; vm_compute; [discriminate | reflexivity].
Defined.

(** C3 as stated fails: for a request of 2^64 - 1 bytes in [st_boot] the
    bytes in use plus the header size plus the payload size rounded up to
    a multiple of 8 exceed four fifths of the arena, but the rounding wraps
    to 0 and no collection runs before the first acquisition. *)
Lemma gc_malloc_threshold_counterexample :
  reachable st_boot /\
  4 * heap_size st_boot <
    5 * (heap_used st_boot + (sizeof_gc_object_t + round_up (2 ^ 64 - 1) GC_ALIGNMENT)) /\
  gc_malloc_prepare env_no_roots (2 ^ 64 - 1) st_boot = Done st_boot /\
  collection_count (gc_collect (env_ctx1 env_no_roots) st_boot)
    <> collection_count st_boot.
Proof.
  split; [exact reachable_st_boot |].
  split; [vm_compute; reflexivity |].
  split; [vm_compute; reflexivity |].
  vm_compute. discriminate.
Qed.

(** ** Marking *)

(** C6, as the code has it: for every candidate address and every registry,
    cyclic or not, [gc_mark_object] returns once its fuel exceeds the number
    of registered objects, and more fuel does not change the result; it only
    sets mark flags.  When the call is made in a state where no marked
    object refers to an unmarked one (as at every call made by the root
    scan), every object conservatively reachable from the candidate address
    is marked in the state returned. *)
Theorem gc_mark_object_marks_reachable (ptr : Z) (st : gc_state_t) :
  exists st',
    (forall fuel, (mark_fuel st <= fuel)%nat -> gc_mark_object fuel ptr st = Some st') /\
    mark_le st st' /\
    (marks_closed st ->
     forall i j, gc_find_object_containing st ptr = Some i ->
                 reaches st i j -> is_marked st' j).
Proof.
  destruct (gc_mark_object_fuel_enough ptr st) as (st' & E & L).
  exists st'. split; [| split; [exact L |]].
  - intros fuel Hf. eapply gc_mark_object_mono; eauto.
  - intros Hc i j Hi Hr.
    eapply mark_post_reaches; eauto using gc_mark_object_post.
Qed.

Lemma points_to_st_unmarked_other : points_to st_unmarked 1 0.
Proof.
  eexists _, 4160. split; [reflexivity |].
  split; [right; left; reflexivity |]. split; reflexivity.
Qed.

Lemma gc_mark_object_marks_reachable_witness :
  marks_closed st_unmarked /\
  exists st',
    gc_mark_object 3 4120 st_unmarked = Some st' /\
    is_marked st' 1 /\ is_marked st' 0.
Proof.
  assert (Hc : marks_closed st_unmarked).
  { apply no_marks_closed. repeat constructor. }
  split; [exact Hc |].
  destruct (gc_mark_object_marks_reachable 4120 st_unmarked) as (st' & Hf & _ & Hm).
  exists st'. split; [apply Hf; vm_compute; lia |].
  split.
  - apply (Hm Hc 1%nat 1%nat); [reflexivity | apply reaches_refl].
  - apply (Hm Hc 1%nat 0%nat); [reflexivity |].
    eapply reaches_step; [apply reaches_refl | apply points_to_st_unmarked_other].
Defined.

(** C6 as stated fails at a call the traversal itself makes.  Marking
    [st_unmarked] from 4120 sets the flag of the object at 4096, which gives
    [st_marking], and hands the first payload word, 4120 again, to a nested
    call.  That call returns [st_marking] unchanged, yet the object at 4136
    is reachable from 4120 and its flag is clear. *)
Lemma gc_mark_object_nested_call_counterexample :
  gc_mark_object 3 4120 st_unmarked
    = mark_words (gc_mark_object 2) [4120; 4160] st_marking /\
  gc_is_valid_pointer st_marking 4120 = true /\
  gc_mark_object 2 4120 st_marking = Some st_marking /\
  gc_find_object_containing st_marking 4120 = Some 1%nat /\
  reaches st_marking 1 0 /\
  ~ is_marked st_marking 0.
Proof.
  split; [reflexivity |]. split; [reflexivity |]. split; [reflexivity |].
  split; [reflexivity |]. split.
  - eapply reaches_step; [apply reaches_refl |].
    eexists _, 4160. split; [reflexivity |].
    split; [right; left; reflexivity |]. split; reflexivity.
  - intros (o & Ho & Hm). simpl in Ho. injection Ho as <-. discriminate.
Qed.

(** * Further lemmas *)

(** ** Lookups in a registry of disjoint objects *)

Lemma pairwise_apart_lookup (rs : list region) : forall (i j : nat) (r r' : region),
  pairwise_apart rs -> i <> j -> rs !! i = Some r -> rs !! j = Some r' -> apart r r'.
Proof.
  induction rs as [| a rs IH]; intros i j r r' Hp Hij Hi Hj; [discriminate |].
  destruct Hp as [Ha Hp].
  destruct i as [| i], j as [| j]; simpl in *; try congruence.
  - injection Hi as <-. eapply Forall_lookup_1; eauto.
  - injection Hj as <-. apply apart_sym. eapply Forall_lookup_1; eauto.
  - eapply (IH i j); eauto.
Qed.

Lemma find_containing_contains (p : Z) (l : list gc_object_t) : forall i : nat,
  find_containing p l = Some i ->
  exists o, l !! i = Some o /\ obj_contains o p = true /\
            forall k o', (k < i)%nat -> l !! k = Some o' -> obj_contains o' p = false.
Proof.
  induction l as [| a l IH]; intros i H; simpl in H; [discriminate |].
  destruct (obj_contains a p) eqn:E.
  - injection H as <-. exists a. repeat split; auto. intros k o' Hk. lia.
  - destruct (find_containing p l) as [i' |] eqn:E'; simpl in H; [| discriminate].
    injection H as <-. destruct (IH i' eq_refl) as (o & H1 & H2 & H3).
    exists o. repeat split; auto.
    intros [| k] o' Hk Ho'; simpl in Ho'.
    + congruence.
    + apply (H3 k); auto. lia.
Qed.

Lemma find_containing_first (p : Z) (l : list gc_object_t) (i : nat) (o : gc_object_t) :
  l !! i = Some o -> obj_contains o p = true ->
  exists k, find_containing p l = Some k /\ (k <= i)%nat.
Proof.
  revert i. induction l as [| a l IH]; intros i Hi Hc; [discriminate |].
  simpl. destruct (obj_contains a p) eqn:E.
  - exists O. split; auto. lia.
  - destruct i as [| i]; simpl in Hi; [congruence |].
    destruct (IH i Hi Hc) as (k & -> & Hk). exists (S k). split; auto. lia.
Qed.

(** ** Mark flags between calls *)

Lemma survivors_no_marks (l : list gc_object_t) :
  Forall (fun o => obj_marked o = false) (survivors l).
Proof.
  induction l as [| o l IH]; simpl; [constructor |].
  destruct (obj_marked o); auto.
Qed.

Lemma sweep_objects_survivors (objs : list gc_object_t) :
  forall (fl : list gc_free_block_t) (used : Z),
  (sweep_objects objs fl used).1.1 = survivors objs.
Proof.
  induction objs as [| o objs IH]; intros fl used; simpl; [reflexivity |].
  destruct (obj_marked o); simpl.
  - specialize (IH fl used). destruct (sweep_objects objs fl used) as [[k f] u].
    simpl in *. congruence.
  - apply IH.
Qed.

Lemma gc_sweep_objects (st : gc_state_t) :
  objects (gc_sweep st) = survivors (objects st).
Proof.
  unfold gc_sweep.
  pose proof (sweep_objects_survivors (objects st) (free_list st) (heap_used st)) as H.
  destruct (sweep_objects _ _ _) as [[k f] u]. exact H.
Qed.

Lemma gc_collect_objects (ctx : machine_ctx) (st : gc_state_t) :
  initialized st = true ->
  objects (gc_collect ctx st) = survivors (objects (gc_mark_roots ctx st)).
Proof.
  intros H. unfold gc_collect. rewrite H. simpl. apply gc_sweep_objects.
Qed.

Lemma gc_collect_no_marks (ctx : machine_ctx) (st : gc_state_t) :
  no_marks st -> no_marks (gc_collect ctx st).
Proof.
  intros H. destruct (initialized st) eqn:E.
  - unfold no_marks. rewrite gc_collect_objects by exact E. apply survivors_no_marks.
  - rewrite gc_collect_pre_init; auto.
Qed.

(** ** The paths through [gc_malloc] *)

Lemma gc_malloc_init_cases (env : call_env) (st st0 : gc_state_t) :
  gc_malloc_init env st = Done st0 ->
  st0 = st \/
  exists base, env_mmap env = Some base /\ initialized st = false /\
    st0 = {| heap := base; heap_size := GC_HEAP_SIZE; heap_used := 0;
             objects := [];
             free_list := [ {| blk_addr := base; blk_size := GC_HEAP_SIZE |} ];
             stack_bottom := stack_bottom st; stack_top := stack_top st;
             initialized := true; registers := registers st;
             collection_count := 0; allocation_count := 0 |}.
Proof.
  unfold gc_malloc_init, gc_init. destruct (initialized st); simpl.
  - intros [= <-]. now left.
  - destruct (env_mmap env) as [base |]; [| discriminate].
    intros [= <-]. right. exists base. auto.
Qed.

Lemma gc_malloc_prepare_cases (env : call_env) (size : Z) (st st1 : gc_state_t) :
  gc_malloc_prepare env size st = Done st1 ->
  exists st0, gc_malloc_init env st = Done st0 /\
              (st1 = st0 \/ st1 = gc_collect (env_ctx1 env) st0).
Proof.
  unfold gc_malloc_prepare.
  destruct (gc_malloc_init env st) as [st0 | |]; try discriminate.
  destruct (exceeds_threshold _ _); intros [= <-]; exists st0; auto.
Qed.

(** A call that returns either returns the null pointer, in the state left
    by its collections, or has taken a span from the free list of the state
    [s] it tried last and registered an object there. *)
Lemma gc_malloc_cases (env : call_env) (size p : Z) (st st' : gc_state_t) :
  mmap_ok (env_mmap env) -> inv st ->
  gc_malloc env size st = Done (p, st') ->
  exists st1 s,
    gc_malloc_prepare env size st = Done st1 /\
    (s = st1 \/ s = gc_collect (env_ctx2 env) st1) /\ wf s /\
    ((p = NULL /\ st' = s) \/
     exists ptr fl,
       gc_alloc_from_freelist (wrap (sizeof_gc_object_t + align_size size)) (free_list s)
         = Some (ptr, fl) /\
       p = ptr + sizeof_gc_object_t /\ heap s <= ptr /\
       sizeof_gc_object_t + align_size size < SIZE_MAX_plus_1 /\
       st' = set_allocation_count (allocation_count s + 1)
               (set_heap_used (heap_used s + (sizeof_gc_object_t + align_size size))
                  (set_objects ({| obj_addr := ptr; obj_size := align_size size;
                                   obj_marked := false; obj_data := fun _ => 0 |}
                                :: objects s)
                     (set_free_list fl s)))).
Proof.
  intros Hmm Hinv H. unfold gc_malloc, gc_malloc_acquire in H.
  destruct (gc_malloc_prepare env size st) as [s1 | |] eqn:E1; try discriminate.
  pose proof (gc_malloc_prepare_wf _ _ _ _ Hmm Hinv E1) as W1.
  pose proof (align_size_range size) as Hsz.
  assert (Hs : 0 <= align_size size) by lia.
  exists s1.
  destruct (gc_alloc_from_freelist _ (free_list s1)) as [[ptr fl] |] eqn:E2.
  - exists s1. split; [reflexivity |]. split; [now left |]. split; [exact W1 |].
    right. exists ptr, fl.
    destruct (gc_malloc_commit_spec s1 st' (align_size size) ptr p fl W1 Hs E2 H)
      as (_ & Hp & Hh & Hn & Hst).
    auto.
  - pose proof (gc_collect_wf (env_ctx2 env) _ W1) as W2.
    exists (gc_collect (env_ctx2 env) s1).
    split; [reflexivity |]. split; [now right |]. split; [exact W2 |].
    destruct (gc_alloc_from_freelist _ (free_list (gc_collect (env_ctx2 env) s1)))
      as [[ptr fl] |] eqn:E3.
    + right. exists ptr, fl.
      destruct (gc_malloc_commit_spec _ st' (align_size size) ptr p fl W2 Hs E3 H)
        as (_ & Hp & Hh & Hn & Hst).
      auto.
    + left. injection H as <- <-. auto.
Qed.

Lemma gc_malloc_init_no_marks (env : call_env) (st st0 : gc_state_t) :
  no_marks st -> gc_malloc_init env st = Done st0 -> no_marks st0.
Proof.
  intros Hn H. destruct (gc_malloc_init_cases _ _ _ H) as [-> | (base & _ & _ & ->)]; auto.
  constructor.
Qed.

Lemma gc_malloc_prepare_no_marks (env : call_env) (size : Z) (st st1 : gc_state_t) :
  no_marks st -> gc_malloc_prepare env size st = Done st1 -> no_marks st1.
Proof.
  intros Hn H. destruct (gc_malloc_prepare_cases _ _ _ _ H) as (st0 & H0 & [-> | ->]).
  - eapply gc_malloc_init_no_marks; eauto.
  - apply gc_collect_no_marks. eapply gc_malloc_init_no_marks; eauto.
Qed.

Lemma gc_malloc_no_marks (env : call_env) (size p : Z) (st st' : gc_state_t) :
  mmap_ok (env_mmap env) -> inv st -> no_marks st ->
  gc_malloc env size st = Done (p, st') -> no_marks st'.
Proof.
  intros Hmm Hinv Hn H.
  destruct (gc_malloc_cases _ _ _ _ _ Hmm Hinv H) as (st1 & s & H1 & Hs & W & Hc).
  pose proof (gc_malloc_prepare_no_marks _ _ _ _ Hn H1) as Hn1.
  assert (Hns : no_marks s).
  { destruct Hs as [-> | ->]; auto using gc_collect_no_marks. }
  destruct Hc as [(_ & ->) | (ptr & fl & _ & _ & _ & _ & ->)]; auto.
  constructor; auto.
Qed.

Lemma store_word_no_marks (i k : nat) (w : Z) (st : gc_state_t) :
  no_marks st -> no_marks (store_word i k w st).
Proof.
  unfold no_marks, store_word. simpl. generalize (objects st). clear st.
  intros l H. revert i. induction H as [| o l Ho Hl IH]; intros i; [constructor |].
  destruct i as [| i]; simpl; constructor; auto.
  apply IH.
Qed.

Lemma step_no_marks (st st' : gc_state_t) :
  inv st -> no_marks st -> step st st' -> no_marks st'.
Proof.
  intros Hinv Hn Hs.
  destruct Hs as [sb mm st st' Hmm H | env size p st st' Hmm Hsz H
                 | env num size p st st' Hmm Hn' Hsz H
                 | env ptr new_size r st st' Hmm Hsz H
                 | ptr st | ctx st | i k w st Hw].
  - unfold gc_init_constructor, gc_init in H. simpl in H.
    destruct (initialized st); [injection H as <-; exact Hn |].
    destruct mm; [injection H as <-; constructor | discriminate].
  - eapply gc_malloc_no_marks; eauto.
  - eapply gc_malloc_no_marks; eauto.
  - unfold gc_realloc in H.
    destruct (ptr =? NULL).
    { apply with_retval_Done in H as (p & H). eapply gc_malloc_no_marks; eauto. }
    destruct (new_size =? 0); [injection H as <- <-; exact Hn |].
    destruct (find_payload ptr (objects st)) as [obj |].
    + destruct (_ <=? _); injection H as <- <-; exact Hn.
    + apply with_retval_Done in H as (p & H). eapply gc_malloc_no_marks; eauto.
  - exact Hn.
  - apply gc_collect_no_marks, Hn.
  - apply store_word_no_marks, Hn.
Qed.

Lemma reachable_no_marks (st : gc_state_t) : reachable st -> no_marks st.
Proof.
  induction 1 as [| st st' Hr IH Hs]; [constructor |].
  eapply step_no_marks; eauto using reachable_inv.
Qed.

(** ** Everything stays inside the mapping *)

Lemma sweep_objects_blocks (P : gc_free_block_t -> Prop) (objs : list gc_object_t) :
  forall (fl : list gc_free_block_t) (used : Z),
  Forall (fun o => P {| blk_addr := obj_addr o;
                        blk_size := wrap (sizeof_gc_object_t + obj_size o) |}) objs ->
  Forall P fl -> Forall P (sweep_objects objs fl used).1.2.
Proof.
  induction objs as [| o objs IH]; intros fl used Ho Hf; simpl; [exact Hf |].
  inversion Ho as [| ? ? Ho1 Ho2]; subst.
  destruct (obj_marked o); simpl.
  - specialize (IH fl used Ho2 Hf).
    destruct (sweep_objects objs fl used) as [[k f] u]. exact IH.
  - apply IH; auto. unfold gc_add_to_freelist.
    destruct (_ <? _); auto using insert_block_Forall.
Qed.

Lemma coalesce_from_in (lo hi : Z) : forall (rest : list gc_free_block_t)
    (current : gc_free_block_t),
  hi - lo < SIZE_MAX_plus_1 ->
  Forall (fun b => region_in lo hi (blk_region b)) (current :: rest) ->
  Forall (fun b => region_in lo hi (blk_region b)) (coalesce_from current rest).
Proof.
  induction rest as [| next rest IH]; intros cur Hd H; simpl; [exact H |].
  inversion H as [| ? ? Hc Hr]; subst. inversion Hr as [| ? ? Hn Hr']; subst.
  destruct (blk_addr cur + blk_size cur =? blk_addr next) eqn:E.
  - apply Z.eqb_eq in E. apply IH; auto. constructor; auto.
    unfold region_in, blk_region in *. simpl in *.
    rewrite wrap_small by lia. lia.
  - constructor; auto.
Qed.

Lemma gc_coalesce_freelist_in (lo hi : Z) (fl : list gc_free_block_t) :
  hi - lo < SIZE_MAX_plus_1 ->
  Forall (fun b => region_in lo hi (blk_region b)) fl ->
  Forall (fun b => region_in lo hi (blk_region b)) (gc_coalesce_freelist fl).
Proof.
  intros Hd H. destruct fl as [| b fl]; [constructor |].
  simpl. apply coalesce_from_in; auto.
Qed.

Lemma gc_alloc_from_freelist_in (lo hi total : Z) : forall (fl : list gc_free_block_t)
    (p : Z) (fl' : list gc_free_block_t),
  0 <= total -> hi - lo < SIZE_MAX_plus_1 ->
  Forall (fun b => region_in lo hi (blk_region b)) fl ->
  gc_alloc_from_freelist total fl = Some (p, fl') ->
  region_in lo hi (p, total) /\ Forall (fun b => region_in lo hi (blk_region b)) fl'.
Proof.
  induction fl as [| b fl IH]; intros p fl' Ht Hd H Ha; simpl in Ha; [discriminate |].
  inversion H as [| ? ? Hb Hf]; subst.
  destruct (total <=? blk_size b) eqn:E.
  - apply Z.leb_le in E. unfold region_in, blk_region in Hb. simpl in Hb.
    destruct (_ <=? blk_size b); injection Ha as <- <-.
    + split; [unfold region_in; simpl; lia |].
      constructor; auto. unfold region_in, blk_region. simpl.
      rewrite wrap_small by lia. lia.
    + split; [unfold region_in; simpl; lia | exact Hf].
  - destruct (gc_alloc_from_freelist total fl) as [[q r] |] eqn:E'; [| discriminate].
    injection Ha as <- <-.
    destruct (IH q r Ht Hd Hf eq_refl) as [H1 H2]. split; auto.
Qed.

Lemma gc_sweep_free_list (st : gc_state_t) :
  free_list (gc_sweep st)
  = gc_coalesce_freelist (sweep_objects (objects st) (free_list st) (heap_used st)).1.2.
Proof.
  unfold gc_sweep. destruct (sweep_objects _ _ _) as [[k f] u]. reflexivity.
Qed.

Lemma gc_collect_bounded (ctx : machine_ctx) (st : gc_state_t) :
  wf st -> arena_bounded st -> arena_bounded (gc_collect ctx st).
Proof.
  intros W [Ho Hf].
  destruct (gc_collect_spec ctx st W) as (_ & Eo & _ & _ & _ & Eh & Es & _).
  destruct (gc_mark_roots_frame ctx st) as (_ & _ & _ & Ef & _ & _ & _ & Er).
  pose proof (wf_heap_size _ W) as Hs.
  unfold arena_bounded, in_arena in *. rewrite Eh, Es, Eo. split.
  - apply survivors_Forall. rewrite Er. exact Ho.
  - unfold gc_collect. rewrite (wf_initialized _ W). simpl.
    rewrite gc_sweep_free_list, Ef.
    apply gc_coalesce_freelist_in; [rewrite Hs; consts; lia |].
    apply sweep_objects_blocks; [| exact Hf].
    pose proof (wf_regions _ (gc_mark_roots_wf ctx st W)) as Hr.
    rewrite Er in Hr. rewrite <- Er in Ho.
    rewrite Forall_map in Ho. rewrite <- Er, Forall_map in Hr.
    clear - Ho Hr. induction Ho as [| o l H1 H2 IH]; [constructor |].
    inversion Hr as [| ? ? H3 H4]; subst. constructor; auto.
    simpl in H1, H3. unfold region_in, blk_region, region_ok, obj_region, obj_span in *.
    simpl in *. rewrite wrap_small by lia. lia.
Qed.

Lemma gc_malloc_init_bounded (env : call_env) (st st0 : gc_state_t) :
  arena_bounded st -> gc_malloc_init env st = Done st0 -> arena_bounded st0.
Proof.
  intros Hb H. destruct (gc_malloc_init_cases _ _ _ H) as [-> | (base & _ & _ & ->)]; auto.
  split; simpl; repeat constructor; simpl; consts; lia.
Qed.

Lemma gc_malloc_bounded (env : call_env) (size p : Z) (st st' : gc_state_t) :
  mmap_ok (env_mmap env) -> inv st -> arena_bounded st ->
  gc_malloc env size st = Done (p, st') -> arena_bounded st'.
Proof.
  intros Hmm Hinv Hb H.
  destruct (gc_malloc_cases _ _ _ _ _ Hmm Hinv H) as (st1 & s & H1 & Hs & W & Hc).
  destruct (gc_malloc_prepare_cases _ _ _ _ H1) as (st0 & H0 & Hst1).
  pose proof (gc_malloc_init_wf _ _ _ Hmm Hinv H0) as W0.
  pose proof (gc_malloc_init_bounded _ _ _ Hb H0) as Hb0.
  assert (Hb1 : arena_bounded st1).
  { destruct Hst1 as [-> | ->]; auto using gc_collect_bounded. }
  assert (W1 : wf st1).
  { destruct Hst1 as [-> | ->]; auto using gc_collect_wf. }
  assert (Hbs : arena_bounded s).
  { destruct Hs as [-> | ->]; auto using gc_collect_bounded. }
  destruct Hc as [(_ & ->) | (ptr & fl & Ha & _ & _ & Hn & ->)]; auto.
  destruct Hbs as [Ho Hf]. pose proof (align_size_range size) as Hsz.
  pose proof (wf_heap_size _ W) as Hhs.
  rewrite wrap_small in Ha by (consts; lia).
  assert (Ht : 0 <= sizeof_gc_object_t + align_size size) by (consts; lia).
  assert (Hd : heap s + heap_size s - heap s < SIZE_MAX_plus_1)
    by (rewrite Hhs; consts; lia).
  destruct (gc_alloc_from_freelist_in (heap s) (heap s + heap_size s) _ _ _ _
              Ht Hd Hf Ha) as [Hp Hf'].
  split; simpl; [constructor; [exact Hp | exact Ho] | exact Hf'].
Qed.

Lemma store_word_bounded (i k : nat) (w : Z) (st : gc_state_t) :
  arena_bounded st -> arena_bounded (store_word i k w st).
Proof.
  intros [Ho Hf]. split; simpl; [| exact Hf].
  rewrite store_word_regions. exact Ho.
Qed.

Lemma step_bounded (st st' : gc_state_t) :
  inv st -> arena_bounded st -> step st st' -> arena_bounded st'.
Proof.
  intros Hinv Hb Hs.
  destruct Hs as [sb mm st st' Hmm H | env size p st st' Hmm Hsz H
                 | env num size p st st' Hmm Hn' Hsz H
                 | env ptr new_size r st st' Hmm Hsz H
                 | ptr st | ctx st | i k w st Hw].
  - unfold gc_init_constructor, gc_init in H. simpl in H.
    destruct (initialized st); [injection H as <-; exact Hb |].
    destruct mm; [injection H as <- | discriminate].
    split; simpl; repeat constructor; simpl; consts; lia.
  - eapply gc_malloc_bounded; eauto.
  - eapply gc_malloc_bounded; eauto.
  - unfold gc_realloc in H.
    destruct (ptr =? NULL).
    { apply with_retval_Done in H as (p & H). eapply gc_malloc_bounded; eauto. }
    destruct (new_size =? 0); [injection H as <- <-; exact Hb |].
    destruct (find_payload ptr (objects st)) as [obj |].
    + destruct (_ <=? _); injection H as <- <-; exact Hb.
    + apply with_retval_Done in H as (p & H). eapply gc_malloc_bounded; eauto.
  - exact Hb.
  - destruct Hinv as [Hp | W].
    + unfold gc_force_collect. rewrite gc_collect_pre_init; [exact Hb | apply Hp].
    + apply gc_collect_bounded; auto.
  - apply store_word_bounded, Hb.
Qed.

Lemma reachable_bounded (st : gc_state_t) : reachable st -> arena_bounded st.
Proof.
  induction 1 as [| st st' Hr IH Hs]; [split; constructor |].
  eapply step_bounded; eauto using reachable_inv.
Qed.

(** ** Marking marks nothing else *)

Lemma reaches_trans (st : gc_state_t) (i j k : nat) :
  reaches st i j -> reaches st j k -> reaches st i k.
Proof. intros H1 H2. induction H2; eauto using reaches_step. Qed.

Lemma reaches_mark_ge (st st' : gc_state_t) (i j : nat) :
  mark_le st st' -> reaches st' i j -> reaches st i j.
Proof.
  intros L. induction 1 as [| i j k _ IH Hp]; [apply reaches_refl |].
  eapply reaches_step; [exact IH |]. apply (points_to_mark_le _ _ _ _ L). exact Hp.
Qed.

Lemma reaches_set_roots (sp : Z) (regs : list Z) (st : gc_state_t) (i j : nat) :
  reaches (set_roots sp regs st) i j <-> reaches st i j.
Proof.
  split; induction 1 as [| i j k _ IH Hp]; try apply reaches_refl;
    (eapply reaches_step; [exact IH | exact Hp]).
Qed.

(** The scanning loop over a function [mark] that only sets flags, and only
    those of objects reachable from the address it is given. *)
Section ScanLoopSound.
Variable mark : Z -> gc_state_t -> option gc_state_t.
Hypothesis mark_sets : forall p s s', mark p s = Some s' -> mark_le s s'.
Hypothesis mark_sound : forall p s s' j,
  mark p s = Some s' -> is_marked s' j ->
  is_marked s j \/ exists i, gc_find_object_containing s p = Some i /\ reaches s i j.

Lemma mark_words_sound :
  forall ws s s', mark_words mark ws s = Some s' ->
    mark_le s s' /\
    forall j, is_marked s' j ->
      is_marked s j \/
      exists w i, In w ws /\ gc_is_valid_pointer s w = true /\
                  gc_find_object_containing s w = Some i /\ reaches s i j.
Proof using mark_sets mark_sound.
  induction ws as [| w ws IH]; intros s s' H; simpl in H.
  - injection H as <-. split; [apply mark_le_refl | auto].
  - destruct (gc_is_valid_pointer s w) eqn:Hv.
    + destruct (mark w s) as [s1 |] eqn:E; [| discriminate].
      pose proof (mark_sets _ _ _ E) as L1.
      destruct (IH _ _ H) as [L2 T2].
      split; [eauto using mark_le_trans |].
      intros j Hj. destruct (T2 j Hj) as [Hm | (w' & i & Hin & Hv' & Hf' & Hr')].
      * destruct (mark_sound _ _ _ _ E Hm) as [Hm0 | (i & Hf & Hr)]; [now left |].
        right. exists w, i. simpl. auto.
      * right. exists w', i. simpl.
        rewrite (mark_le_is_valid_pointer _ _ _ L1) in Hv'.
        rewrite (mark_le_find _ _ _ L1) in Hf'.
        split; [right; exact Hin |]. split; [exact Hv' |].
        split; [exact Hf' | eauto using reaches_mark_ge].
    + destruct (IH _ _ H) as [L2 T2]. split; [exact L2 |].
      intros j Hj. destruct (T2 j Hj) as [Hm | (w' & i & Hin & Hv' & Hf' & Hr')];
        [now left |].
      right. exists w', i. simpl. auto.
Qed.
End ScanLoopSound.

Lemma gc_mark_object_sound (fuel : nat) : forall p st st' j,
  gc_mark_object fuel p st = Some st' -> is_marked st' j ->
  is_marked st j \/ exists i, gc_find_object_containing st p = Some i /\ reaches st i j.
Proof.
  induction fuel as [| fuel IH]; intros p st st' j H Hj; [discriminate |].
  rewrite gc_mark_object_S in H.
  destruct (negb (gc_is_pointer st p)); [injection H as <-; now left |].
  destruct (gc_find_object_containing st p) as [i |] eqn:Hf; [| injection H as <-; now left].
  destruct (objects st !! i) as [obj |] eqn:Hi; [| injection H as <-; now left].
  destruct (obj_marked obj) eqn:Hm; [injection H as <-; now left |].
  pose proof (set_mark_step_le st i) as L1.
  destruct (mark_words_sound (gc_mark_object fuel)
              (fun p s s' E => proj1 (gc_mark_object_post fuel p s s' E)) IH _ _ _ H)
    as [L2 T2].
  destruct (T2 j Hj) as [Hm1 | (w & k & Hin & Hv & Hfw & Hr)].
  - destruct (Nat.eq_dec i j) as [<- | Hne].
    + right. exists i. split; [reflexivity | apply reaches_refl].
    + left. eapply is_marked_alter_ne; eauto.
  - right. exists i. split; [reflexivity |].
    rewrite (mark_le_is_valid_pointer _ _ _ L1) in Hv.
    rewrite (mark_le_find _ _ _ L1) in Hfw.
    apply (reaches_trans _ i k j); [| eauto using reaches_mark_ge].
    eapply reaches_step; [apply reaches_refl |].
    exists obj, w. auto.
Qed.

Lemma mark_roots_words_sound (ws : list Z) : forall st j,
  is_marked (mark_roots_words ws st) j ->
  is_marked st j \/
  exists w i, In w ws /\ gc_is_valid_pointer st w = true /\
              gc_find_object_containing st w = Some i /\ reaches st i j.
Proof.
  induction ws as [| w ws IH]; intros st j Hj; simpl in Hj; [now left |].
  destruct (gc_is_valid_pointer st w) eqn:Hv.
  - pose proof (gc_mark_object_run_le w st) as L1.
    destruct (IH _ _ Hj) as [Hm | (w' & i & Hin & Hv' & Hf' & Hr')].
    + destruct (gc_mark_object_sound _ _ _ _ _ (gc_mark_object_run_eq w st) Hm)
        as [Hm0 | (i & Hf & Hr)]; [now left |].
      right. exists w, i. simpl. auto.
    + right. exists w', i. simpl.
      rewrite (mark_le_is_valid_pointer _ _ _ L1) in Hv'.
      rewrite (mark_le_find _ _ _ L1) in Hf'.
      split; [right; exact Hin |]. split; [exact Hv' |].
      split; [exact Hf' | eauto using reaches_mark_ge].
  - destruct (IH _ _ Hj) as [Hm | (w' & i & Hin & Hv' & Hf' & Hr')]; [now left |].
    right. exists w', i. simpl. auto.
Qed.

Lemma gc_mark_roots_sound (ctx : machine_ctx) (st : gc_state_t) (j : nat) :
  is_marked (gc_mark_roots ctx st) j -> is_marked st j \/ rooted ctx st j.
Proof.
  rewrite gc_mark_roots_words. intros Hj.
  destruct (mark_roots_words_sound _ _ _ Hj) as [Hm | (w & i & Hin & Hv & Hf & Hr)].
  - left. exact Hm.
  - right. exists w, i. rewrite reaches_set_roots in Hr. auto.
Qed.

Lemma gc_mark_roots_complete (ctx : machine_ctx) (st : gc_state_t) (j : nat) :
  marks_closed st -> rooted ctx st j -> is_marked (gc_mark_roots ctx st) j.
Proof.
  intros Hc (w & i & Hin & Hv & Hf & Hr).
  eapply gc_mark_roots_marks_reachable; eauto.
Qed.

(** ** What a collection keeps *)

Lemma unmark_eq (o o' : gc_object_t) :
  same_shape o o' -> obj_marked o = false -> set_mark false o' = o.
Proof.
  destruct o, o'. unfold same_shape, set_mark. simpl.
  intros (-> & -> & ->) ->. reflexivity.
Qed.

Lemma survivors_sublist (l l' : list gc_object_t) :
  Forall2 mark_le_obj l l' -> Forall (fun o => obj_marked o = false) l ->
  sublist (survivors l') l.
Proof.
  induction 1 as [| o o' l l' [Hs _] _ IH]; intros Hn; simpl; [constructor |].
  inversion Hn as [| ? ? Ho Hl]; subst.
  destruct (obj_marked o').
  - rewrite (unmark_eq _ _ Hs Ho). apply sublist_skip. auto.
  - apply sublist_cons. auto.
Qed.

Lemma survivors_lookup (l l' : list gc_object_t) (o : gc_object_t) :
  Forall2 mark_le_obj l l' -> Forall (fun o => obj_marked o = false) l ->
  In o (survivors l') <->
  exists j o', l !! j = Some o /\ l' !! j = Some o' /\ obj_marked o' = true.
Proof.
  induction 1 as [| a a' l l' [Hs _] _ IH]; intros Hn; simpl.
  - split; [intros [] | intros (j & o' & H & _); discriminate].
  - inversion Hn as [| ? ? Ha Hl]; subst. specialize (IH Hl).
    destruct (obj_marked a') eqn:Hm.
    + simpl. rewrite (unmark_eq _ _ Hs Ha). split.
      * intros [<- | Hin].
        -- exists O, a'. auto.
        -- apply IH in Hin as (j & o' & H1 & H2 & H3). exists (S j), o'. auto.
      * intros ([| j] & o' & H1 & H2 & H3); simpl in *.
        -- left. congruence.
        -- right. apply IH. eauto.
    + split.
      * intros Hin. apply IH in Hin as (j & o' & H1 & H2 & H3). exists (S j), o'. auto.
      * intros ([| j] & o' & H1 & H2 & H3); simpl in *; [congruence |].
        apply IH. eauto.
Qed.

Lemma gc_mark_roots_objects_le (ctx : machine_ctx) (st : gc_state_t) :
  Forall2 mark_le_obj (objects st) (objects (gc_mark_roots ctx st)).
Proof. apply (gc_mark_roots_le ctx st). Qed.

Lemma gc_collect_sublist (ctx : machine_ctx) (st : gc_state_t) :
  no_marks st -> sublist (objects (gc_collect ctx st)) (objects st).
Proof.
  intros Hn. destruct (initialized st) eqn:E.
  - rewrite gc_collect_objects by exact E.
    apply survivors_sublist; [apply gc_mark_roots_objects_le | exact Hn].
  - rewrite gc_collect_pre_init by exact E. reflexivity.
Qed.

Lemma gc_collect_lookup (ctx : machine_ctx) (st : gc_state_t) (o : gc_object_t) :
  initialized st = true -> no_marks st ->
  In o (objects (gc_collect ctx st)) <->
  exists j, objects st !! j = Some o /\ rooted ctx st j.
Proof.
  intros Hi Hn. rewrite gc_collect_objects by exact Hi.
  rewrite (survivors_lookup _ _ o (gc_mark_roots_objects_le ctx st) Hn). split.
  - intros (j & o' & H1 & H2 & H3). exists j. split; [exact H1 |].
    destruct (gc_mark_roots_sound ctx st j) as [(a & Ha & Hm) | Hr]; [exists o'; auto | | exact Hr].
    exfalso. unfold no_marks in Hn. rewrite Forall_lookup in Hn.
    specialize (Hn _ _ Ha). simpl in Hn. congruence.
  - intros (j & H1 & Hr).
    destruct (gc_mark_roots_complete ctx st j (no_marks_closed _ Hn) Hr) as (o' & H2 & H3).
    exists j, o'. auto.
Qed.

Lemma wf_lookup_inj (st : gc_state_t) (i j : nat) (o : gc_object_t) :
  wf st -> objects st !! i = Some o -> objects st !! j = Some o -> i = j.
Proof.
  intros W Hi Hj. destruct (Nat.eq_dec i j) as [E | E]; [exact E | exfalso].
  assert (Hr : forall k, objects st !! k = Some o ->
                         map obj_region (objects st) !! k = Some (obj_region o)).
  { intros k Hk. change (map obj_region (objects st)) with (obj_region <$> objects st).
    rewrite list_lookup_fmap, Hk. reflexivity. }
  pose proof (pairwise_apart_lookup _ _ _ _ _ (wf_apart _ W) E (Hr _ Hi) (Hr _ Hj)) as Ha.
  pose proof (Forall_lookup_1 _ _ _ _ (wf_regions _ W) (Hr _ Hi)) as Hok.
  consts. lia.
Qed.

Lemma sublist_registry_bytes (lo : Z) (l l' : list gc_object_t) (o : gc_object_t) :
  sublist l' l -> Forall (region_ok lo) (map obj_region l) ->
  In o l -> ~ In o l' ->
  registry_bytes l' + obj_span o <= registry_bytes l.
Proof.
  intros Hs. induction Hs as [| a l1 l2 Hs IH | a l1 l2 Hs IH]; intros Hok Hin Hnin.
  - destruct Hin.
  - inversion Hok as [| ? ? Ha Hl]; subst. unfold registry_bytes in *. simpl in *.
    destruct Hin as [-> | Hin]; [exfalso; auto |].
    assert (registry_bytes l1 + obj_span o <= registry_bytes l2) by auto.
    unfold registry_bytes in *. lia.
  - inversion Hok as [| ? ? Ha Hl]; subst. unfold registry_bytes in *. simpl in *.
    destruct Hin as [-> | Hin].
    + assert (Hs' : sum_len (map obj_region l1) <= sum_len (map obj_region l2)).
      { clear - Hs Hl. induction Hs as [| b k1 k2 Hs IH | b k1 k2 Hs IH]; simpl.
        - lia.
        - inversion Hl; subst. specialize (IH ltac:(assumption)). lia.
        - inversion Hl as [| ? ? Hb Hk]; subst. specialize (IH Hk).
          consts. lia. }
      unfold obj_span in *. lia.
    + assert (registry_bytes l1 + obj_span o <= registry_bytes l2) by auto.
      unfold registry_bytes in *. consts. lia.
Qed.

Lemma reaches_found (st : gc_state_t) (w : Z) (i j : nat) :
  gc_find_object_containing st w = Some i -> reaches st i j ->
  exists w', gc_find_object_containing st w' = Some j.
Proof.
  intros Hf Hr. destruct Hr as [| i j k _ (o & w' & _ & _ & _ & Hf')]; eauto.
Qed.

Lemma found_positive (st : gc_state_t) (w : Z) (j : nat) (o : gc_object_t) :
  gc_find_object_containing st w = Some j -> objects st !! j = Some o ->
  0 < obj_size o.
Proof.
  unfold gc_find_object_containing. destruct (negb _); [discriminate |].
  intros Hf Hj. destruct (find_containing_contains _ _ _ Hf) as (o' & Ho' & Hc & _).
  assert (o' = o) by congruence. subst o'.
  unfold obj_contains in Hc. apply andb_true_iff in Hc as [H1 H2].
  apply Z.leb_le in H1. apply Z.ltb_lt in H2. lia.
Qed.

(** ** Free lists in general *)

Lemma insert_block_perm (nb : gc_free_block_t) (fl : list gc_free_block_t) :
  Permutation (insert_block nb fl) (nb :: fl).
Proof.
  induction fl as [| b fl IH]; simpl; [reflexivity |].
  destruct (blk_addr b <? blk_addr nb); [| reflexivity].
  rewrite IH. apply perm_swap.
Qed.

Lemma insert_block_ascending (nb : gc_free_block_t) (fl : list gc_free_block_t) :
  ascending fl -> ascending (insert_block nb fl).
Proof.
  induction fl as [| b fl IH]; intros H; simpl.
  - split; constructor.
  - destruct H as [Hb Hf]. destruct (blk_addr b <? blk_addr nb) eqn:E.
    + apply Z.ltb_lt in E. split; [| auto].
      apply insert_block_Forall; [lia | exact Hb].
    + apply Z.ltb_ge in E. split; [| split; auto].
      constructor; [exact E |].
      eapply Forall_impl; [exact Hb |]. simpl. intros b' Hb'. lia.
Qed.

Lemma coalesce_from_head (rest : list gc_free_block_t) : forall current : gc_free_block_t,
  exists b tl, coalesce_from current rest = b :: tl /\ blk_addr b = blk_addr current.
Proof.
  induction rest as [| next rest IH]; intros cur; simpl; [eauto |].
  destruct (_ =? _); [| eauto].
  destruct (IH {| blk_addr := blk_addr cur;
                  blk_size := wrap (blk_size cur + blk_size next) |})
    as (b & tl & -> & Hb).
  eauto.
Qed.

Lemma coalesce_from_neighbours (rest : list gc_free_block_t) :
  forall current : gc_free_block_t,
  no_adjacent_neighbours (coalesce_from current rest).
Proof.
  induction rest as [| next rest IH]; intros cur; simpl; [auto |].
  destruct (blk_addr cur + blk_size cur =? blk_addr next) eqn:E; [apply IH |].
  apply Z.eqb_neq in E.
  specialize (IH next). destruct (coalesce_from_head rest next) as (b & tl & Hc & Hb).
  rewrite Hc in *. simpl. split; [congruence | exact IH].
Qed.

Lemma coalesce_from_fixed (rest : list gc_free_block_t) : forall current : gc_free_block_t,
  no_adjacent_neighbours (current :: rest) -> coalesce_from current rest = current :: rest.
Proof.
  induction rest as [| next rest IH]; intros cur [H1 H2]; simpl; [reflexivity |].
  apply Z.eqb_neq in H1. rewrite H1. f_equal. apply IH, H2.
Qed.

Lemma coalesce_from_length (rest : list gc_free_block_t) : forall current : gc_free_block_t,
  (length (coalesce_from current rest) <= S (length rest))%nat.
Proof.
  induction rest as [| next rest IH]; intros cur; simpl; [lia |].
  destruct (_ =? _); simpl.
  - etransitivity; [apply IH | lia].
  - specialize (IH next). lia.
Qed.

(** ** Successful allocations *)

Lemma gc_malloc_prepare_sublist (env : call_env) (size : Z) (st st1 : gc_state_t) :
  no_marks st -> gc_malloc_prepare env size st = Done st1 ->
  sublist (objects st1) (objects st).
Proof.
  intros Hn H. destruct (gc_malloc_prepare_cases _ _ _ _ H) as (st0 & H0 & Hst1).
  pose proof (gc_malloc_init_no_marks _ _ _ Hn H0) as Hn0.
  assert (H01 : sublist (objects st0) (objects st)).
  { destruct (gc_malloc_init_cases _ _ _ H0) as [-> | (base & _ & _ & ->)];
      [reflexivity | apply sublist_nil_l]. }
  destruct Hst1 as [-> | ->]; [exact H01 |].
  etransitivity; [apply gc_collect_sublist, Hn0 | exact H01].
Qed.

(** The object a successful call registers: it is the head of the registry,
    which is otherwise the registry [gc_malloc] found or what its
    collections left of it. *)
Lemma gc_malloc_head (env : call_env) (size p : Z) (st st' : gc_state_t) :
  mmap_ok (env_mmap env) -> inv st -> no_marks st ->
  gc_malloc env size st = Done (p, st') -> p <> NULL ->
  exists ptr rest,
    objects st' = {| obj_addr := ptr; obj_size := align_size size;
                     obj_marked := false; obj_data := fun _ => 0 |} :: rest /\
    p = ptr + sizeof_gc_object_t /\
    sizeof_gc_object_t + align_size size < SIZE_MAX_plus_1 /\
    sublist rest (objects st).
Proof.
  intros Hmm Hinv Hn H Hp.
  destruct (gc_malloc_cases _ _ _ _ _ Hmm Hinv H) as (st1 & s & H1 & Hs & W & Hc).
  destruct Hc as [(Hnull & _) | (ptr & fl & Ha & Hpp & Hh & Hlt & Hst)]; [contradiction |].
  exists ptr, (objects s). rewrite Hst. simpl.
  split; [reflexivity |]. split; [exact Hpp |]. split; [exact Hlt |].
  pose proof (gc_malloc_prepare_sublist _ _ _ _ Hn H1) as S1.
  destruct Hs as [-> | ->]; [exact S1 |].
  etransitivity; [| exact S1].
  apply gc_collect_sublist. eapply gc_malloc_prepare_no_marks; eauto.
Qed.

Lemma align_size_covers (size : Z) :
  0 <= size -> size + 7 < SIZE_MAX_plus_1 ->
  size <= align_size size < size + GC_ALIGNMENT /\ align_size size mod GC_ALIGNMENT = 0.
Proof.
  intros H1 H2. rewrite align_size_small by assumption. consts. div_lia.
Qed.


(** ** Bytes in the arena *)

Lemma gc_collect_bytes (ctx : machine_ctx) (st : gc_state_t) :
  wf st ->
  heap_used (gc_collect ctx st) + free_bytes (free_list (gc_collect ctx st))
  = heap_used st + free_bytes (free_list st).
Proof.
  intros W. destruct (gc_collect_spec ctx st W) as (_ & _ & _ & E & _). lia.
Qed.

Lemma gc_malloc_bytes (env : call_env) (size p : Z) (st st' : gc_state_t) :
  mmap_ok (env_mmap env) -> wf st ->
  gc_malloc env size st = Done (p, st') ->
  heap_used st' + free_bytes (free_list st') <= heap_used st + free_bytes (free_list st).
Proof.
  intros Hmm W H.
  destruct (gc_malloc_cases _ _ _ _ _ Hmm (or_intror W) H) as (st1 & s & H1 & Hs & Ws & Hc).
  destruct (gc_malloc_prepare_cases _ _ _ _ H1) as (st0 & H0 & Hst1).
  assert (st0 = st) as ->.
  { unfold gc_malloc_init in H0. rewrite (wf_initialized _ W) in H0. simpl in H0. congruence. }
  assert (B1 : heap_used st1 + free_bytes (free_list st1)
               = heap_used st + free_bytes (free_list st)).
  { destruct Hst1 as [-> | ->]; [reflexivity | apply gc_collect_bytes, W]. }
  assert (W1 : wf st1).
  { destruct Hst1 as [-> | ->]; auto using gc_collect_wf. }
  assert (Bs : heap_used s + free_bytes (free_list s)
               = heap_used st + free_bytes (free_list st)).
  { destruct Hs as [-> | ->]; [exact B1 | rewrite gc_collect_bytes; auto]. }
  destruct Hc as [(_ & ->) | (ptr & fl & Ha & _ & _ & Hlt & ->)]; [lia |].
  simpl. pose proof (align_size_range size) as Hsz.
  rewrite wrap_small in Ha by (consts; lia).
  assert (Ht : 0 <= sizeof_gc_object_t + align_size size) by (consts; lia).
  assert (Hfl : free_bytes (free_list s) <= GC_HEAP_SIZE).
  { pose proof (wf_total _ Ws) as Ht'. pose proof (sum_len_nonneg _ _ (wf_regions _ Ws)).
    unfold registry_bytes in Ht'. rewrite (wf_heap_size _ Ws) in Ht'. lia. }
  destruct (gc_alloc_from_freelist_spec _ _ (heap s) _ _ Ht (wf_chain _ Ws) Hfl Ha)
    as (_ & _ & Hb & _).
  lia.
Qed.

(** ** Counting loops *)

Lemma count_fold {A : Type} (l : list A) : forall a : Z,
  fold_left (fun n _ => n + 1) l a = a + Z.of_nat (length l).
Proof.
  induction l as [| x l IH]; intros a; simpl fold_left; [simpl; lia |].
  rewrite IH. simpl length. lia.
Qed.

Lemma free_fold (fl : list gc_free_block_t) : forall n bytes : Z,
  0 <= bytes -> Forall (fun b => 0 <= blk_size b) fl ->
  bytes + free_bytes fl < SIZE_MAX_plus_1 ->
  fold_left (fun '(n, bytes) curr => (n + 1, wrap (bytes + blk_size curr))) fl (n, bytes)
  = (n + Z.of_nat (length fl), bytes + free_bytes fl).
Proof.
  induction fl as [| b fl IH]; intros n bytes Hb Hf Hlt; simpl fold_left.
  - unfold free_bytes. simpl. f_equal; lia.
  - inversion Hf as [| ? ? Hb0 Hf']; subst.
    assert (Hfb : 0 <= free_bytes fl).
    { clear - Hf'. induction Hf' as [| x l Hx _ IHl]; unfold free_bytes in *; simpl; lia. }
    unfold free_bytes in *. simpl in Hlt.
    rewrite wrap_small by lia. rewrite IH by (auto; lia).
    simpl length. simpl. f_equal; lia.
Qed.

Lemma registry_bytes_length (lo : Z) (l : list gc_object_t) :
  Forall (region_ok lo) (map obj_region l) ->
  sizeof_gc_object_t * Z.of_nat (length l) <= registry_bytes l.
Proof.
  induction l as [| o l IH]; intros H; unfold registry_bytes in *; simpl map in *.
  - simpl. lia.
  - inversion H as [| ? ? Ho Hl]; subst. specialize (IH Hl).
    simpl length. simpl sum_len. consts. lia.
Qed.

Lemma free_bytes_length (gap lo : Z) (fl : list gc_free_block_t) :
  free_chain gap lo fl ->
  sizeof_gc_object_t * Z.of_nat (length fl) <= free_bytes fl /\
  Forall (fun b => 0 <= blk_size b) fl.
Proof.
  revert lo. induction fl as [| b fl IH]; intros lo H; unfold free_bytes in *; simpl map in *.
  - simpl. split; [lia | constructor].
  - destruct H as (_ & Hb & Hc). destruct (IH _ Hc) as [IH1 IH2].
    simpl length. simpl sum_len. split; [consts; lia |].
    constructor; [consts; lia | exact IH2].
Qed.

(** ** The lookup in a registry of disjoint objects inside the arena *)

Lemma lookup_obj_region (l : list gc_object_t) (i : nat) (o : gc_object_t) :
  l !! i = Some o -> map obj_region l !! i = Some (obj_region o).
Proof.
  intros H. change (map obj_region l) with (obj_region <$> l).
  rewrite list_lookup_fmap, H. reflexivity.
Qed.

Lemma wf_find_containing (st : gc_state_t) (p : Z) (i : nat) (o : gc_object_t) :
  wf st -> arena_bounded st ->
  objects st !! i = Some o -> obj_contains o p = true ->
  gc_find_object_containing st p = Some i.
Proof.
  intros W [Hb _] Ho Hc.
  pose proof (lookup_obj_region _ _ _ Ho) as Hr_o.
  pose proof (Forall_lookup_1 _ _ _ _ Hb Hr_o) as Hin.
  pose proof Hc as Hc0.
  unfold obj_contains in Hc0. apply andb_true_iff in Hc0 as [Hp1 Hp2].
  apply Z.leb_le in Hp1. apply Z.ltb_lt in Hp2.
  unfold gc_find_object_containing, gc_is_pointer.
  replace (heap st <=? p) with true
    by (symmetry; apply Z.leb_le; unfold in_arena, region_in, obj_data_addr in *;
        consts; lia).
  replace (p <? heap st + heap_size st) with true
    by (symmetry; apply Z.ltb_lt; unfold in_arena, region_in, obj_data_addr in *;
        consts; lia).
  simpl.
  destruct (find_containing_first _ _ _ _ Ho Hc) as (k & Hk & Hle).
  destruct (Nat.eq_dec k i) as [-> | Hne]; [exact Hk | exfalso].
  destruct (find_containing_contains _ _ _ Hk) as (o' & Ho' & Hc' & _).
  pose proof (lookup_obj_region _ _ _ Ho') as Hr_o'.
  pose proof (pairwise_apart_lookup _ _ _ _ _ (wf_apart _ W) Hne Hr_o' Hr_o) as Ha.
  pose proof (Forall_lookup_1 _ _ _ _ (wf_regions _ W) Hr_o') as Hok'.
  unfold obj_contains in Hc'. apply andb_true_iff in Hc' as [H1 H2].
  apply Z.leb_le in H1. apply Z.ltb_lt in H2.
  unfold obj_data_addr in *. consts. lia.
Qed.


Lemma free_chain_sizes (gap lo : Z) (fl : list gc_free_block_t) :
  free_chain gap lo fl -> Forall (fun b => sizeof_gc_object_t <= blk_size b) fl.
Proof.
  revert lo. induction fl as [| b fl IH]; intros lo H; [constructor |].
  destruct H as (_ & Hb & Hc). constructor; eauto.
Qed.


(** ** Alignment *)

Lemma wrap_mod_8 (x : Z) : wrap x mod GC_ALIGNMENT = x mod GC_ALIGNMENT.
Proof. unfold wrap. consts. div_lia. Qed.

Lemma align_size_mod_8 (size : Z) : align_size size mod GC_ALIGNMENT = 0.
Proof. rewrite align_size_eq. consts. div_lia. Qed.

Lemma coalesce_from_aligned (base : Z) : forall (rest : list gc_free_block_t)
    (current : gc_free_block_t),
  Forall (fun b => region_aligned base (blk_region b)) (current :: rest) ->
  Forall (fun b => region_aligned base (blk_region b)) (coalesce_from current rest).
Proof.
  induction rest as [| next rest IH]; intros cur H; simpl; [exact H |].
  inversion H as [| ? ? Hc Hr]; subst. inversion Hr as [| ? ? Hn Hr']; subst.
  destruct (blk_addr cur + blk_size cur =? blk_addr next).
  - apply IH. constructor; auto.
    unfold region_aligned, blk_region in *. simpl in *.
    rewrite wrap_mod_8. split; [tauto |]. consts. div_lia.
  - constructor; auto.
Qed.

Lemma gc_alloc_from_freelist_aligned (base total : Z) : forall (fl : list gc_free_block_t)
    (p : Z) (fl' : list gc_free_block_t),
  total mod GC_ALIGNMENT = 0 ->
  Forall (fun b => region_aligned base (blk_region b)) fl ->
  gc_alloc_from_freelist total fl = Some (p, fl') ->
  (p - base) mod GC_ALIGNMENT = 0 /\
  Forall (fun b => region_aligned base (blk_region b)) fl'.
Proof.
  induction fl as [| b fl IH]; intros p fl' Ht H Ha; simpl in Ha; [discriminate |].
  inversion H as [| ? ? Hb Hf]; subst.
  unfold region_aligned, blk_region in Hb. simpl in Hb.
  destruct (total <=? blk_size b).
  - destruct (_ <=? blk_size b); injection Ha as <- <-.
    + split; [tauto |]. constructor; auto.
      unfold region_aligned, blk_region. simpl. rewrite wrap_mod_8.
      consts. div_lia.
    + split; [tauto | exact Hf].
  - destruct (gc_alloc_from_freelist total fl) as [[q r] |] eqn:E'; [| discriminate].
    injection Ha as <- <-.
    destruct (IH q r Ht Hf eq_refl) as [H1 H2]. split; auto.
Qed.

Lemma gc_collect_heap (ctx : machine_ctx) (st : gc_state_t) :
  heap (gc_collect ctx st) = heap st /\ heap_size (gc_collect ctx st) = heap_size st /\
  stack_bottom (gc_collect ctx st) = stack_bottom st.
Proof.
  unfold gc_collect. destruct (initialized st); simpl; [| auto].
  destruct (gc_sweep_frame (gc_mark_roots ctx st)) as (-> & -> & _ & _ & _ & ->).
  destruct (gc_mark_roots_frame ctx st) as (-> & -> & _).
  destruct (gc_mark_roots_le ctx st) as [-> _]. auto.
Qed.

Lemma gc_collect_aligned (ctx : machine_ctx) (st : gc_state_t) :
  arena_aligned st -> arena_aligned (gc_collect ctx st).
Proof.
  intros [Ho Hf]. destruct (initialized st) eqn:Hi;
    [| rewrite gc_collect_pre_init by exact Hi; split; assumption].
  destruct (gc_collect_heap ctx st) as (Eh & _).
  destruct (gc_mark_roots_frame ctx st) as (_ & _ & _ & Ef & _ & _ & _ & Er).
  unfold arena_aligned. rewrite Eh, gc_collect_objects by exact Hi. split.
  - apply survivors_Forall. rewrite Er. exact Ho.
  - unfold gc_collect. rewrite Hi. simpl. rewrite gc_sweep_free_list, Ef.
    assert (Hs : Forall (fun b => region_aligned (heap st) (blk_region b))
                   (sweep_objects (objects (gc_mark_roots ctx st)) (free_list st)
                      (heap_used (gc_mark_roots ctx st))).1.2).
    { apply sweep_objects_blocks; [| exact Hf].
      rewrite <- Er, Forall_map in Ho. eapply Forall_impl; [exact Ho |].
      simpl. intros o [H1 H2]. unfold region_aligned, blk_region, obj_region, obj_span in *.
      simpl in *. rewrite wrap_mod_8. tauto. }
    destruct (sweep_objects _ _ _).1.2 as [| b fl]; [constructor |].
    simpl. apply coalesce_from_aligned, Hs.
Qed.

Lemma gc_malloc_init_aligned (env : call_env) (st st0 : gc_state_t) :
  arena_aligned st -> gc_malloc_init env st = Done st0 -> arena_aligned st0.
Proof.
  intros Hb H. destruct (gc_malloc_init_cases _ _ _ H) as [-> | (base & _ & _ & ->)]; auto.
  split; simpl; repeat constructor; simpl; consts; rewrite ?Z.sub_diag; reflexivity.
Qed.

Lemma gc_malloc_aligned (env : call_env) (size p : Z) (st st' : gc_state_t) :
  mmap_ok (env_mmap env) -> inv st -> arena_aligned st ->
  gc_malloc env size st = Done (p, st') -> arena_aligned st'.
Proof.
  intros Hmm Hinv Hb H.
  destruct (gc_malloc_cases _ _ _ _ _ Hmm Hinv H) as (st1 & s & H1 & Hs & W & Hc).
  destruct (gc_malloc_prepare_cases _ _ _ _ H1) as (st0 & H0 & Hst1).
  pose proof (gc_malloc_init_aligned _ _ _ Hb H0) as Hb0.
  assert (Hb1 : arena_aligned st1).
  { destruct Hst1 as [-> | ->]; auto using gc_collect_aligned. }
  assert (Hbs : arena_aligned s).
  { destruct Hs as [-> | ->]; auto using gc_collect_aligned. }
  destruct Hc as [(_ & ->) | (ptr & fl & Ha & _ & _ & Hn & ->)]; auto.
  destruct Hbs as [Ho Hf].
  pose proof (align_size_mod_8 size) as Hal.
  assert (Ht : wrap (sizeof_gc_object_t + align_size size) mod GC_ALIGNMENT = 0).
  { rewrite wrap_mod_8. consts. div_lia. }
  destruct (gc_alloc_from_freelist_aligned (heap s) _ _ _ _ Ht Hf Ha) as [Hp Hf'].
  split; simpl; [| exact Hf'].
  constructor; [| exact Ho].
  unfold region_aligned, obj_region, obj_span. simpl. split; [exact Hp |].
  consts. div_lia.
Qed.

Lemma step_aligned (st st' : gc_state_t) :
  inv st -> arena_aligned st -> step st st' -> arena_aligned st'.
Proof.
  intros Hinv Hb Hs.
  destruct Hs as [sb mm st st' Hmm H | env size p st st' Hmm Hsz H
                 | env num size p st st' Hmm Hn' Hsz H
                 | env ptr new_size r st st' Hmm Hsz H
                 | ptr st | ctx st | i k w st Hw].
  - unfold gc_init_constructor, gc_init in H. simpl in H.
    destruct (initialized st); [injection H as <-; exact Hb |].
    destruct mm; [injection H as <- | discriminate].
    split; simpl; repeat constructor; simpl; consts; rewrite ?Z.sub_diag; reflexivity.
  - eapply gc_malloc_aligned; eauto.
  - eapply gc_malloc_aligned; eauto.
  - unfold gc_realloc in H.
    destruct (ptr =? NULL).
    { apply with_retval_Done in H as (p & H). eapply gc_malloc_aligned; eauto. }
    destruct (new_size =? 0); [injection H as <- <-; exact Hb |].
    destruct (find_payload ptr (objects st)) as [obj |].
    + destruct (_ <=? _); injection H as <- <-; exact Hb.
    + apply with_retval_Done in H as (p & H). eapply gc_malloc_aligned; eauto.
  - exact Hb.
  - apply gc_collect_aligned, Hb.
  - destruct Hb as [Ho Hf]. split; simpl; [| exact Hf].
    rewrite store_word_regions. exact Ho.
Qed.

Lemma reachable_aligned (st : gc_state_t) : reachable st -> arena_aligned st.
Proof.
  induction 1 as [| st st' Hr IH Hs]; [split; constructor |].
  eapply step_aligned; eauto using reachable_inv.
Qed.

(** ** A second collection *)







(** ** The path of [gc_malloc] without collection *)

Lemma gc_malloc_fast (env : call_env) (size : Z) (st : gc_state_t) (b : gc_free_block_t)
    (fl : list gc_free_block_t) :
  wf st -> free_list st = b :: fl ->
  0 <= size -> size + 7 < SIZE_MAX_plus_1 ->
  5 * (heap_used st + (sizeof_gc_object_t + align_size size)) <= 4 * heap_size st ->
  sizeof_gc_object_t + align_size size + sizeof_gc_free_block_t + GC_ALIGNMENT
    <= blk_size b ->
  gc_malloc env size st =
  Done (blk_addr b + sizeof_gc_object_t,
        set_allocation_count (allocation_count st + 1)
          (set_heap_used (heap_used st + (sizeof_gc_object_t + align_size size))
             (set_objects ({| obj_addr := blk_addr b; obj_size := align_size size;
                              obj_marked := false; obj_data := fun _ => 0 |}
                           :: objects st)
                (set_free_list ({| blk_addr := blk_addr b
                                                + (sizeof_gc_object_t + align_size size);
                                   blk_size := blk_size b
                                               - (sizeof_gc_object_t + align_size size) |}
                                :: fl) st)))).
Proof.
  intros W Efl Hs Hlt Hth Hblk.
  destruct (align_size_covers size Hs Hlt) as [Hc _].
  pose proof (wf_heap_size _ W) as Ehs.
  pose proof (wf_used _ W) as Eu. pose proof (wf_total _ W) as Ht.
  pose proof (sum_len_nonneg _ _ (wf_regions _ W)) as Hu0.
  pose proof (free_bytes_nonneg _ _ _ (wf_chain _ W)) as Hf0.
  pose proof (wf_chain _ W) as Hch. rewrite Efl in Hch, Hf0, Ht.
  destruct Hch as (_ & _ & Hch). pose proof (free_bytes_nonneg _ _ _ Hch) as Hf1.
  unfold free_bytes in Ht, Hf0, Hf1. simpl in Ht, Hf0. fold (registry_bytes (objects st)) in Hu0.
  assert (Hbs : blk_size b <= GC_HEAP_SIZE) by (rewrite Ehs in Ht; lia).
  assert (Hu : 0 <= heap_used st) by lia.
  assert (Htot : wrap (sizeof_gc_object_t + align_size size)
                 = sizeof_gc_object_t + align_size size)
    by (apply wrap_small; consts; lia).
  unfold gc_malloc, gc_malloc_prepare, gc_malloc_init.
  rewrite (wf_initialized _ W). simpl. rewrite Htot.
  assert (Hno : exceeds_threshold
                  (wrap (heap_used st + (sizeof_gc_object_t + align_size size)))
                  (heap_size st) = false).
  { rewrite wrap_small by (rewrite Ehs in Hth; consts; lia). rewrite Ehs.
    destruct (exceeds_threshold _ _) eqn:E; [| reflexivity].
    apply exceeds_threshold_spec in E; [rewrite Ehs in Hth; lia |].
    rewrite Ehs in Hth. consts. lia. }
  rewrite Hno. unfold gc_malloc_acquire. rewrite Htot, Efl. simpl.
  replace (sizeof_gc_object_t + align_size size <=? blk_size b) with true
    by (symmetry; apply Z.leb_le; consts; lia).
  rewrite wrap_small by (consts; lia).
  replace (sizeof_gc_object_t + align_size size + sizeof_gc_free_block_t + GC_ALIGNMENT
           <=? blk_size b) with true by (symmetry; apply Z.leb_le; lia).
  unfold gc_malloc_commit.
  replace (SIZE_MAX_plus_1 <=? sizeof_gc_object_t + align_size size) with false
    by (symmetry; apply Z.leb_gt; consts; lia).
  simpl. rewrite wrap_small by (consts; lia).
  rewrite wrap_small by (rewrite Ehs in Hth; consts; lia).
  reflexivity.
Qed.

Lemma gc_malloc_times_S (n : nat) (env : call_env) (size : Z) (st : gc_state_t) :
  gc_malloc_times (S n) env size st
  = state_of (gc_malloc env size (gc_malloc_times n env size st)).
Proof. reflexivity. Qed.

(** * Further properties of the collector *)

(** ** Initialisation *)

(** X1: a call of [gc_init] that returns leaves the collector initialised,
    and calling it again, whatever [mmap] would answer, changes nothing.
    When the heap did not exist before, the state returned has an empty
    registry, no byte in use, both counters at zero, the recorded stack
    bottom kept, and a free list made of one block that covers the whole
    mapping. *)
Theorem gc_init_idempotent (mm mm' : option Z) (st st' : gc_state_t) :
  gc_init mm st = Done st' ->
  initialized st' = true /\
  gc_init mm' st' = Done st' /\
  (initialized st = false ->
   objects st' = [] /\ heap_used st' = 0 /\ heap_size st' = GC_HEAP_SIZE /\
   free_list st' = [ {| blk_addr := heap st'; blk_size := GC_HEAP_SIZE |} ] /\
   collection_count st' = 0 /\ allocation_count st' = 0 /\
   stack_bottom st' = stack_bottom st).
Proof.
  unfold gc_init. destruct (initialized st) eqn:Hi.
  - intros [= <-]. rewrite Hi. split; [reflexivity |]. split; [reflexivity |].
    discriminate.
  - destruct mm as [base |]; [| discriminate].
    intros [= <-]. simpl. repeat split; auto.
Qed.

Lemma gc_init_idempotent_witness :
  gc_init (Some 4096) (set_stack_bottom 8192 gc_state0) = Done st_boot /\
  initialized st_boot = true /\
  gc_init None st_boot = Done st_boot /\
  free_list st_boot = [ {| blk_addr := heap st_boot; blk_size := GC_HEAP_SIZE |} ].
Proof.
  split; [reflexivity |].
  destruct (gc_init_idempotent (Some 4096) None (set_stack_bottom 8192 gc_state0) st_boot
              eq_refl) as (H1 & H2 & H3).
  split; [exact H1 |]. split; [exact H2 |].
  apply (H3 eq_refl).
Defined.

(** ** Layout of the arena in every reachable state *)

(** X2: in every reachable state the header and the payload of every
    registered object, and every free block, lie inside the mapping
    [heap, heap + heap_size); no entry point hands out or keeps a byte
    outside it.  Every free block is large enough for an object header. *)
Theorem regions_inside_arena (st : gc_state_t) :
  reachable st ->
  (forall o, In o (objects st) ->
     heap st <= obj_addr o /\ 0 <= obj_size o /\
     obj_data_addr o + obj_size o <= heap st + heap_size st) /\
  (forall b, In b (free_list st) ->
     heap st <= blk_addr b /\ sizeof_gc_object_t <= blk_size b /\
     blk_addr b + blk_size b <= heap st + heap_size st).
Proof.
  intros Hr. destruct (reachable_bounded _ Hr) as [Ho Hf].
  pose proof (reachable_inv _ Hr) as Hinv. split.
  - intros o Hin. rewrite Forall_map, Forall_forall in Ho.
    apply list_elem_of_In in Hin. specialize (Ho o Hin).
    destruct Hinv as [(_ & E & _) | W].
    { rewrite E in Hin. inversion Hin. }
    pose proof (wf_regions _ W) as Hok. rewrite Forall_map, Forall_forall in Hok.
    specialize (Hok o Hin). simpl in Ho, Hok.
    unfold in_arena, region_in, obj_data_addr in *. consts. lia.
  - intros b Hin. rewrite Forall_forall in Hf.
    apply list_elem_of_In in Hin. specialize (Hf b Hin).
    destruct Hinv as [(_ & _ & E & _) | W].
    { rewrite E in Hin. inversion Hin. }
    pose proof (free_chain_sizes _ _ _ (wf_chain _ W)) as Hsz.
    rewrite Forall_forall in Hsz. specialize (Hsz b Hin).
    unfold in_arena, region_in in Hf. simpl in Hf. lia.
Qed.

Lemma regions_inside_arena_witness :
  reachable st_swept /\
  (forall o, In o (objects st_swept) ->
     heap st_swept <= obj_addr o /\ 0 <= obj_size o /\
     obj_data_addr o + obj_size o <= heap st_swept + heap_size st_swept) /\
  (forall b, In b (free_list st_swept) ->
     heap st_swept <= blk_addr b /\ sizeof_gc_object_t <= blk_size b /\
     blk_addr b + blk_size b <= heap st_swept + heap_size st_swept).
Proof.
  split; [exact reachable_st_swept |].
  exact (regions_inside_arena st_swept reachable_st_swept).
Defined.

(** X3: in every reachable state two different registered objects occupy
    disjoint spans (header and payload), and no registered object overlaps
    a block of the free list: memory that is free is never part of a live
    object. *)
Theorem live_objects_never_overlap (st : gc_state_t) :
  reachable st ->
  (forall (i j : nat) (o o' : gc_object_t),
     i <> j -> objects st !! i = Some o -> objects st !! j = Some o' ->
     apart (obj_region o) (obj_region o')) /\
  (forall o b, In o (objects st) -> In b (free_list st) ->
     apart (obj_region o) (blk_region b)).
Proof.
  intros Hr. destruct (reachable_inv _ Hr) as [(_ & E & _) | W].
  { rewrite E. split; [intros i j o o' _ H; discriminate | intros o b []]. }
  split.
  - intros i j o o' Hij Hi Hj.
    apply (pairwise_apart_lookup _ i j _ _ (wf_apart _ W) Hij).
    + change (map obj_region (objects st)) with (obj_region <$> objects st).
      rewrite list_lookup_fmap, Hi. reflexivity.
    + change (map obj_region (objects st)) with (obj_region <$> objects st).
      rewrite list_lookup_fmap, Hj. reflexivity.
  - intros o b Ho Hb. pose proof (wf_off _ W) as Hoff.
    rewrite Forall_map, Forall_forall in Hoff.
    apply list_elem_of_In in Ho. specialize (Hoff o Ho). simpl in Hoff.
    unfold off_blocks in Hoff. rewrite Forall_forall in Hoff.
    apply Hoff, list_elem_of_In, Hb.
Qed.

Lemma live_objects_never_overlap_witness :
  reachable st_frag /\
  (forall (i j : nat) (o o' : gc_object_t),
     i <> j -> objects st_frag !! i = Some o -> objects st_frag !! j = Some o' ->
     apart (obj_region o) (obj_region o')) /\
  (forall o b, In o (objects st_frag) -> In b (free_list st_frag) ->
     apart (obj_region o) (blk_region b)).
Proof.
  split; [exact reachable_st_frag |].
  exact (live_objects_never_overlap st_frag reachable_st_frag).
Defined.

(** X4: mark flags live only inside a collection: in every reachable state,
    that is between any two calls of the entry points, the flag of every
    registered object is clear. *)
Theorem marks_clear_between_calls (st : gc_state_t) :
  reachable st -> forall o, In o (objects st) -> obj_marked o = false.
Proof.
  intros Hr o Hin. pose proof (reachable_no_marks _ Hr) as Hn.
  unfold no_marks in Hn. rewrite Forall_forall in Hn.
  apply Hn, list_elem_of_In, Hin.
Qed.

Lemma marks_clear_between_calls_witness :
  reachable st_swept /\ forall o, In o (objects st_swept) -> obj_marked o = false.
Proof.
  split; [exact reachable_st_swept |].
  exact (marks_clear_between_calls st_swept reachable_st_swept).
Defined.

(** ** The containment lookup *)

(** X5: in a reachable state [gc_find_object_containing] is exact: it
    returns the object at position [i] of the registry if and only if the
    address lies in the payload of that object.  The arena test never
    rejects an interior pointer, and, objects being disjoint, the order of
    the registry does not matter. *)
Theorem gc_find_object_containing_exact (st : gc_state_t) (p : Z) (i : nat) :
  reachable st ->
  gc_find_object_containing st p = Some i <->
  exists o, objects st !! i = Some o /\
            obj_data_addr o <= p < obj_data_addr o + obj_size o.
Proof.
  intros Hr. split.
  - unfold gc_find_object_containing. destruct (negb _); [discriminate |].
    intros Hf. destruct (find_containing_contains _ _ _ Hf) as (o & Ho & Hc & _).
    exists o. split; [exact Ho |].
    unfold obj_contains in Hc. apply andb_true_iff in Hc as [H1 H2].
    apply Z.leb_le in H1. apply Z.ltb_lt in H2. lia.
  - intros (o & Ho & Hp).
    destruct (reachable_inv _ Hr) as [(_ & E & _) | W]; [rewrite E in Ho; discriminate |].
    apply (wf_find_containing st p i o W (reachable_bounded _ Hr) Ho).
    unfold obj_contains. apply andb_true_iff.
    split; [apply Z.leb_le | apply Z.ltb_lt]; lia.
Qed.

Lemma gc_find_object_containing_exact_witness :
  reachable st_three /\
  (gc_find_object_containing st_three 4152 = Some 1%nat <->
   exists o, objects st_three !! 1%nat = Some o /\
             obj_data_addr o <= 4152 < obj_data_addr o + obj_size o).
Proof.
  split; [exact reachable_st_three |].
  exact (gc_find_object_containing_exact st_three 4152 1 reachable_st_three).
Defined.

(** ** Marking and collecting *)

Lemma st_three_points_nowhere (i j : nat) : ~ points_to st_three i j.
Proof.
  intros (o & w & Hi & Hw & Hv & _).
  assert (w = 0) as ->.
  { destruct i as [| [| [| i]]]; simpl in Hi; try discriminate;
      injection Hi as <-; vm_compute in Hw; destruct Hw as [<- | []]; reflexivity. }
  vm_compute in Hv. discriminate.
Qed.

Lemma st_three_reaches (i j : nat) : reaches st_three i j -> i = j.
Proof.
  induction 1 as [| i j k _ IH Hp]; [reflexivity |].
  destruct (st_three_points_nowhere _ _ Hp).
Qed.


Lemma st_three_rooted (j : nat) : rooted ctx_root_4152 st_three j -> j = 1%nat.
Proof.
  intros (w & i & Hin & Hv & Hf & Hr).
  apply st_three_reaches in Hr as <-.
  vm_compute in Hin.
  repeat (destruct Hin as [<- | Hin]; [first [discriminate Hv | vm_compute in Hf; congruence] |]).
  destruct Hin.
Qed.

(** X6: the mark phase is exact.  Run in a reachable state, [gc_mark_roots]
    sets the flag of an object if and only if the object is conservatively
    reachable from one of the words it scans: the stack between the stack
    pointer and the recorded stack bottom, whichever of the two is lower,
    and the words of the [jmp_buf]. *)
Theorem gc_mark_roots_exact (ctx : machine_ctx) (st : gc_state_t) (j : nat) :
  reachable st ->
  is_marked (gc_mark_roots ctx st) j <-> rooted ctx st j.
Proof.
  intros Hr. pose proof (reachable_no_marks _ Hr) as Hn. split.
  - intros Hm. destruct (gc_mark_roots_sound _ _ _ Hm) as [(o & Ho & Hmo) | H]; [| exact H].
    exfalso. unfold no_marks in Hn. rewrite Forall_lookup in Hn.
    specialize (Hn _ _ Ho). simpl in Hn. congruence.
  - apply gc_mark_roots_complete, no_marks_closed, Hn.
Qed.

Lemma gc_mark_roots_exact_witness :
  reachable st_three /\
  (is_marked (gc_mark_roots ctx_root_4152 st_three) 1 <-> rooted ctx_root_4152 st_three 1).
Proof.
  split; [exact reachable_st_three |].
  exact (gc_mark_roots_exact ctx_root_4152 st_three 1 reachable_st_three).
Defined.

(** X7: a collection only removes objects.  The registry it leaves is a
    sublist of the registry it found: the objects kept are the same records
    (same address, size and payload, flag clear again), in the same order;
    nothing is moved, altered or added. *)
Theorem gc_collect_only_removes (ctx : machine_ctx) (st : gc_state_t) :
  reachable st -> sublist (objects (gc_collect ctx st)) (objects st).
Proof. intros Hr. apply gc_collect_sublist, reachable_no_marks, Hr. Qed.

Lemma gc_collect_only_removes_witness :
  reachable st_three /\
  sublist (objects (gc_collect ctx_root_4152 st_three)) (objects st_three).
Proof.
  split; [exact reachable_st_three |].
  exact (gc_collect_only_removes ctx_root_4152 st_three reachable_st_three).
Defined.



(** X9: every unreachable object is reclaimed.  An object that no scanned
    word reaches is off the registry after a collection, its header and
    payload bytes are taken off [heap_used], and the free list has grown by
    at least as many bytes. *)
Theorem gc_collect_frees_unrooted (ctx : machine_ctx) (st : gc_state_t) (j : nat)
    (o : gc_object_t) :
  reachable st -> objects st !! j = Some o -> ~ rooted ctx st j ->
  ~ In o (objects (gc_collect ctx st)) /\
  heap_used (gc_collect ctx st) + obj_span o <= heap_used st /\
  free_bytes (free_list st) + obj_span o <= free_bytes (free_list (gc_collect ctx st)).
Proof.
  intros Hr Ho Hroot.
  destruct (reachable_inv _ Hr) as [(_ & E & _) | W]; [rewrite E in Ho; discriminate |].
  pose proof (reachable_no_marks _ Hr) as Hn.
  assert (Hnin : ~ In o (objects (gc_collect ctx st))).
  { intros Hin.
    apply (gc_collect_lookup ctx st o (wf_initialized _ W) Hn) in Hin as (j' & Ho' & Hr').
    rewrite (wf_lookup_inj st j j' o W Ho Ho') in Hroot. contradiction. }
  split; [exact Hnin |].
  destruct (gc_collect_spec ctx st W) as (W' & _ & _ & Ef & _).
  assert (Hin : In o (objects st)).
  { apply list_elem_of_In. eapply list_elem_of_lookup_2, Ho. }
  pose proof (sublist_registry_bytes (heap st) _ _ o (gc_collect_sublist ctx st Hn)
                (wf_regions _ W) Hin Hnin) as Hb.
  rewrite (wf_used _ W'), (wf_used _ W) in *. lia.
Qed.

Lemma gc_collect_frees_unrooted_witness :
  reachable st_three /\
  ~ rooted ctx_root_4152 st_three 0 /\
  ~ In {| obj_addr := 4160; obj_size := 8; obj_marked := false; obj_data := fun _ => 0 |}
       (objects (gc_collect ctx_root_4152 st_three)) /\
  heap_used (gc_collect ctx_root_4152 st_three) + 32 <= heap_used st_three.
Proof.
  assert (H : ~ rooted ctx_root_4152 st_three 0).
  { intros Hr. apply st_three_rooted in Hr. discriminate. }
  split; [exact reachable_st_three |]. split; [exact H |].
  destruct (gc_collect_frees_unrooted ctx_root_4152 st_three 0 _ reachable_st_three
              eq_refl H) as (H1 & H2 & _).
  split; [exact H1 | exact H2].
Defined.

(** X10: an object without payload never survives a collection.  The
    containment lookup only finds objects whose payload holds the address,
    so no word, not even the pointer [gc_malloc (0)] returned, keeps a
    zero-size object alive: every object left by a collection has a payload
    of at least one byte. *)
Theorem gc_collect_drops_empty_objects (ctx : machine_ctx) (st : gc_state_t)
    (o : gc_object_t) :
  reachable st -> In o (objects (gc_collect ctx st)) -> 0 < obj_size o.
Proof.
  intros Hr Hin.
  destruct (reachable_inv _ Hr) as [(Hi & E & _) | W].
  { rewrite gc_collect_pre_init, E in Hin by exact Hi. destruct Hin. }
  apply (gc_collect_lookup ctx st o (wf_initialized _ W) (reachable_no_marks _ Hr)) in Hin
    as (j & Ho & w & i & _ & _ & Hf & Hreach).
  destruct (reaches_found _ _ _ _ Hf Hreach) as (w' & Hf').
  eapply found_positive; eauto.
Qed.

Lemma gc_collect_drops_empty_objects_witness :
  reachable st_three /\
  In {| obj_addr := 4128; obj_size := 8; obj_marked := false; obj_data := fun _ => 0 |}
     (objects (gc_collect ctx_root_4152 st_three)) /\
  0 < 8.
Proof.
  assert (H : In {| obj_addr := 4128; obj_size := 8; obj_marked := false;
                    obj_data := fun _ => 0 |}
                 (objects (gc_collect ctx_root_4152 st_three))).
  { vm_compute. left. reflexivity. }
  split; [exact reachable_st_three |]. split; [exact H |].
  exact (gc_collect_drops_empty_objects ctx_root_4152 st_three _ reachable_st_three H).
Defined.

(** ** The free list *)

(** X11: [gc_add_to_freelist] is a sorted insertion.  A span shorter than a
    free-block header is dropped and the list is returned as it was; any
    other span is added exactly once and every old block is kept; and a
    list that is ascending by address stays so. *)
Theorem gc_add_to_freelist_sorted (ptr size : Z) (fl : list gc_free_block_t) :
  ascending fl ->
  ascending (gc_add_to_freelist ptr size fl) /\
  (size < sizeof_gc_free_block_t -> gc_add_to_freelist ptr size fl = fl) /\
  (sizeof_gc_free_block_t <= size ->
   Permutation (gc_add_to_freelist ptr size fl)
               ({| blk_addr := ptr; blk_size := size |} :: fl)).
Proof.
  intros Ha. unfold gc_add_to_freelist.
  destruct (size <? sizeof_gc_free_block_t) eqn:E.
  - apply Z.ltb_lt in E. split; [exact Ha |]. split; [reflexivity | lia].
  - apply Z.ltb_ge in E. split; [apply insert_block_ascending, Ha |].
    split; [lia |]. intros _. apply insert_block_perm.
Qed.

Lemma gc_add_to_freelist_sorted_witness :
  ascending (free_list st_swept) /\
  ascending (gc_add_to_freelist 4128 32 (free_list st_swept)) /\
  gc_add_to_freelist 4128 8 (free_list st_swept) = free_list st_swept /\
  Permutation (gc_add_to_freelist 4128 32 (free_list st_swept))
              ({| blk_addr := 4128; blk_size := 32 |} :: free_list st_swept).
Proof.
  assert (H : ascending (free_list st_swept)).
  { simpl. repeat split; repeat constructor. simpl. lia. }
  split; [exact H |].
  destruct (gc_add_to_freelist_sorted 4128 32 (free_list st_swept) H) as (H1 & _ & H3).
  destruct (gc_add_to_freelist_sorted 4128 8 (free_list st_swept) H) as (_ & H2 & _).
  split; [exact H1 |]. split; [apply H2; reflexivity |].
  apply H3. discriminate.
Defined.

(** X12: one pass of [gc_coalesce_freelist] merges all it can.  In the list
    it returns no block ends where its successor starts, so a second pass
    changes nothing; the pass never lengthens the list, and a list without
    such neighbours is returned as it is. *)
Theorem gc_coalesce_freelist_idempotent (fl : list gc_free_block_t) :
  no_adjacent_neighbours (gc_coalesce_freelist fl) /\
  gc_coalesce_freelist (gc_coalesce_freelist fl) = gc_coalesce_freelist fl /\
  (length (gc_coalesce_freelist fl) <= length fl)%nat /\
  (no_adjacent_neighbours fl -> gc_coalesce_freelist fl = fl).
Proof.
  assert (Hfix : forall l, no_adjacent_neighbours l -> gc_coalesce_freelist l = l).
  { intros [| b l] H; [reflexivity | apply coalesce_from_fixed, H]. }
  assert (Hn : no_adjacent_neighbours (gc_coalesce_freelist fl)).
  { destruct fl as [| b fl]; [exact I | apply coalesce_from_neighbours]. }
  split; [exact Hn |]. split; [apply Hfix, Hn |]. split; [| apply Hfix].
  destruct fl as [| b fl]; [reflexivity | apply coalesce_from_length].
Qed.



(** ** Allocation *)

(** X14: what a successful [gc_malloc] hands out.  When a call made in a
    reachable state returns a pointer that is not null, the pointer is the
    payload address of a new object at the head of the registry; the
    payload has the requested size rounded up by [align_size] and every
    word of it is zero; the flag of the object is clear; its header and
    payload lie inside the mapping, overlap no other registered object and
    no free block; and the rest of the registry is a sublist of the
    registry at the call.  For a request that does not wrap, the payload
    holds at least the bytes asked for and fewer than 8 more. *)
Theorem gc_malloc_fresh (env : call_env) (size p : Z) (st st' : gc_state_t) :
  reachable st -> mmap_ok (env_mmap env) ->
  gc_malloc env size st = Done (p, st') -> p <> NULL ->
  exists o rest,
    objects st' = o :: rest /\
    obj_data_addr o = p /\ obj_size o = align_size size /\
    obj_marked o = false /\ (forall k, obj_data o k = 0) /\
    in_arena st' (obj_region o) /\
    Forall (apart (obj_region o)) (map obj_region rest) /\
    off_blocks (free_list st') (obj_region o) /\
    sublist rest (objects st) /\
    (0 <= size -> size + 7 < SIZE_MAX_plus_1 ->
     size <= obj_size o < size + GC_ALIGNMENT).
Proof.
  intros Hr Hmm H Hp.
  pose proof (reachable_inv _ Hr) as Hinv.
  pose proof (reachable_no_marks _ Hr) as Hn.
  destruct (gc_malloc_head _ _ _ _ _ Hmm Hinv Hn H Hp) as (ptr & rest & Eo & -> & Hlt & Hs).
  pose proof (gc_malloc_wf _ _ _ _ _ Hmm Hinv H) as W'.
  destruct (gc_malloc_bounded _ _ _ _ _ Hmm Hinv (reachable_bounded _ Hr) H) as [Hb _].
  pose proof (wf_apart _ W') as Ha. pose proof (wf_off _ W') as Hoff.
  rewrite Eo in Hb, Ha, Hoff. simpl in Hb, Ha, Hoff.
  inversion Hb as [| ? ? Hb1 _]; subst. inversion Hoff as [| ? ? Hoff1 _]; subst.
  eexists _, rest. split; [exact Eo |]. simpl.
  repeat split; auto; try apply Ha; try apply Hb1;
    destruct (align_size_covers size) as [Hc _]; auto; lia.
Qed.

Lemma gc_malloc_fresh_witness :
  reachable st_boot /\ mmap_ok (env_mmap env_no_roots) /\
  gc_malloc env_no_roots 8 st_boot = Done (4120, st_one) /\ 4120 <> NULL /\
  exists o rest,
    objects st_one = o :: rest /\
    obj_data_addr o = 4120 /\ obj_size o = align_size 8 /\
    obj_marked o = false /\ (forall k, obj_data o k = 0) /\
    in_arena st_one (obj_region o) /\
    Forall (apart (obj_region o)) (map obj_region rest) /\
    off_blocks (free_list st_one) (obj_region o) /\
    sublist rest (objects st_boot) /\
    (0 <= 8 -> 8 + 7 < SIZE_MAX_plus_1 -> 8 <= obj_size o < 8 + GC_ALIGNMENT).
Proof.
  assert (H : 4120 <> NULL) by discriminate.
  split; [exact reachable_st_boot |]. split; [exact mmap_ok_4096 |].
  split; [reflexivity |]. split; [exact H |].
  exact (gc_malloc_fresh env_no_roots 8 4120 st_boot st_one reachable_st_boot
           mmap_ok_4096 eq_refl H).
Defined.



(** X16: [gc_malloc] returns.  Once the heap exists, or when [mmap]
    succeeds, a request of at most 2^64 - 32 bytes neither ends the process
    nor writes outside the span it acquired: the call returns a pointer,
    null when no block fits after the retry collection. *)
Theorem gc_malloc_returns (env : call_env) (size : Z) (st : gc_state_t) :
  initialized st = true \/ env_mmap env <> None ->
  0 <= size -> size + sizeof_gc_object_t + GC_ALIGNMENT <= SIZE_MAX_plus_1 ->
  exists p st', gc_malloc env size st = Done (p, st').
Proof.
  intros Hi Hs Hn.
  assert (H0 : exists st0, gc_malloc_init env st = Done st0).
  { unfold gc_malloc_init, gc_init. destruct (initialized st); simpl; [eauto |].
    destruct (env_mmap env); [eauto |]. destruct Hi as [Hi | Hi]; [discriminate | contradiction]. }
  destruct H0 as (st0 & H0).
  assert (Hc : forall ptr total s, exists r,
             gc_malloc_commit ptr (align_size size) total s = Done r).
  { intros ptr total s. unfold gc_malloc_commit.
    destruct (align_size_covers size Hs ltac:(consts; lia)) as [Hc _].
    destruct (_ <=? _) eqn:E; [apply Z.leb_le in E; consts; lia | eauto]. }
  unfold gc_malloc, gc_malloc_prepare. rewrite H0.
  assert (Ha : forall s, exists p st', gc_malloc_acquire env size s = Done (p, st')).
  { intros s. unfold gc_malloc_acquire.
    destruct (gc_alloc_from_freelist _ (free_list s)) as [[ptr fl] |].
    - destruct (Hc ptr (wrap (sizeof_gc_object_t + align_size size)) (set_free_list fl s))
        as ([p st'] & ->). eauto.
    - destruct (gc_alloc_from_freelist _ _) as [[ptr fl] |]; [| eauto].
      destruct (Hc ptr (wrap (sizeof_gc_object_t + align_size size))
                  (set_free_list fl (gc_collect (env_ctx2 env) s)))
        as ([p st'] & ->). eauto. }
  destruct (exceeds_threshold _ _); apply Ha.
Qed.

Lemma gc_malloc_returns_witness :
  (initialized st_big = true \/ env_mmap env_no_roots <> None) /\
  exists p st', gc_malloc env_no_roots 2000000 st_big = Done (p, st').
Proof.
  assert (H : initialized st_big = true \/ env_mmap env_no_roots <> None)
    by (left; reflexivity).
  split; [exact H |].
  apply (gc_malloc_returns env_no_roots 2000000 st_big H).
  - lia.
  - vm_compute. discriminate.
Defined.

(** X17: the largest requests are not rejected.  For a size from 2^64 - 31
    to 2^64 - 8 the rounded size plus the header wraps around to at most 16
    bytes; in a reachable state whose free list is not empty [gc_malloc]
    then acquires that small span and clears almost 2^64 bytes behind its
    header.  It does not return the null pointer. *)
Theorem gc_malloc_largest_sizes_fault (env : call_env) (size : Z) (st : gc_state_t) :
  reachable st -> initialized st = true -> free_list st <> [] ->
  SIZE_MAX_plus_1 - 31 <= size <= SIZE_MAX_plus_1 - 8 ->
  wrap (sizeof_gc_object_t + align_size size) <= 16 /\
  gc_malloc env size st = Fault.
Proof.
  intros Hr Hi Hne Hs.
  pose proof (wf_not_pre_init _ (reachable_inv _ Hr) Hi) as W.
  assert (Ea : SIZE_MAX_plus_1 - sizeof_gc_object_t <= align_size size < SIZE_MAX_plus_1
               /\ align_size size mod 8 = 0).
  { rewrite align_size_small by (consts; lia). consts. div_lia. }
  assert (Et : 0 <= wrap (sizeof_gc_object_t + align_size size) <= 16).
  { unfold wrap. consts. div_lia. }
  split; [lia |].
  assert (Hacq : forall s, wf s -> free_list s <> [] -> gc_malloc_acquire env size s = Fault).
  { intros s Ws Hs'. unfold gc_malloc_acquire.
    destruct (free_list s) as [| b fl] eqn:Efl; [contradiction |].
    pose proof (wf_chain _ Ws) as Hch. rewrite Efl in Hch. destruct Hch as (_ & Hb & _).
    simpl.
    replace (wrap (sizeof_gc_object_t + align_size size) <=? blk_size b) with true
      by (symmetry; apply Z.leb_le; consts; lia).
    unfold gc_malloc_commit.
    replace (SIZE_MAX_plus_1 <=? sizeof_gc_object_t + align_size size) with true
      by (symmetry; apply Z.leb_le; lia).
    destruct (_ <=? blk_size b); reflexivity. }
  unfold gc_malloc, gc_malloc_prepare, gc_malloc_init. rewrite Hi. simpl.
  destruct (exceeds_threshold _ _); [| apply Hacq; auto].
  apply Hacq; [apply gc_collect_wf, W |].
  intros E. pose proof (gc_collect_bytes (env_ctx1 env) st W) as Hb.
  destruct (gc_collect_spec (env_ctx1 env) st W) as (_ & _ & Hu & _).
  rewrite E in Hb. unfold free_bytes at 1 in Hb. simpl in Hb.
  destruct (free_list st) as [| b fl] eqn:Efl; [contradiction |].
  pose proof (wf_chain _ W) as Hch. rewrite Efl in Hch. destruct Hch as (_ & Hb1 & Hch).
  pose proof (free_bytes_nonneg _ _ _ Hch) as Hfb.
  unfold free_bytes in Hb, Hfb. simpl in Hb. consts. lia.
Qed.

Lemma gc_malloc_largest_sizes_fault_witness :
  reachable st_one /\ initialized st_one = true /\ free_list st_one <> [] /\
  wrap (sizeof_gc_object_t + align_size (SIZE_MAX_plus_1 - 20)) <= 16 /\
  gc_malloc env_no_roots (SIZE_MAX_plus_1 - 20) st_one = Fault.
Proof.
  assert (H : free_list st_one <> []) by discriminate.
  split; [exact reachable_st_one |]. split; [reflexivity |]. split; [exact H |].
  apply (gc_malloc_largest_sizes_fault env_no_roots (SIZE_MAX_plus_1 - 20) st_one
           reachable_st_one eq_refl H).
  vm_compute. split; discriminate.
Defined.



(** ** Accounting *)

(** X19: the report of [gc_stats].  Once the heap exists, in every
    reachable state the loops of [gc_stats] count the objects of the
    registry and the blocks of the free list without overflow of their
    [int] counters, the free bytes are summed without wrap-around, and the
    numbers printed are consistent: bytes in use plus free bytes do not
    exceed the heap size, and every object and every free block accounts
    for at least a header of 24 bytes. *)
Theorem gc_stats_consistent (st : gc_state_t) :
  reachable st -> initialized st = true ->
  rep_objects (gc_stats st) = Z.of_nat (length (objects st)) /\
  rep_free_blocks (gc_stats st) = Z.of_nat (length (free_list st)) /\
  rep_free_bytes (gc_stats st) = free_bytes (free_list st) /\
  rep_heap_used (gc_stats st) + rep_free_bytes (gc_stats st) <= rep_heap_size (gc_stats st) /\
  sizeof_gc_object_t * rep_objects (gc_stats st) <= rep_heap_used (gc_stats st) /\
  sizeof_gc_object_t * rep_free_blocks (gc_stats st) <= rep_free_bytes (gc_stats st) /\
  rep_objects (gc_stats st) < 2 ^ 31 /\ rep_free_blocks (gc_stats st) < 2 ^ 31.
Proof.
  intros Hr Hi. pose proof (wf_not_pre_init _ (reachable_inv _ Hr) Hi) as W.
  pose proof (registry_bytes_length _ _ (wf_regions _ W)) as Ho.
  destruct (free_bytes_length _ _ _ (wf_chain _ W)) as [Hf Hnn].
  pose proof (wf_total _ W) as Ht. pose proof (wf_used _ W) as Hu.
  pose proof (wf_heap_size _ W) as Hs.
  unfold gc_stats. rewrite count_fold.
  rewrite free_fold; [| lia | exact Hnn | rewrite Hs in Ht; consts; lia].
  simpl. rewrite Hs in *. consts. lia.
Qed.

Lemma gc_stats_consistent_witness :
  reachable st_swept /\ initialized st_swept = true /\
  rep_objects (gc_stats st_swept) = 1 /\
  rep_free_blocks (gc_stats st_swept) = 2 /\
  rep_free_bytes (gc_stats st_swept) = 1048544 /\
  rep_heap_used (gc_stats st_swept) + rep_free_bytes (gc_stats st_swept)
    <= rep_heap_size (gc_stats st_swept).
Proof.
  split; [exact reachable_st_swept |]. split; [reflexivity |].
  destruct (gc_stats_consistent st_swept reachable_st_swept eq_refl)
    as (H1 & H2 & H3 & H4 & _).
  split; [exact H1 |]. split; [exact H2 |]. split; [exact H3 | exact H4].
Defined.

(** X20: bytes are never created.  Once the heap exists, no action of the
    program makes the sum of the bytes in use and the free bytes larger; a
    collection keeps the sum as it is, moving bytes from the registry to
    the free list. *)
Theorem arena_bytes_never_grow (st st' : gc_state_t) :
  reachable st -> initialized st = true -> step st st' ->
  heap_used st' + free_bytes (free_list st') <= heap_used st + free_bytes (free_list st) /\
  (forall ctx,
     heap_used (gc_collect ctx st) + free_bytes (free_list (gc_collect ctx st))
     = heap_used st + free_bytes (free_list st)).
Proof.
  intros Hr Hi Hs. pose proof (wf_not_pre_init _ (reachable_inv _ Hr) Hi) as W.
  split; [| intros ctx; apply gc_collect_bytes, W].
  destruct Hs as [sb mm st st' Hmm H | env size p st st' Hmm Hsz H
                 | env num size p st st' Hmm Hn' Hsz H
                 | env ptr new_size r st st' Hmm Hsz H
                 | ptr st | ctx st | i k w st Hw].
  - unfold gc_init_constructor, gc_init in H. simpl in H. rewrite Hi in H.
    injection H as <-. simpl. lia.
  - eapply gc_malloc_bytes; eauto.
  - eapply gc_malloc_bytes; eauto.
  - unfold gc_realloc in H.
    destruct (ptr =? NULL).
    { apply with_retval_Done in H as (p & H). eapply gc_malloc_bytes; eauto. }
    destruct (new_size =? 0); [injection H as <- <-; lia |].
    destruct (find_payload ptr (objects st)) as [obj |].
    + destruct (_ <=? _); injection H as <- <-; lia.
    + apply with_retval_Done in H as (p & H). eapply gc_malloc_bytes; eauto.
  - unfold gc_free. lia.
  - unfold gc_force_collect. rewrite gc_collect_bytes by exact W. lia.
  - simpl. lia.
Qed.

Lemma step_st_three_st_swept : step st_three st_swept.
Proof. apply (step_force_collect ctx_root_4152 st_three). Qed.

Lemma arena_bytes_never_grow_witness :
  reachable st_three /\ initialized st_three = true /\ step st_three st_swept /\
  heap_used st_swept + free_bytes (free_list st_swept)
    <= heap_used st_three + free_bytes (free_list st_three).
Proof.
  split; [exact reachable_st_three |]. split; [reflexivity |].
  split; [exact step_st_three_st_swept |].
  apply (arena_bytes_never_grow st_three st_swept reachable_st_three eq_refl
           step_st_three_st_swept).
Defined.



(** ** More on marking, sweeping and the end of the process *)

(** X22: one call of [gc_mark_object] marks nothing but what its argument
    reaches: an object whose flag is set after the call had it set before,
    or is conservatively reachable from the object the address resolves
    to. *)
Theorem gc_mark_object_marks_only_reachable (p : Z) (st : gc_state_t) (j : nat) :
  is_marked (gc_mark_object_run p st) j ->
  is_marked st j \/
  exists i, gc_find_object_containing st p = Some i /\ reaches st i j.
Proof.
  intros H. eapply gc_mark_object_sound; [apply gc_mark_object_run_eq | exact H].
Qed.

Lemma gc_mark_object_marks_only_reachable_witness :
  is_marked (gc_mark_object_run 4120 st_unmarked) 0 /\
  (is_marked st_unmarked 0 \/
   exists i, gc_find_object_containing st_unmarked 4120 = Some i /\
             reaches st_unmarked i 0).
Proof.
  assert (H : is_marked (gc_mark_object_run 4120 st_unmarked) 0).
  { eexists. split; [vm_compute; reflexivity | reflexivity]. }
  split; [exact H |].
  exact (gc_mark_object_marks_only_reachable 4120 st_unmarked 0 H).
Defined.

(** X23: [gc_sweep], in any state, keeps exactly the objects whose flag is
    set, in registry order, and clears their flags. *)
Theorem gc_sweep_keeps_marked (st : gc_state_t) :
  objects (gc_sweep st) = map (set_mark false) (List.filter obj_marked (objects st)).
Proof.
  rewrite gc_sweep_objects. induction (objects st) as [| o l IH]; simpl; [reflexivity |].
  destruct (obj_marked o); simpl; congruence.
Qed.


(** ** Alignment, and pointers that keep their objects *)

(** X25: alignment.  In every reachable state every payload starts a
    multiple of 8 bytes after the base of the heap and every payload size
    is a multiple of 8; the same holds for the blocks of the free list.  So
    every pointer [gc_malloc] returns is aligned to 8 bytes as soon as the
    base [mmap] returned is. *)
Theorem payloads_aligned (st : gc_state_t) :
  reachable st ->
  (forall o, In o (objects st) ->
     (obj_data_addr o - heap st) mod GC_ALIGNMENT = 0 /\
     obj_size o mod GC_ALIGNMENT = 0) /\
  (forall b, In b (free_list st) ->
     (blk_addr b - heap st) mod GC_ALIGNMENT = 0 /\
     blk_size b mod GC_ALIGNMENT = 0).
Proof.
  intros Hr. destruct (reachable_aligned _ Hr) as [Ho Hf]. split.
  - intros o Hin. rewrite Forall_map, Forall_forall in Ho.
    apply list_elem_of_In in Hin. destruct (Ho o Hin) as [H1 H2].
    unfold obj_data_addr, obj_region, obj_span in *. simpl in *. consts. div_lia.
  - intros b Hin. rewrite Forall_forall in Hf.
    apply list_elem_of_In in Hin. apply (Hf b Hin).
Qed.

Lemma payloads_aligned_witness :
  reachable st_frag /\
  (forall o, In o (objects st_frag) ->
     (obj_data_addr o - heap st_frag) mod GC_ALIGNMENT = 0 /\
     obj_size o mod GC_ALIGNMENT = 0) /\
  (forall b, In b (free_list st_frag) ->
     (blk_addr b - heap st_frag) mod GC_ALIGNMENT = 0 /\
     blk_size b mod GC_ALIGNMENT = 0).
Proof.
  split; [exact reachable_st_frag |].
  exact (payloads_aligned st_frag reachable_st_frag).
Defined.





(** ** The ends of the allocation path *)

(** X28: the null pointer means the arena is full.  When [gc_malloc]
    returns the null pointer in a reachable state, both attempts on the
    free list have failed: the state returned is the one left by the retry
    collection, and neither before nor after that collection does the free
    list hold a block as large as the span asked for. *)
Theorem gc_malloc_null_only_when_full (env : call_env) (size : Z) (st st' : gc_state_t) :
  reachable st -> mmap_ok (env_mmap env) ->
  gc_malloc env size st = Done (NULL, st') ->
  exists st1,
    gc_malloc_prepare env size st = Done st1 /\
    st' = gc_collect (env_ctx2 env) st1 /\
    Forall (fun b => blk_size b < wrap (sizeof_gc_object_t + align_size size))
           (free_list st1) /\
    Forall (fun b => blk_size b < wrap (sizeof_gc_object_t + align_size size))
           (free_list st').
Proof.
  intros Hr Hmm H. pose proof (reachable_inv _ Hr) as Hinv.
  unfold gc_malloc, gc_malloc_acquire in H.
  destruct (gc_malloc_prepare env size st) as [s1 | |] eqn:E1; try discriminate.
  pose proof (gc_malloc_prepare_wf _ _ _ _ Hmm Hinv E1) as W1.
  pose proof (gc_collect_wf (env_ctx2 env) _ W1) as W2.
  pose proof (align_size_range size) as Hsz.
  assert (Hs : 0 <= align_size size) by lia.
  exists s1. split; [reflexivity |].
  destruct (gc_alloc_from_freelist _ (free_list s1)) as [[ptr fl] |] eqn:E2.
  { destruct (gc_malloc_commit_spec s1 st' (align_size size) ptr NULL fl W1 Hs E2 H)
      as (_ & Hp & Hh & _).
    pose proof (wf_heap _ W1). consts. lia. }
  destruct (gc_alloc_from_freelist _ (free_list (gc_collect (env_ctx2 env) s1)))
    as [[ptr fl] |] eqn:E3.
  { destruct (gc_malloc_commit_spec _ st' (align_size size) ptr NULL fl W2 Hs E3 H)
      as (_ & Hp & Hh & _).
    pose proof (wf_heap _ W2). consts. lia. }
  injection H as <-.
  split; [reflexivity |].
  split; apply gc_alloc_from_freelist_none; assumption.
Qed.

Lemma gc_malloc_null_only_when_full_witness :
  reachable st_frag /\
  gc_malloc env_root_404144 700000 st_frag
    = Done (NULL, gc_collect ctx_root_404144 st_frag) /\
  exists st1,
    gc_malloc_prepare env_root_404144 700000 st_frag = Done st1 /\
    gc_collect ctx_root_404144 st_frag = gc_collect (env_ctx2 env_root_404144) st1 /\
    Forall (fun b => blk_size b < wrap (sizeof_gc_object_t + align_size 700000))
           (free_list st1) /\
    Forall (fun b => blk_size b < wrap (sizeof_gc_object_t + align_size 700000))
           (free_list (gc_collect ctx_root_404144 st_frag)).
Proof.
  assert (H : gc_malloc env_root_404144 700000 st_frag
              = Done (NULL, gc_collect ctx_root_404144 st_frag))
    by (vm_compute; reflexivity).
  split; [exact reachable_st_frag |]. split; [exact H |].
  exact (gc_malloc_null_only_when_full env_root_404144 700000 st_frag _
           reachable_st_frag mmap_ok_4096 H).
Defined.

(** X29: the path without collection.  In a reachable state with a heap,
    when the bytes in use plus the span asked for stay within four fifths
    of the arena and the first block of the free list can be split, the
    call runs no collection: it takes the span off the front of that
    block, registers the object there, and returns its payload address;
    nothing else in the state changes but the two counters of bytes and
    allocations. *)
Theorem gc_malloc_fast_path (env : call_env) (size : Z) (st : gc_state_t)
    (b : gc_free_block_t) (fl : list gc_free_block_t) :
  reachable st -> free_list st = b :: fl ->
  0 <= size -> size + 7 < SIZE_MAX_plus_1 ->
  5 * (heap_used st + (sizeof_gc_object_t + align_size size)) <= 4 * heap_size st ->
  sizeof_gc_object_t + align_size size + sizeof_gc_free_block_t + GC_ALIGNMENT
    <= blk_size b ->
  gc_malloc env size st =
  Done (blk_addr b + sizeof_gc_object_t,
        set_allocation_count (allocation_count st + 1)
          (set_heap_used (heap_used st + (sizeof_gc_object_t + align_size size))
             (set_objects ({| obj_addr := blk_addr b; obj_size := align_size size;
                              obj_marked := false; obj_data := fun _ => 0 |}
                           :: objects st)
                (set_free_list ({| blk_addr := blk_addr b
                                                + (sizeof_gc_object_t + align_size size);
                                   blk_size := blk_size b
                                               - (sizeof_gc_object_t + align_size size) |}
                                :: fl) st)))).
Proof.
  intros Hr Efl. apply gc_malloc_fast; [| exact Efl].
  destruct (reachable_inv _ Hr) as [(_ & _ & E & _) | W]; [| exact W].
  rewrite Efl in E. discriminate.
Qed.

Lemma gc_malloc_fast_path_witness :
  reachable st_one /\
  free_list st_one = [ {| blk_addr := 4128; blk_size := 1048544 |} ] /\
  gc_malloc env_no_roots 13 st_one =
  Done (4152,
        set_allocation_count 2
          (set_heap_used 72
             (set_objects ({| obj_addr := 4128; obj_size := 16;
                              obj_marked := false; obj_data := fun _ => 0 |}
                           :: objects st_one)
                (set_free_list [ {| blk_addr := 4168; blk_size := 1048504 |} ] st_one)))).
Proof.
  split; [exact reachable_st_one |]. split; [reflexivity |].
  apply (gc_malloc_fast_path env_no_roots 13 st_one
           {| blk_addr := 4128; blk_size := 1048544 |} [] reachable_st_one eq_refl).
  - lia.
  - reflexivity.
  - vm_compute. discriminate.
  - vm_compute. discriminate.
Defined.

(** X30: [GC_MAX_OBJECTS] is not a limit.  Objects of 8 bytes allocated one
    after the other on a fresh heap, with no root: for every number of
    calls up to 26000 no collection runs, every object stays registered
    and the free list is the one block behind them.  Nothing in the
    collector reads [GC_MAX_OBJECTS]: after 10001 calls the registry holds
    one object more than that. *)
Theorem gc_malloc_times_registers_all (n : nat) :
  Z.of_nat n <= 26000 ->
  reachable (gc_malloc_times n env_no_roots 8 st_boot) /\
  length (objects (gc_malloc_times n env_no_roots 8 st_boot)) = n /\
  heap_used (gc_malloc_times n env_no_roots 8 st_boot) = 32 * Z.of_nat n /\
  collection_count (gc_malloc_times n env_no_roots 8 st_boot) = 0 /\
  free_list (gc_malloc_times n env_no_roots 8 st_boot)
  = [ {| blk_addr := 4096 + 32 * Z.of_nat n;
         blk_size := GC_HEAP_SIZE - 32 * Z.of_nat n |} ].
Proof.
  induction n as [| n IH]; intros Hn.
  - split; [exact reachable_st_boot |]. repeat split.
  - destruct IH as (Hr & Hl & Hu & Hcc & Hf); [lia |].
    assert (W : wf (gc_malloc_times n env_no_roots 8 st_boot)).
    { destruct (reachable_inv _ Hr) as [(_ & _ & E & _) | W]; [| exact W].
      rewrite Hf in E. discriminate. }
    assert (Ea : align_size 8 = 8) by reflexivity.
    pose proof (gc_malloc_fast env_no_roots 8 _ _ _ W Hf) as Hfast.
    rewrite Ea, Hu, (wf_heap_size _ W) in Hfast. simpl blk_size in Hfast.
    specialize (Hfast ltac:(lia) ltac:(reflexivity) ltac:(consts; lia) ltac:(consts; lia)).
    rewrite gc_malloc_times_S.
    split.
    + eapply reachable_step; [exact Hr |].
      eapply (step_malloc env_no_roots 8); [exact mmap_ok_4096 | consts; lia |].
      rewrite Hfast. reflexivity.
    + rewrite Hfast. simpl. rewrite Hl, Hcc. repeat split.
      * consts. lia.
      * f_equal. f_equal; consts; lia.
Qed.

Lemma gc_malloc_times_registers_all_witness :
  Z.of_nat (Z.to_nat 10001) <= 26000 /\
  reachable (gc_malloc_times (Z.to_nat 10001) env_no_roots 8 st_boot) /\
  Z.of_nat (length (objects (gc_malloc_times (Z.to_nat 10001) env_no_roots 8 st_boot)))
    = GC_MAX_OBJECTS + 1 /\
  collection_count (gc_malloc_times (Z.to_nat 10001) env_no_roots 8 st_boot) = 0.
Proof.
  assert (H : Z.of_nat (Z.to_nat 10001) <= 26000) by lia.
  split; [exact H |].
  destruct (gc_malloc_times_registers_all (Z.to_nat 10001) H) as (Hr & Hl & _ & Hc & _).
  split; [exact Hr |]. split; [| exact Hc].
  rewrite Hl. unfold GC_MAX_OBJECTS. lia.
Defined.
